(** * Sophia optimizers (src/t5/t5/utils/sophia.py): a shallow embedding

    The file embeds the four optimizer classes [SophiaG], [SophiaG_RMS],
    [SophiaG_OG] and [SophiaG_RMSD] with their dispatch functions,
    single-tensor kernels and [__setstate__], and states the properties of
    the specification, and further properties of the code, over that
    embedding.

    Conventions of the embedding.
    - A tensor is a record with its shape, the dtype, layout and placement
      flags the source reads ([torch.is_complex], [.is_sparse], [.is_cuda])
      and its entries as real numbers; arithmetic is exact, so rounding,
      NaN and infinities of the floating-point formats are not represented.
      A complex tensor stores the real view that [torch.view_as_real]
      exposes: real and imaginary parts interleaved. What torch checks
      inside its primitives (devices or dtypes that differ between the
      operands) is not modelled.
    - Parameters are objects that the optimizer mutates in place and that
      may be listed more than once; they live in a heap addressed by an
      identifier, and [self.state] is a map from that identifier to the
      state dictionary (a missing entry is the empty dictionary, as for
      [defaultdict(dict)]).
    - Python exceptions are values of [exn]; a computation returns its
      outcome together with the store as mutated up to that point.
    - An in-place operation keeps the shape and the length of its target;
      the kernels receive the identifiers of the parameters and read the
      state tensors of each from [self.state], where the source passes
      parallel lists of references to the same tensors.
    - An identifier without an object in the heap stands for no parameter
      and the loops pass over it.
    - [step] is modelled for [closure=None]. *)

From Stdlib Require Import Reals Lra List String Bool.
From stdpp Require Import gmap list.
Open Scope R_scope.

#[global] Instance Rle_Decision (x y : R) : Decision (x <= y) := Rle_dec x y.
#[global] Instance Rlt_Decision (x y : R) : Decision (x < y) := Rlt_dec x y.

(** ** Tensors *)

Record Tensor := mkTensor {
  shape : list nat;
  is_complex : bool;
  is_sparse : bool;
  is_cuda : bool;
  data : list R
}.

Definition with_data (t : Tensor) (d : list R) : Tensor :=
  {| shape := shape t; is_complex := is_complex t; is_sparse := is_sparse t;
     is_cuda := is_cuda t; data := d |}.

(** The entries of the target of an in-place operation with one operand:
    [f] combines each entry with its counterpart. torch only admits an
    operand in the shape of the target (after broadcasting) and never
    resizes the target; an entry for which the operand here holds no
    counterpart is left as it is. *)
Fixpoint zip_inplace (f : R -> R -> R) (xs ys : list R) : list R :=
  match xs, ys with
  | x :: xs', y :: ys' => f x y :: zip_inplace f xs' ys'
  | _, _ => xs
  end.

(** [torch.zeros_like(p, memory_format=torch.preserve_format)]: a dense
    tensor of zeros with the shape, dtype and device of [p]. *)
Definition zeros_like (p : Tensor) : Tensor :=
  {| shape := shape p; is_complex := is_complex p; is_sparse := false;
     is_cuda := is_cuda p; data := repeat 0 (length (data p)) |}.

(** [torch.zeros((1,), dtype=torch.float, device=p.device)]. *)
Definition zeros_1 (p : Tensor) : Tensor :=
  {| shape := [1%nat]; is_complex := false; is_sparse := false;
     is_cuda := is_cuda p; data := [0] |}.

(** [torch.tensor(0.0)]: a zero-dimensional tensor on the host. *)
Definition tensor_0 : Tensor :=
  {| shape := []; is_complex := false; is_sparse := false;
     is_cuda := false; data := [0] |}.

(** [t.mul_(c)] for a real scalar [c]. *)
Definition mul_ (t : Tensor) (c : R) : Tensor :=
  with_data t (map (fun x => x * c) (data t)).

(** [t.add_(o, alpha=a)]: [t += a * o]. *)
Definition add_ (t o : Tensor) (a : R) : Tensor :=
  with_data t (zip_inplace (fun x y => x + a * y) (data t) (data o)).

(** [t.add_(c)] and [t += c] for a scalar [c]. *)
Definition add_scalar_ (t : Tensor) (c : R) : Tensor :=
  with_data t (map (fun x => x + c) (data t)).

(** [t.sub_(o)]. *)
Definition sub_ (t o : Tensor) : Tensor :=
  with_data t (zip_inplace (fun x y => x - y) (data t) (data o)).

(** [-t]. *)
Definition neg (t : Tensor) : Tensor :=
  with_data t (map Ropp (data t)).

(** Product of two complex tensors on their interleaved storage. *)
Fixpoint complex_mul (xs ys : list R) : list R :=
  match xs, ys with
  | a :: b :: xs', c :: d :: ys' =>
      (a * c - b * d) :: (a * d + b * c) :: complex_mul xs' ys'
  | _, _ => []
  end.

(** Elementwise product [t1 * t2] in the dtype of the operands. *)
Definition mul_data (cplx : bool) (xs ys : list R) : list R :=
  if cplx then complex_mul xs ys else zip_with Rmult xs ys.

(** [t.addcmul_(t1, t2, value=v)]: [t += v * t1 * t2]. *)
Definition addcmul_ (t t1 t2 : Tensor) (v : R) : Tensor :=
  with_data t (zip_inplace (fun x y => x + v * y) (data t)
                 (mul_data (is_complex t1) (data t1) (data t2))).

Definition sgn (x : R) : R :=
  if Rlt_dec 0 x then 1 else if Rlt_dec x 0 then -1 else 0.

(** [t.abs()], [t.sign()] and [t.clamp(None, u)]. *)
Definition abs (t : Tensor) : Tensor := with_data t (map Rabs (data t)).
Definition sign (t : Tensor) : Tensor := with_data t (map sgn (data t)).
Definition clamp_max (t : Tensor) (u : R) : Tensor :=
  with_data t (map (fun x => Rmin x u) (data t)).

(** [tensor.numel()] and [tensor.norm(2)]. *)
Definition numel (t : Tensor) : nat :=
  if is_complex t then Nat.div (length (data t)) 2 else length (data t).

Definition sum_sq (l : list R) : R := fold_right (fun x acc => x * x + acc) 0 l.

Definition norm2 (t : Tensor) : R := sqrt (sum_sq (data t)).

(** [_rms(tensor)]: [tensor.norm(2) / (tensor.numel() ** 0.5)]. *)
Definition _rms (tensor : Tensor) : R :=
  norm2 tensor / sqrt (INR (numel tensor)).

(** ** Exceptions and the store *)

Inductive exn :=
| ValueError (msg : string)
| RuntimeError (msg : string)
| KeyError (key : string)
| IndexError
| AttributeError (msg : string)
| AssertionError.

Inductive outcome (A : Type) :=
| Ok (a : A)
| Raise (e : exn).
Arguments Ok {A} a.
Arguments Raise {A} e.

Record ParamObj := mkParamObj {
  p_data : Tensor;
  p_grad : option Tensor
}.

(** The state dictionary of one parameter; [None] is a missing key. *)
Record StateDict := mkState {
  st_step : option Tensor;
  st_exp_avg : option Tensor;
  st_hessian : option Tensor;
  st_rms : option Tensor
}.

Definition empty_state : StateDict :=
  {| st_step := None; st_exp_avg := None; st_hessian := None; st_rms := None |}.

(** [len(state) == 0]. *)
Definition state_is_empty (s : StateDict) : bool :=
  match st_step s, st_exp_avg s, st_hessian s, st_rms s with
  | None, None, None, None => true
  | _, _, _, _ => false
  end.

Record Store := mkStore {
  heap : gmap nat ParamObj;
  state : gmap nat StateDict
}.

(** [self.state[p]]. *)
Definition get_state (p : nat) (w : Store) : StateDict :=
  default empty_state (state w !! p).

Definition set_state (p : nat) (s : StateDict) (w : Store) : Store :=
  {| heap := heap w; state := <[p := s]> (state w) |}.

Definition M (A : Type) : Type := Store -> outcome A * Store.

Definition ret {A} (a : A) : M A := fun w => (Ok a, w).
Definition raise {A} (e : exn) : M A := fun w => (Raise e, w).
Definition bind {A B} (m : M A) (k : A -> M B) : M B :=
  fun w => match m w with
           | (Ok a, w') => k a w'
           | (Raise e, w') => (Raise e, w')
           end.
Definition modify (f : Store -> Store) : M unit := fun w => (Ok tt, f w).

Declare Scope py_scope.
Delimit Scope py_scope with py.
Notation "'let*' x ':=' m 'in' k" := (bind m (fun x => k))
  (at level 10, x pattern, m at level 100, k at level 200) : py_scope.
Notation "m '>>' k" := (bind m (fun _ => k))
  (at level 90, right associativity) : py_scope.
Open Scope py_scope.

(** [for x in xs: body(x)] *)
Fixpoint for_each {X} (xs : list X) (body : X -> M unit) : M unit :=
  match xs with
  | [] => ret tt
  | x :: xs' => body x >> for_each xs' body
  end.

(** [for i, x in enumerate(xs): body(i, x)], counting from [i]. *)
Fixpoint for_enumerate {X} (i : nat) (xs : list X) (body : nat -> X -> M unit)
  : M unit :=
  match xs with
  | [] => ret tt
  | x :: xs' => body i x >> for_enumerate (S i) xs' body
  end.

(** A loop that threads the local variables [a] of its body. *)
Fixpoint for_fold {X A} (xs : list X) (a : A) (body : A -> X -> M A) : M A :=
  match xs with
  | [] => ret a
  | x :: xs' => let* a' := body a x in for_fold xs' a' body
  end.

(** ** Hyperparameters and construction *)

Record Hyper := mkHyper {
  lr : R;
  betas : R * R;
  rho : R;
  weight_decay : R;
  maximize : bool;
  capturable : bool
}.

Record ParamGroup := mkGroup {
  params : list nat;
  hyper : Hyper
}.

Record Optimizer := mkOptimizer {
  defaults : Hyper;
  param_groups : list ParamGroup
}.

(** [not 0.0 <= x] and [not 0.0 <= x < 1.0] as the source writes them. *)
Definition not_nonneg (x : R) : bool := negb (bool_decide (0 <= x)).
Definition not_unit_interval (x : R) : bool :=
  negb (bool_decide (0 <= x) && bool_decide (x < 1)).

(** The checks at the head of each [__init__]; the four classes repeat
    them verbatim. *)
Definition check_hyper (lr : R) (betas : R * R) (rho weight_decay : R)
  : outcome unit :=
  if not_nonneg lr then Raise (ValueError "Invalid learning rate: {}")
  else if not_unit_interval (fst betas)
  then Raise (ValueError "Invalid beta parameter at index 0: {}")
  else if not_unit_interval (snd betas)
  then Raise (ValueError "Invalid beta parameter at index 1: {}")
  else if not_nonneg rho
  then Raise (ValueError "Invalid rho parameter at index 1: {}")
  else if not_nonneg weight_decay
  then Raise (ValueError "Invalid weight_decay value: {}")
  else Ok tt.

(** The optimizer object over a plain list of parameters: one group that
    carries the defaults. *)
Definition one_group (ps : list nat) (d : Hyper) : Optimizer :=
  {| defaults := d; param_groups := [ {| params := ps; hyper := d |} ] |}.

(** [super().__init__(params, defaults)] for a plain list of parameters:
    torch's [Optimizer.__init__] raises [ValueError] on an empty list and
    builds the object with one group otherwise. *)
Definition Optimizer_init (ps : list nat) (d : Hyper) : outcome Optimizer :=
  match ps with
  | [] => Raise (ValueError "optimizer got an empty parameter list")
  | _ :: _ => Ok (one_group ps d)
  end.

Definition init_with (ps : list nat) (lr : R) (betas : R * R)
    (rho weight_decay : R) (maximize capturable : bool) : outcome Optimizer :=
  match check_hyper lr betas rho weight_decay with
  | Raise e => Raise e
  | Ok _ =>
      Optimizer_init ps
        {| lr := lr; betas := betas; rho := rho;
           weight_decay := weight_decay; maximize := maximize;
           capturable := capturable |}
  end.

Definition SophiaG_init := init_with.
Definition SophiaG_RMS_init := init_with.
Definition SophiaG_OG_init := init_with.
Definition SophiaG_RMSD_init := init_with.

(** ** Access to the objects of the store *)

Definition lift {A} (o : outcome A) : M A := fun w => (o, w).

(** [xs[i]] *)
Definition index {A} (xs : list A) (i : nat) : outcome A :=
  match xs !! i with
  | Some x => Ok x
  | None => Raise IndexError
  end.

(** The parameter tensor behind an identifier. *)
Definition lookup_param (p : nat) : M Tensor :=
  fun w => match heap w !! p with
           | Some po => (Ok (p_data po), w)
           | None => (Raise (KeyError "param"), w)
           end.

(** [state[key]] for the state dictionary of [p]. *)
Definition state_item (key : string) (proj : StateDict -> option Tensor)
    (p : nat) : M Tensor :=
  fun w => match proj (get_state p w) with
           | Some t => (Ok t, w)
           | None => (Raise (KeyError key), w)
           end.

Definition set_step (s : StateDict) (t : option Tensor) : StateDict :=
  {| st_step := t; st_exp_avg := st_exp_avg s; st_hessian := st_hessian s;
     st_rms := st_rms s |}.
Definition set_exp_avg (s : StateDict) (t : option Tensor) : StateDict :=
  {| st_step := st_step s; st_exp_avg := t; st_hessian := st_hessian s;
     st_rms := st_rms s |}.
Definition set_hessian (s : StateDict) (t : option Tensor) : StateDict :=
  {| st_step := st_step s; st_exp_avg := st_exp_avg s; st_hessian := t;
     st_rms := st_rms s |}.
Definition set_rms (s : StateDict) (t : option Tensor) : StateDict :=
  {| st_step := st_step s; st_exp_avg := st_exp_avg s;
     st_hessian := st_hessian s; st_rms := t |}.

(** An in-place operation writes the entries it computed into the storage
    of the object; the object keeps its own shape and flags, also when the
    operation ran on a real view of it. *)
Definition write (d : list R) (o : option Tensor) : option Tensor :=
  match o with
  | Some b => Some (with_data b d)
  | None => None
  end.

Definition store_param (p : nat) (t : Tensor) : M unit :=
  modify (fun w =>
    {| heap := alter (fun x => {| p_data := with_data (p_data x) (data t);
                                  p_grad := p_grad x |}) p (heap w);
       state := state w |}).

Definition store_step (p : nat) (t : Tensor) : M unit :=
  modify (fun w =>
    let s := get_state p w in
    set_state p (set_step s (write (data t) (st_step s))) w).

Definition store_exp_avg (p : nat) (t : Tensor) : M unit :=
  modify (fun w =>
    let s := get_state p w in
    set_state p (set_exp_avg s (write (data t) (st_exp_avg s))) w).

Definition store_hessian (p : nat) (t : Tensor) : M unit :=
  modify (fun w =>
    let s := get_state p w in
    set_state p (set_hessian s (write (data t) (st_hessian s))) w).

Definition store_rms (p : nat) (t : Tensor) : M unit :=
  modify (fun w =>
    let s := get_state p w in
    set_state p (set_rms s (write (data t) (st_rms s))) w).

(** ** Lazy state creation *)

(** The state initialisation of [SophiaG]: the step counter depends on
    [self.defaults["capturable"]]. *)
Definition init_state (cap : bool) (p : Tensor) (s : StateDict) : StateDict :=
  if state_is_empty s then
    {| st_step := Some (if cap then zeros_1 p else tensor_0);
       st_exp_avg := Some (zeros_like p);
       st_hessian := Some (zeros_like p);
       st_rms := None |}
  else s.

(** The state initialisation of [SophiaG_RMS], [SophiaG_OG] and
    [SophiaG_RMSD], which also creates ["rms"]. *)
Definition init_state_rms (p : Tensor) (s : StateDict) : StateDict :=
  if state_is_empty s then
    {| st_step := Some (zeros_1 p);
       st_exp_avg := Some (zeros_like p);
       st_hessian := Some (zeros_like p);
       st_rms := Some (zeros_1 p) |}
  else s.

(** [if "hessian" not in state.keys(): state["hessian"] = zeros_like(p)] *)
Definition backfill_hessian (p : Tensor) (s : StateDict) : StateDict :=
  match st_hessian s with
  | None => set_hessian s (Some (zeros_like p))
  | Some _ => s
  end.

Section Sophia.

(** [Tensor.addcmul_] with a sparse operand is decided inside torch, not in
    this repository; its outcome is a parameter of the embedding. *)
Variable addcmul_sparse : Tensor -> Tensor -> Tensor -> R -> outcome Tensor.

(** [state["hessian"].mul_(beta2).addcmul_(p.grad, p.grad, value=1 - beta2)]:
    two in-place operations in a row on the buffer. *)
Definition hessian_ema (p : nat) (grad : Tensor) (beta2 : R) : M unit :=
  let* h := state_item "hessian" st_hessian p in
  let h1 := mul_ h beta2 in
  store_hessian p h1 >>
  if is_sparse grad then
    let* h2 := lift (addcmul_sparse h1 grad grad (1 - beta2)) in
    store_hessian p h2
  else
    store_hessian p (addcmul_ h1 grad grad (1 - beta2)).

(** The body of the loop over [group["params"]] in [update_hessian], for the
    state initialisation [init] of the class. *)
Definition update_hessian_param (init : Tensor -> StateDict -> StateDict)
    (beta2 : R) (p : nat) : M unit :=
  fun w =>
    match heap w !! p with
    | None => (Ok tt, w)
    | Some po =>
        match p_grad po with
        | None => (Ok tt, w)
        | Some grad =>
            let s := get_state p w in
            let s := init (p_data po) s in
            let s := backfill_hessian (p_data po) s in
            hessian_ema p grad beta2 (set_state p s w)
        end
    end.

Definition SophiaG_update_hessian (self : Optimizer) : M unit :=
  for_each (param_groups self) (fun group =>
    let '(beta1, beta2) := betas (hyper group) in
    for_each (params group)
      (update_hessian_param (init_state (capturable (defaults self))) beta2)).

Definition SophiaG_RMS_update_hessian (self : Optimizer) : M unit :=
  for_each (param_groups self) (fun group =>
    let '(beta1, beta2) := betas (hyper group) in
    for_each (params group) (update_hessian_param init_state_rms beta2)).

Definition SophiaG_OG_update_hessian (self : Optimizer) : M unit :=
  for_each (param_groups self) (fun group =>
    let '(beta1, beta2) := betas (hyper group) in
    for_each (params group) (update_hessian_param init_state_rms beta2)).

Definition SophiaG_RMSD_update_hessian (self : Optimizer) : M unit :=
  for_each (param_groups self) (fun group =>
    let '(beta1, beta2) := betas (hyper group) in
    for_each (params group) (update_hessian_param init_state_rms beta2)).

End Sophia.

(** ** The single-tensor kernels *)

(** The batch size [bs]: the number the caller passes, or the one-element
    tensor that [step] builds from it when [defaults["capturable"]] is set. *)
Inductive BatchSize :=
| BsNum (v : R)
| BsTensor (v : R) (cuda : bool).

Definition bs_value (bs : BatchSize) : R :=
  match bs with
  | BsNum v => v
  | BsTensor v _ => v
  end.

(** [torch.ones((1,), dtype=torch.float, device=p.device) * bs] *)
Definition ones_times (p : Tensor) (bs : BatchSize) : BatchSize :=
  BsTensor (1 * bs_value bs) (is_cuda p).

(** [assert param.is_cuda and step_t.is_cuda and bs.is_cuda]; a Python
    number has no attribute [is_cuda]. *)
Definition assert_cuda (param step_t : Tensor) (bs : BatchSize) : outcome unit :=
  if is_cuda param then
    if is_cuda step_t then
      match bs with
      | BsNum _ => Raise (AttributeError "is_cuda")
      | BsTensor _ c => if c then Ok tt else Raise AssertionError
      end
    else Raise AssertionError
  else Raise AssertionError.

(** [torch.view_as_real(t)]: defined on complex tensors only; the view has
    a trailing dimension of size 2 over the same storage. *)
Definition view_as_real (t : Tensor) : outcome Tensor :=
  if is_complex t then
    Ok {| shape := shape t ++ [2%nat]; is_complex := false;
          is_sparse := is_sparse t; is_cuda := is_cuda t; data := data t |}
  else Raise (RuntimeError "view_as_real is only supported for complex tensors").


(** [t.item()]: the Python number of a tensor that holds exactly one
    element, given by its entries (one for a real tensor, two for a complex
    one); on any other tensor torch raises [RuntimeError]. *)
Definition item (t : Tensor) : outcome (list R) :=
  if Nat.eqb (numel t) 1 then Ok (data t)
  else Raise (RuntimeError
         "a Tensor with this number of elements cannot be converted to Scalar").

(** Python's [max(a, b)]: [b] when [b > a], otherwise [a]. *)
Definition py_max (a b : R) : R := if bool_decide (a < b) then b else a.

(** [rho * bs * hess + 1e-15] *)
Definition denom (rho : R) (bs : BatchSize) (hess : Tensor) : Tensor :=
  with_data hess (map (fun h => rho * bs_value bs * h + 1e-15) (data hess)).

(** [a / b], elementwise. *)
Definition tdiv (a b : Tensor) : Tensor :=
  with_data a (zip_with Rdiv (data a) (data b)).

(** [param.addcmul_(t1, t2, value=v)] on real tensors or real views. *)
Definition addcmul_real (t t1 t2 : Tensor) (v : R) : Tensor :=
  with_data t (zip_inplace (fun x y => x + v * y) (data t)
                 (zip_with Rmult (data t1) (data t2))).

(** The local names of a kernel iteration once the complex case has been
    turned into real views. *)
Definition real_views (grad exp_avg hess param : Tensor)
  : outcome (Tensor * Tensor * Tensor * Tensor) :=
  if is_complex param then
    match view_as_real grad with
    | Raise e => Raise e
    | Ok grad =>
        match view_as_real exp_avg with
        | Raise e => Raise e
        | Ok exp_avg =>
            match view_as_real hess with
            | Raise e => Raise e
            | Ok hess =>
                match view_as_real param with
                | Raise e => Raise e
                | Ok param => Ok (grad, exp_avg, hess, param)
                end
            end
        end
    end
  else Ok (grad, exp_avg, hess, param).

(** The same for the kernels that also hold [rms], which is viewed between
    [exp_avg] and [hess]. *)
Definition real_views_rms (grad exp_avg rms hess param : Tensor)
  : outcome (Tensor * Tensor * Tensor * Tensor * Tensor) :=
  if is_complex param then
    match view_as_real grad with
    | Raise e => Raise e
    | Ok grad =>
        match view_as_real exp_avg with
        | Raise e => Raise e
        | Ok exp_avg =>
            match view_as_real rms with
            | Raise e => Raise e
            | Ok rms =>
                match view_as_real hess with
                | Raise e => Raise e
                | Ok hess =>
                    match view_as_real param with
                    | Raise e => Raise e
                    | Ok param => Ok (grad, exp_avg, rms, hess, param)
                    end
                end
            end
        end
    end
  else Ok (grad, exp_avg, rms, hess, param).

(** [(exp_avg.abs() / (rho * bs * hess + 1e-15)).clamp(None, u)] *)
Definition ratio_of (rho : R) (bs : BatchSize) (exp_avg hess : Tensor) (u : R)
  : Tensor :=
  clamp_max (tdiv (abs exp_avg) (denom rho bs hess)) u.

(** The parallel lists [params], [exp_avgs], [hessian], [state_steps] (and
    [rmss]) that [step] passes hold, at each position, one parameter and the
    buffers of its state dictionary; the kernels receive the identifiers in
    [params] and reach the buffers through the store. [grads] holds the
    gradient tensors, which the kernels only read. *)
(** One iteration of the loop of [_single_tensor_sophiag], at position [i]
    with [params[i]] the parameter [p]. *)
Definition _single_tensor_sophiag_iter (grads : list Tensor)
    (bs : BatchSize) (beta1 beta2 rho lr weight_decay : R)
    (maximize capturable : bool) (i p : nat) : M unit :=
  let* param := lookup_param p in
  let* g := lift (index grads i) in
  let grad := if negb maximize then g else neg g in
  let* exp_avg := state_item "exp_avg" st_exp_avg p in
  let* hess := state_item "hessian" st_hessian p in
  let* step_t := state_item "step" st_step p in
  (if capturable then lift (assert_cuda param step_t bs) else ret tt) >>
  let* (grad, exp_avg, hess, param) :=
    lift (real_views grad exp_avg hess param) in
  (* update step *)
  store_step p (add_scalar_ step_t 1) >>
  (* Perform stepweight decay *)
  let param := mul_ param (1 - lr * weight_decay) in
  store_param p param >>
  (* Decay the first and second moment running average coefficient *)
  let exp_avg := add_ (mul_ exp_avg beta1) grad (1 - beta1) in
  store_exp_avg p exp_avg >>
  if capturable then
    (* [step_size = lr * max(1e-3, _rms(param.data))] is a tensor when
       [max] returns its second argument and a Python float otherwise,
       and a float has no method [neg] *)
    let step_size := lr * py_max 1e-3 (_rms param) in
    let* step_size_neg :=
      (if bool_decide (1e-3 < _rms param) then ret (- step_size)
       else raise (AttributeError "neg")) in
    let ratio := ratio_of rho bs exp_avg hess 1 in
    store_param p (addcmul_real param (sign exp_avg) ratio step_size_neg)
  else
    let* step := lift (item (add_scalar_ step_t 1)) in
    let step_size_neg := - lr * py_max 1e-3 (_rms param) in
    let ratio := ratio_of rho bs exp_avg hess 1 in
    store_param p (addcmul_real param (sign exp_avg) ratio step_size_neg).

Definition _single_tensor_sophiag (params : list nat) (grads : list Tensor)
    (bs : BatchSize) (beta1 beta2 rho lr weight_decay : R)
    (maximize capturable : bool) : M unit :=
  for_enumerate 0 params
    (_single_tensor_sophiag_iter grads bs beta1 beta2 rho lr weight_decay
       maximize capturable).

(** One iteration of the loop of [_single_tensor_sophiag_rms], at position [i]
    with [params[i]] the parameter [p]. *)
Definition _single_tensor_sophiag_rms_iter (grads : list Tensor)
    (bs : BatchSize) (beta1 beta2 rho lr weight_decay : R)
    (maximize capturable : bool) (i p : nat) : M unit :=
  let* param := lookup_param p in
  let* g := lift (index grads i) in
  let grad := if negb maximize then g else neg g in
  let* exp_avg := state_item "exp_avg" st_exp_avg p in
  let* rms := state_item "rms" st_rms p in
  let* hess := state_item "hessian" st_hessian p in
  let* step_t := state_item "step" st_step p in
  (if capturable then lift (assert_cuda param step_t bs) else ret tt) >>
  let* (grad, exp_avg, rms, hess, param) :=
    lift (real_views_rms grad exp_avg rms hess param) in
  store_step p (add_scalar_ step_t 1) >>
  let param := mul_ param (1 - lr * weight_decay) in
  store_param p param >>
  let exp_avg := add_ (mul_ exp_avg beta1) grad (1 - beta1) in
  store_exp_avg p exp_avg >>
  if capturable then
    let step_size_rel := py_max 1e-5 (_rms param) in
    (* [lr.neg()]: [lr] is a Python float *)
    let* step_size_neg := raise (A := R) (AttributeError "neg") in
    store_rms p (add_scalar_ (sub_ rms rms) step_size_rel) >>
    let ratio :=
      ratio_of rho bs exp_avg hess step_size_rel in
    store_param p (addcmul_real param (sign exp_avg) ratio step_size_neg)
  else
    let* step := lift (item (add_scalar_ step_t 1)) in
    let step_size_rel := py_max 1e-5 (_rms param) in
    let step_size_neg := - lr in
    store_rms p (add_scalar_ (sub_ rms rms) step_size_rel) >>
    let ratio :=
      ratio_of rho bs exp_avg hess step_size_rel in
    store_param p (addcmul_real param (sign exp_avg) ratio step_size_neg).

Definition _single_tensor_sophiag_rms (params : list nat) (grads : list Tensor)
    (bs : BatchSize) (beta1 beta2 rho lr weight_decay : R)
    (maximize capturable : bool) : M unit :=
  for_enumerate 0 params
    (_single_tensor_sophiag_rms_iter grads bs beta1 beta2 rho lr weight_decay
       maximize capturable).

(** One iteration of the loop of [_single_tensor_sophiag_og], at position [i]
    with [params[i]] the parameter [p]. *)
Definition _single_tensor_sophiag_og_iter (grads : list Tensor)
    (bs : BatchSize) (beta1 beta2 rho lr weight_decay : R)
    (maximize capturable : bool) (i p : nat) : M unit :=
  let* param := lookup_param p in
  let* g := lift (index grads i) in
  let grad := if negb maximize then g else neg g in
  let* exp_avg := state_item "exp_avg" st_exp_avg p in
  let* rms := state_item "rms" st_rms p in
  let* hess := state_item "hessian" st_hessian p in
  let* step_t := state_item "step" st_step p in
  (if capturable then lift (assert_cuda param step_t bs) else ret tt) >>
  let* (grad, exp_avg, rms, hess, param) :=
    lift (real_views_rms grad exp_avg rms hess param) in
  store_step p (add_scalar_ step_t 1) >>
  let param := mul_ param (1 - lr * weight_decay) in
  store_param p param >>
  let exp_avg := add_ (mul_ exp_avg beta1) grad (1 - beta1) in
  store_exp_avg p exp_avg >>
  if capturable then
    let step_size_rel := py_max 1e-5 (_rms param) in
    let* step_size_neg := raise (A := R) (AttributeError "neg") in
    store_rms p (add_scalar_ (sub_ rms rms) step_size_rel) >>
    let ratio := ratio_of rho bs exp_avg hess 1 in
    store_param p (addcmul_real param (sign exp_avg) ratio step_size_neg)
  else
    let* step := lift (item (add_scalar_ step_t 1)) in
    let step_size_rel := py_max 1e-5 (_rms param) in
    let step_size_neg := - lr in
    store_rms p (add_scalar_ (sub_ rms rms) step_size_rel) >>
    let ratio := ratio_of rho bs exp_avg hess 1 in
    store_param p (addcmul_real param (sign exp_avg) ratio step_size_neg).

Definition _single_tensor_sophiag_og (params : list nat) (grads : list Tensor)
    (bs : BatchSize) (beta1 beta2 rho lr weight_decay : R)
    (maximize capturable : bool) : M unit :=
  for_enumerate 0 params
    (_single_tensor_sophiag_og_iter grads bs beta1 beta2 rho lr weight_decay
       maximize capturable).

(** One iteration of the loop of [_single_tensor_sophiag_rmsd], at position [i]
    with [params[i]] the parameter [p]. *)
Definition _single_tensor_sophiag_rmsd_iter (grads : list Tensor)
    (bs : BatchSize) (beta1 beta2 rho lr weight_decay : R)
    (maximize capturable : bool) (i p : nat) : M unit :=
  let* param := lookup_param p in
  let* g := lift (index grads i) in
  let grad := if negb maximize then g else neg g in
  let* exp_avg := state_item "exp_avg" st_exp_avg p in
  let* rms := state_item "rms" st_rms p in
  let* hess := state_item "hessian" st_hessian p in
  let* step_t := state_item "step" st_step p in
  (if capturable then lift (assert_cuda param step_t bs) else ret tt) >>
  let* (grad, exp_avg, rms, hess, param) :=
    lift (real_views_rms grad exp_avg rms hess param) in
  store_step p (add_scalar_ step_t 1) >>
  let param := mul_ param (1 - lr * weight_decay) in
  store_param p param >>
  (* [exp_avg_1 = exp_avg.mul(0.95).add(grad, alpha=0.05)] is a new
     tensor, computed before [exp_avg] is updated in place *)
  let exp_avg_1 := add_ (mul_ exp_avg 0.95) grad 0.05 in
  let exp_avg := add_ (mul_ exp_avg beta1) grad (1 - beta1) in
  store_exp_avg p exp_avg >>
  if capturable then
    let step_size_rel := py_max 1e-5 (_rms param) in
    let* step_size_neg := raise (A := R) (AttributeError "neg") in
    store_rms p (add_scalar_ (sub_ rms rms) step_size_rel) >>
    let ratio :=
      ratio_of rho bs exp_avg_1 hess step_size_rel in
    store_param p (addcmul_real param (sign exp_avg_1) ratio step_size_neg)
  else
    let* step := lift (item (add_scalar_ step_t 1)) in
    let step_size_rel := py_max 1e-5 (_rms param) in
    let step_size_neg := - lr in
    store_rms p (add_scalar_ (sub_ rms rms) step_size_rel) >>
    let ratio :=
      ratio_of rho bs exp_avg_1 hess step_size_rel in
    store_param p (addcmul_real param (sign exp_avg_1) ratio step_size_neg).

Definition _single_tensor_sophiag_rmsd (params : list nat) (grads : list Tensor)
    (bs : BatchSize) (beta1 beta2 rho lr weight_decay : R)
    (maximize capturable : bool) : M unit :=
  for_enumerate 0 params
    (_single_tensor_sophiag_rmsd_iter grads bs beta1 beta2 rho lr weight_decay
       maximize capturable).

(** ** The dispatch functions *)

(** The kernels as values, for the local variable [func] of a dispatch
    function. *)
Inductive kernel :=
| single_tensor_sophiag
| single_tensor_sophiag_rms
| single_tensor_sophiag_og
| single_tensor_sophiag_rmsd.

Definition call (func : kernel)
  : list nat -> list Tensor -> BatchSize -> R -> R -> R -> R -> R ->
    bool -> bool -> M unit :=
  match func with
  | single_tensor_sophiag => _single_tensor_sophiag
  | single_tensor_sophiag_rms => _single_tensor_sophiag_rms
  | single_tensor_sophiag_og => _single_tensor_sophiag_og
  | single_tensor_sophiag_rmsd => _single_tensor_sophiag_rmsd
  end.

(** [func = ...] in each dispatch function. The test that every element of
    [state_steps] is a tensor always passes here: the step counters of the
    store are tensors. *)
Definition sophiag_func : kernel := single_tensor_sophiag.
Definition sophiag_rms_func : kernel := single_tensor_sophiag_rms.
Definition sophiag_og_func : kernel := single_tensor_sophiag_og.
Definition sophiag_rmsd_func : kernel := single_tensor_sophiag_rms.

Definition sophiag (params : list nat) (grads : list Tensor)
    (capturable : bool) (bs : BatchSize) (beta1 beta2 rho lr weight_decay : R)
    (maximize : bool) : M unit :=
  call sophiag_func params grads bs beta1 beta2 rho lr weight_decay
    maximize capturable.

Definition sophiag_rms (params : list nat) (grads : list Tensor)
    (capturable : bool) (bs : BatchSize) (beta1 beta2 rho lr weight_decay : R)
    (maximize : bool) : M unit :=
  call sophiag_rms_func params grads bs beta1 beta2 rho lr weight_decay
    maximize capturable.

Definition sophiag_og (params : list nat) (grads : list Tensor)
    (capturable : bool) (bs : BatchSize) (beta1 beta2 rho lr weight_decay : R)
    (maximize : bool) : M unit :=
  call sophiag_og_func params grads bs beta1 beta2 rho lr weight_decay
    maximize capturable.

Definition sophiag_rmsd (params : list nat) (grads : list Tensor)
    (capturable : bool) (bs : BatchSize) (beta1 beta2 rho lr weight_decay : R)
    (maximize : bool) : M unit :=
  call sophiag_rmsd_func params grads bs beta1 beta2 rho lr weight_decay
    maximize capturable.

(** ** [step] *)

(** The local variables of the loop over [group["params"]]:
    [params_with_grad], [grads] and [bs]. *)
Definition Locals : Type := list nat * list Tensor * BatchSize.

(** The body of that loop in [SophiaG.step]. *)
Definition SophiaG_collect (cap : bool) (acc : Locals) (p : nat) : M Locals :=
  fun w =>
    match heap w !! p with
    | None => (Ok acc, w)
    | Some po =>
        match p_grad po with
        | None => (Ok acc, w)
        | Some grad =>
            let '(params_with_grad, grads, bs) := acc in
            let params_with_grad := params_with_grad ++ [p] in
            if is_sparse grad then
              (Raise (RuntimeError "Hero does not support sparse gradients"), w)
            else
              let grads := grads ++ [grad] in
              let s := get_state p w in
              let s := init_state cap (p_data po) s in
              let s := backfill_hessian (p_data po) s in
              (let* _ := state_item "exp_avg" st_exp_avg p in
               let* _ := state_item "step" st_step p in
               let* _ := state_item "hessian" st_hessian p in
               let bs := if cap then ones_times (p_data po) bs else bs in
               ret (params_with_grad, grads, bs)) (set_state p s w)
        end
    end.

(** The body of that loop in the [step] of [SophiaG_RMS], [SophiaG_OG] and
    [SophiaG_RMSD]. *)
Definition SophiaG_RMS_collect (cap : bool) (acc : Locals) (p : nat)
  : M Locals :=
  fun w =>
    match heap w !! p with
    | None => (Ok acc, w)
    | Some po =>
        match p_grad po with
        | None => (Ok acc, w)
        | Some grad =>
            let '(params_with_grad, grads, bs) := acc in
            let params_with_grad := params_with_grad ++ [p] in
            if is_sparse grad then
              (Raise (RuntimeError "does not support sparse gradients"), w)
            else
              let grads := grads ++ [grad] in
              let s := get_state p w in
              let s := init_state_rms (p_data po) s in
              let s := backfill_hessian (p_data po) s in
              (let* _ := state_item "exp_avg" st_exp_avg p in
               let* _ := state_item "rms" st_rms p in
               let* _ := state_item "step" st_step p in
               let* _ := state_item "hessian" st_hessian p in
               let bs := if cap then ones_times (p_data po) bs else bs in
               ret (params_with_grad, grads, bs)) (set_state p s w)
        end
    end.

Definition SophiaG_OG_collect := SophiaG_RMS_collect.
Definition SophiaG_RMSD_collect := SophiaG_RMS_collect.

(** [step(closure=None, bs=bs)]; the variable [bs] lives across the groups. *)
Definition SophiaG_step (self : Optimizer) (bs : R) : M unit :=
  for_fold (param_groups self) (BsNum bs) (fun bs group =>
    let '(beta1, beta2) := betas (hyper group) in
    let* (params_with_grad, grads, bs) :=
      for_fold (params group) ([], [], bs)
        (SophiaG_collect (capturable (defaults self))) in
    sophiag params_with_grad grads (capturable (hyper group)) bs beta1 beta2
      (rho (hyper group)) (lr (hyper group)) (weight_decay (hyper group))
      (maximize (hyper group)) >>
    ret bs) >>
  ret tt.

Definition SophiaG_RMS_step (self : Optimizer) (bs : R) : M unit :=
  for_fold (param_groups self) (BsNum bs) (fun bs group =>
    let '(beta1, beta2) := betas (hyper group) in
    let* (params_with_grad, grads, bs) :=
      for_fold (params group) ([], [], bs)
        (SophiaG_RMS_collect (capturable (defaults self))) in
    sophiag_rms params_with_grad grads (capturable (hyper group)) bs
      beta1 beta2 (rho (hyper group)) (lr (hyper group))
      (weight_decay (hyper group)) (maximize (hyper group)) >>
    ret bs) >>
  ret tt.

Definition SophiaG_OG_step (self : Optimizer) (bs : R) : M unit :=
  for_fold (param_groups self) (BsNum bs) (fun bs group =>
    let '(beta1, beta2) := betas (hyper group) in
    let* (params_with_grad, grads, bs) :=
      for_fold (params group) ([], [], bs)
        (SophiaG_OG_collect (capturable (defaults self))) in
    sophiag_og params_with_grad grads (capturable (hyper group)) bs
      beta1 beta2 (rho (hyper group)) (lr (hyper group))
      (weight_decay (hyper group)) (maximize (hyper group)) >>
    ret bs) >>
  ret tt.

Definition SophiaG_RMSD_step (self : Optimizer) (bs : R) : M unit :=
  for_fold (param_groups self) (BsNum bs) (fun bs group =>
    let '(beta1, beta2) := betas (hyper group) in
    let* (params_with_grad, grads, bs) :=
      for_fold (params group) ([], [], bs)
        (SophiaG_RMSD_collect (capturable (defaults self))) in
    sophiag_rmsd params_with_grad grads (capturable (hyper group)) bs
      beta1 beta2 (rho (hyper group)) (lr (hyper group))
      (weight_decay (hyper group)) (maximize (hyper group)) >>
    ret bs) >>
  ret tt.

(** ** The four classes, by name *)

Inductive Variant := Base | RMS | OG | RMSD.

Definition init_of (v : Variant) :=
  match v with
  | Base => SophiaG_init
  | RMS => SophiaG_RMS_init
  | OG => SophiaG_OG_init
  | RMSD => SophiaG_RMSD_init
  end.

Definition step_of (v : Variant) : Optimizer -> R -> M unit :=
  match v with
  | Base => SophiaG_step
  | RMS => SophiaG_RMS_step
  | OG => SophiaG_OG_step
  | RMSD => SophiaG_RMSD_step
  end.

Definition update_hessian_of
    (addcmul_sparse : Tensor -> Tensor -> Tensor -> R -> outcome Tensor)
    (v : Variant) : Optimizer -> M unit :=
  match v with
  | Base => SophiaG_update_hessian addcmul_sparse
  | RMS => SophiaG_RMS_update_hessian addcmul_sparse
  | OG => SophiaG_OG_update_hessian addcmul_sparse
  | RMSD => SophiaG_RMSD_update_hessian addcmul_sparse
  end.

(** The state initialisation that the class runs on an empty dictionary. *)
Definition init_state_of (v : Variant) (cap : bool)
  : Tensor -> StateDict -> StateDict :=
  match v with
  | Base => init_state cap
  | _ => init_state_rms
  end.

(** Every parameter is listed once in the groups of the optimizer. *)
Definition listed_once (self : Optimizer) : Prop :=
  NoDup (concat (map params (param_groups self))).

(** The gradient of the parameter [p], when the heap holds [p] and it has
    one. *)
Definition grad_of (w : Store) (p : nat) : option Tensor :=
  match heap w !! p with
  | Some po => p_grad po
  | None => None
  end.

(** All gradients in the heap are dense. *)
Definition dense_grads (w : Store) : Prop :=
  forall p g, grad_of w p = Some g -> is_sparse g = false.

(** ** Values that the statements name *)

(** [hessian.mul_(beta2).addcmul_(grad, grad, value=1 - beta2)] as a value. *)
Definition ema_hessian (beta2 : R) (h grad : Tensor) : Tensor :=
  addcmul_ (mul_ h beta2) grad grad (1 - beta2).

(** The state dictionary that one visit of [update_hessian] leaves for a
    parameter [param] with a dense gradient. *)
Definition hessian_after (init : Tensor -> StateDict -> StateDict)
    (param grad : Tensor) (beta2 : R) (s : StateDict) : StateDict :=
  let s1 := backfill_hessian param (init param s) in
  set_hessian s1
    (Some (ema_hessian beta2 (default (zeros_like param) (st_hessian (init param s)))
             grad)).


(** [grad * grad], elementwise in the dtype of the gradient. *)
Definition grad_sq (grad : Tensor) : list R :=
  mul_data (is_complex grad) (data grad) (data grad).

(** The behaviour of [addcmul_] on a sparse operand taken for the concrete
    runs below: torch rejects the operand. Every statement that depends on
    this choice is quantified over the behaviour instead. *)
Definition sparse_unsupported (h t1 t2 : Tensor) (v : R) : outcome Tensor :=
  Raise (RuntimeError "addcmul_ is not implemented for sparse tensors").

(** A real dense host tensor with one dimension. *)
Definition vec (d : list R) : Tensor :=
  {| shape := [length d]; is_complex := false; is_sparse := false;
     is_cuda := false; data := d |}.

(** ** The scenario of the specification

    One parameter [[1.0]] with the constant gradient [[0.1]], under the
    default hyperparameters of [SophiaG]. *)

Definition hyper0 : Hyper :=
  {| lr := 1e-4; betas := (0.965, 0.99); rho := 0.04; weight_decay := 0.1;
     maximize := false; capturable := false |}.

Definition opt0 : Optimizer := one_group [0%nat] hyper0.

Definition param0 : ParamObj :=
  {| p_data := vec [1]; p_grad := Some (vec [0.1]) |}.

(** The store before the first call: no state yet. *)
Definition store0 : Store :=
  {| heap := {[ 0%nat := param0 ]}; state := ∅ |}.

(** A state dictionary of [SophiaG] with given momentum and hessian. *)
Definition state_base (t exp_avg hessian : Tensor) : StateDict :=
  {| st_step := Some t; st_exp_avg := Some exp_avg;
     st_hessian := Some hessian; st_rms := None |}.

(** The store once the state of the parameter exists, still all zeros. *)
Definition store0_init : Store :=
  {| heap := {[ 0%nat := param0 ]};
     state := {[ 0%nat := state_base tensor_0 (vec [0]) (vec [0]) ]} |}.

(** The configurations that the specification calls invalid. *)
Definition invalid_config (lr : R) (betas : R * R) (rho weight_decay : R)
  : Prop :=
  lr < 0 \/ ~ (0 <= fst betas < 1) \/ ~ (0 <= snd betas < 1)
  \/ rho < 0 \/ weight_decay < 0.

(** ** The effect of a kernel iteration on real tensors, as values

    The names below are the values that a kernel computes for one parameter
    outside capturable mode: the gradient after the sign flip, the decayed
    parameter, the momentum, and the updated parameter of each kernel. *)

Definition signed_grad (maximize : bool) (g : Tensor) : Tensor :=
  if negb maximize then g else neg g.

Definition decayed (lr weight_decay : R) (param : Tensor) : Tensor :=
  mul_ param (1 - lr * weight_decay).

Definition momentum (beta1 : R) (maximize : bool) (exp_avg g : Tensor)
  : Tensor :=
  add_ (mul_ exp_avg beta1) (signed_grad maximize g) (1 - beta1).

Definition fast_momentum (maximize : bool) (exp_avg g : Tensor) : Tensor :=
  add_ (mul_ exp_avg 0.95) (signed_grad maximize g) 0.05.

(** The clamp bound and the factor [-step_size_neg] of each kernel, from
    the decayed parameter. *)
Definition clamp_bound (k : kernel) (param1 : Tensor) : R :=
  match k with
  | single_tensor_sophiag | single_tensor_sophiag_og => 1
  | single_tensor_sophiag_rms | single_tensor_sophiag_rmsd =>
      py_max 1e-5 (_rms param1)
  end.

Definition step_size_neg_of (k : kernel) (lr : R) (param1 : Tensor) : R :=
  match k with
  | single_tensor_sophiag => - lr * py_max 1e-3 (_rms param1)
  | _ => - lr
  end.

(** The momentum that enters the ratio and the sign. *)
Definition update_momentum (k : kernel) (beta1 : R) (maximize : bool)
    (exp_avg g : Tensor) : Tensor :=
  match k with
  | single_tensor_sophiag_rmsd => fast_momentum maximize exp_avg g
  | _ => momentum beta1 maximize exp_avg g
  end.


Definition param_after (k : kernel) (hy : Hyper) (bs : BatchSize)
    (g param exp_avg hess : Tensor) : Tensor :=
  let param1 := decayed (lr hy) (weight_decay hy) param in
  let m := update_momentum k (fst (betas hy)) (maximize hy) exp_avg g in
  addcmul_real param1 (sign m)
    (ratio_of (rho hy) bs m hess (clamp_bound k param1))
    (step_size_neg_of k (lr hy) param1).

(** [rms.sub_(rms).add_(step_size_rel)] *)
Definition rms_after (k : kernel) (hy : Hyper) (param : Tensor)
    (rms : option Tensor) : option Tensor :=
  match k with
  | single_tensor_sophiag => rms
  | _ =>
      match rms with
      | Some r =>
          Some (add_scalar_ (sub_ r r)
                  (py_max 1e-5 (_rms (decayed (lr hy) (weight_decay hy) param))))
      | None => None
      end
  end.

Definition state_after (k : kernel) (hy : Hyper) (g param : Tensor)
    (s : StateDict) : StateDict :=
  {| st_step := option_map (fun t => add_scalar_ t 1) (st_step s);
     st_exp_avg :=
       option_map (fun m => momentum (fst (betas hy)) (maximize hy) m g)
         (st_exp_avg s);
     st_hessian := st_hessian s;
     st_rms := rms_after k hy param (st_rms s) |}.

(** The keys that a kernel reads are present, and the step counter holds
    one element, as [step_t.item()] requires. *)
Definition full_state (k : kernel) (s : StateDict) : Prop :=
  (exists t, st_step s = Some t /\ numel t = 1%nat)
  /\ is_Some (st_exp_avg s) /\ is_Some (st_hessian s)
  /\ match k with
     | single_tensor_sophiag => True
     | _ => is_Some (st_rms s)
     end.

(** The store with the parameter tensor and the state dictionary of [p]
    replaced. *)
Definition put_cell (p : nat) (t : Tensor) (s : StateDict) (w : Store)
  : Store :=
  {| heap := alter (fun x => {| p_data := t; p_grad := p_grad x |}) p (heap w);
     state := <[p := s]> (state w) |}.

(** The loop body of each kernel. *)
Definition iter_of (k : kernel)
  : list Tensor -> BatchSize -> R -> R -> R -> R -> R -> bool -> bool ->
    nat -> nat -> M unit :=
  match k with
  | single_tensor_sophiag => _single_tensor_sophiag_iter
  | single_tensor_sophiag_rms => _single_tensor_sophiag_rms_iter
  | single_tensor_sophiag_og => _single_tensor_sophiag_og_iter
  | single_tensor_sophiag_rmsd => _single_tensor_sophiag_rmsd_iter
  end.

(** The kernel that the dispatch function of each class calls, and the
    loop body of its [step]. *)
Definition kernel_of (v : Variant) : kernel :=
  match v with
  | Base => sophiag_func
  | RMS => sophiag_rms_func
  | OG => sophiag_og_func
  | RMSD => sophiag_rmsd_func
  end.

Definition collect_of (v : Variant) : bool -> Locals -> nat -> M Locals :=
  match v with
  | Base => SophiaG_collect
  | RMS => SophiaG_RMS_collect
  | OG => SophiaG_OG_collect
  | RMSD => SophiaG_RMSD_collect
  end.

(** The state dictionary of a parameter [t] once [step] has passed the
    state initialisation and the hessian backfill. *)
Definition prepared (v : Variant) (cap : bool) (t : Tensor) (s : StateDict)
  : StateDict :=
  backfill_hessian t (init_state_of v cap t s).

(** The parameters with a gradient among [ps], each with its gradient. *)
Definition tracked (w : Store) (ps : list nat) : list (nat * Tensor) :=
  omap (fun p => match grad_of w p with
                 | Some g => Some (p, g)
                 | None => None
                 end) ps.

(** All parameters are real-valued. *)
Definition real_params (w : Store) : Prop :=
  forall p po, heap w !! p = Some po -> is_complex (p_data po) = false.

(** Every state dictionary is empty or holds the keys that the kernel of
    the class reads: the dictionaries that the class itself creates. *)
Definition states_ok (v : Variant) (w : Store) : Prop :=
  forall p s, state w !! p = Some s ->
    state_is_empty s = true \/ full_state (kernel_of v) s.

(** No group and not the defaults ask for capturable mode. *)
Definition host_mode (self : Optimizer) : Prop :=
  capturable (defaults self) = false
  /\ forall group, group ∈ param_groups self -> capturable (hyper group) = false.

(** The store relation that one group, or a run of groups, establishes:
    [visited] are the parameters of these groups, each with the
    hyperparameters of its group. Parameters without a gradient and
    parameters outside the groups keep their tensor and their state; a
    parameter with a gradient gets the values of the kernel, computed from
    its state after initialisation. *)
Definition stepped (v : Variant) (bs : BatchSize)
    (visited : list (nat * Hyper)) (w w' : Store) : Prop :=
  (forall q, (q ∉ visited.*1 \/ grad_of w q = None) ->
     heap w' !! q = heap w !! q /\ state w' !! q = state w !! q)
  /\ (forall p hy po g,
        (p, hy) ∈ visited -> heap w !! p = Some po -> p_grad po = Some g ->
        exists m h,
          st_exp_avg (prepared v false (p_data po) (get_state p w)) = Some m
          /\ st_hessian (prepared v false (p_data po) (get_state p w)) = Some h
          /\ heap w' !! p
             = Some {| p_data := param_after (kernel_of v) hy bs g (p_data po) m h;
                       p_grad := Some g |}
          /\ state w' !! p
             = Some (state_after (kernel_of v) hy g (p_data po)
                       (prepared v false (p_data po) (get_state p w)))).


(** The parameters of the groups, each with the hyperparameters of its
    group. *)
Definition visited (groups : list ParamGroup) : list (nat * Hyper) :=
  concat (map (fun gr => map (fun p => (p, hyper gr)) (params gr)) groups).

(** The entry of the momentum after its update, from the entry [m] before
    and the entry [g] of the gradient. *)
Definition momentum_entry (beta1 : R) (maximize : bool) (m g : R) : R :=
  m * beta1 + (1 - beta1) * (if maximize then - g else g).

(** The entry of the ratio, from the entry [m] of the momentum after its
    update and the entry [h] of the hessian, clamped at [u]. *)
Definition ratio_entry (rho bs m h u : R) : R :=
  Rmin (Rabs m / (rho * bs * h + 1e-15)) u.

(** The factor of [sign(momentum) * ratio] in the update of each class,
    and its clamp bound, from the decayed parameter. *)
Definition coefficient (v : Variant) (lr : R) (param1 : Tensor) : R :=
  match v with
  | Base => lr * Rmax 1e-3 (_rms param1)
  | RMS | OG | RMSD => lr
  end.

Definition upper_bound (v : Variant) (param1 : Tensor) : R :=
  match v with
  | Base | OG => 1
  | RMS | RMSD => Rmax 1e-5 (_rms param1)
  end.

(** ** Further concrete inputs *)





(** [SophiaG_RMSD] under its defaults on the parameter [[1.0]] with gradient
    [[1.0]]. *)
Definition hyper_rmsd : Hyper :=
  {| lr := 1e-4; betas := (0.99, 0.99); rho := 0.04; weight_decay := 0.1;
     maximize := false; capturable := false |}.

Definition opt_rmsd : Optimizer := one_group [0%nat] hyper_rmsd.

Definition store_rmsd : Store :=
  {| heap := {[ 0%nat := {| p_data := vec [1]; p_grad := Some (vec [1]) |} ]};
     state := ∅ |}.

(** [SophiaG] and its siblings on a parameter whose gradient is sparse. *)
Definition sparse_grad : Tensor :=
  {| shape := [1%nat]; is_complex := false; is_sparse := true;
     is_cuda := false; data := [0.1] |}.

Definition store_sparse : Store :=
  {| heap := {[ 0%nat := {| p_data := vec [1]; p_grad := Some sparse_grad |} ]};
     state := ∅ |}.

(** ** Sequences of calls

    Between two calls of the optimizer the training loop assigns gradients:
    [put_grad p og] sets [p.grad] to the tensor [og], or to [None]. A store
    is reachable when it results from a sequence of such assignments and of
    calls of [step] and [update_hessian]; a call that raises leaves the
    store as mutated up to the exception, and the sequence may go on.
    [ok] restricts the gradients that the loop assigns. *)

Definition put_grad (p : nat) (og : option Tensor) (w : Store) : Store :=
  {| heap := alter (fun x => {| p_data := p_data x; p_grad := og |}) p (heap w);
     state := state w |}.

Inductive run (ok : Tensor -> Prop)
    (addcmul_sparse : Tensor -> Tensor -> Tensor -> R -> outcome Tensor)
    (v : Variant) (self : Optimizer) (w0 : Store) : Store -> Prop :=
| run_start : run ok addcmul_sparse v self w0 w0
| run_step w bs :
    run ok addcmul_sparse v self w0 w ->
    run ok addcmul_sparse v self w0 (snd (step_of v self bs w))
| run_update_hessian w :
    run ok addcmul_sparse v self w0 w ->
    run ok addcmul_sparse v self w0
      (snd (update_hessian_of addcmul_sparse v self w))
| run_put_grad w p og :
    run ok addcmul_sparse v self w0 w ->
    (forall g, og = Some g -> ok g) ->
    run ok addcmul_sparse v self w0 (put_grad p og w).

(** Where [addcmul_] accepts a sparse operand, it computes what it computes
    on the dense tensor with the same entries. *)
Definition sparse_sound
    (addcmul_sparse : Tensor -> Tensor -> Tensor -> R -> outcome Tensor)
  : Prop :=
  forall h t1 t2 c r,
    addcmul_sparse h t1 t2 c = Ok r -> r = addcmul_ h t1 t2 c.

(** Two tensors of one shape and dtype, with as many entries. *)
Definition same_layout (a b : Tensor) : Prop :=
  shape a = shape b /\ is_complex a = is_complex b
  /\ length (data a) = length (data b).

(** The buffers of a state dictionary against the parameter [t]: momentum
    and hessian have the layout of [t]; [rms] is a real tensor of shape
    [(1,)]. *)
Definition buffers_ok (t : Tensor) (s : StateDict) : Prop :=
  (forall m, st_exp_avg s = Some m -> same_layout m t)
  /\ (forall h, st_hessian s = Some h -> same_layout h t)
  /\ (forall r, st_rms s = Some r ->
        shape r = [1%nat] /\ is_complex r = false /\ length (data r) = 1%nat).

Definition layout_inv (w : Store) : Prop :=
  forall p po s, heap w !! p = Some po -> state w !! p = Some s ->
    buffers_ok (p_data po) s.

(** Every entry of every hessian buffer is nonnegative. *)
Definition hessian_nonneg (w : Store) : Prop :=
  forall p s h, state w !! p = Some s -> st_hessian s = Some h ->
    Forall (fun x => 0 <= x) (data h).

(** All gradients in the heap are real-valued. *)
Definition real_grads (w : Store) : Prop :=
  forall p g, grad_of w p = Some g -> is_complex g = false.

(** The store is left in [I] by [m], whatever the outcome. *)
Definition preserves {A} (I : Store -> Prop) (m : M A) : Prop :=
  forall w, I w -> I (snd (m w)).

(** The hessian buffers and the gradients that a store holds. *)
Definition same_hessians_and_grads (w w' : Store) : Prop :=
  (forall q, grad_of w' q = grad_of w q)
  /\ (forall q, st_hessian (get_state q w') = st_hessian (get_state q w)).

(** The invariant of the hessian buffers: nonnegative entries, under
    real-valued gradients. *)
Definition hessian_inv (w : Store) : Prop := hessian_nonneg w /\ real_grads w.

(** Every group has its [beta2] in [0, 1), as the constructors check. *)
Definition valid_beta2 (self : Optimizer) : Prop :=
  forall group, group ∈ param_groups self ->
    0 <= snd (betas (hyper group)) < 1.

(** A complex parameter [0 + 0i] whose gradient is [0 + 1i]. *)
Definition complex_vec (d : list R) : Tensor :=
  {| shape := [Nat.div (length d) 2]; is_complex := true; is_sparse := false;
     is_cuda := false; data := d |}.

Definition store_complex : Store :=
  {| heap := {[ 0%nat := {| p_data := complex_vec [0; 0];
                            p_grad := Some (complex_vec [0; 1]) |} ]};
     state := ∅ |}.

(** The layout invariant while a loop body works on the parameter [p],
    whose tensor has [n] entries. *)
Definition cell_inv (p n : nat) (w : Store) : Prop :=
  layout_inv w
  /\ exists po, heap w !! p = Some po /\ length (data (p_data po)) = n.

(** [SophiaG_RMS] under the defaults on a parameter with two entries. *)
Definition opt_two : Optimizer := one_group [0%nat] hyper0.

Definition store_two : Store :=
  {| heap := {[ 0%nat := {| p_data := vec [1; 1]; p_grad := Some (vec [1; 1]) |} ]};
     state := ∅ |}.

(** The gradient, the state and the tensor of [p] are in [w'] what they
    are in [w]. *)
Definition untouched (p : nat) (w w' : Store) : Prop :=
  grad_of w' p = grad_of w p
  /\ state w' !! p = state w !! p
  /\ heap w' !! p = heap w !! p.

(** ** Frames of the two methods *)

(** What [step] leaves of the hessian buffers and the gradients of [w]: the
    gradients are the same, a hessian buffer that [w] holds is the same,
    and one that [w] does not hold is, where [w'] holds it, all zeros. *)
Definition hessian_frame (w w' : Store) : Prop :=
  (forall q, grad_of w' q = grad_of w q)
  /\ (forall q h, st_hessian (get_state q w) = Some h ->
        st_hessian (get_state q w') = Some h)
  /\ (forall q h, st_hessian (get_state q w) = None ->
        st_hessian (get_state q w') = Some h ->
        Forall (fun x => x = 0) (data h)).

(** What [update_hessian] leaves of [w]: the parameter objects are the
    same, a parameter without a gradient keeps its entry in [self.state]
    (or keeps none), and a state dictionary that is not empty keeps its
    step counter, its momentum and rms buffers and the key ["hessian"]. *)
Definition moments_frame (w w' : Store) : Prop :=
  heap w' = heap w
  /\ (forall q, grad_of w q = None -> state w' !! q = state w !! q)
  /\ (forall q s, state w !! q = Some s -> state_is_empty s = false ->
        exists s', state w' !! q = Some s'
          /\ st_step s' = st_step s /\ st_exp_avg s' = st_exp_avg s
          /\ st_rms s' = st_rms s
          /\ (is_Some (st_hessian s) -> is_Some (st_hessian s'))).

(** A parameter [[1.0]] without a gradient. *)
Definition store_idle : Store :=
  {| heap := {[ 0%nat := {| p_data := vec [1]; p_grad := None |} ]};
     state := ∅ |}.



(** The common setting of a store: dense gradients, real parameters, and
    state dictionaries that are empty or hold the keys of the class. *)
Definition common_setting (v : Variant) (w : Store) : Prop :=
  dense_grads w /\ real_params w /\ states_ok v w.

(** The defaults of [SophiaG] with [capturable=True]. *)
Definition hyper_cap : Hyper :=
  {| lr := 1e-4; betas := (0.965, 0.99); rho := 0.04; weight_decay := 0.1;
     maximize := false; capturable := true |}.

Definition opt_cap : Optimizer := one_group [0%nat] hyper_cap.

(** The parameter [p] is a complex tensor and has a gradient. *)
Definition complex_with_grad (p : nat) (w : Store) : Prop :=
  exists po g,
    heap w !! p = Some po /\ is_complex (p_data po) = true
    /\ p_grad po = Some g.

(** The parameter [p] has a gradient, and a state dictionary that holds
    some key but not ["rms"]: a dictionary as [SophiaG] creates it. *)
Definition lacks_rms (p : nat) (w : Store) : Prop :=
  exists g s,
    grad_of w p = Some g /\ state w !! p = Some s
    /\ state_is_empty s = false /\ st_rms s = None.

(** ** [__setstate__] and the test of the dispatch functions

    Unpickling hands [__setstate__] the attributes of an optimizer as an
    older version may have written them: a group may lack the keys
    ["maximize"] and ["capturable"], and the value under ["step"] may be a
    Python number instead of a tensor. *)

Inductive StepValue :=
| StepNumber (x : R)
| StepTensor (t : Tensor).

Record SavedState := mkSavedState {
  sv_step : option StepValue;
  sv_exp_avg : option Tensor;
  sv_hessian : option Tensor;
  sv_rms : option Tensor
}.

Record SavedGroup := mkSavedGroup {
  sg_params : list nat;
  sg_lr : R;
  sg_betas : R * R;
  sg_rho : R;
  sg_weight_decay : R;
  sg_maximize : option bool;
  sg_capturable : option bool
}.

(** [self.state], in the insertion order in which
    [list(self.state.values())] reads it, and [self.param_groups]. *)
Record Saved := mkSaved {
  saved_state : list (nat * SavedState);
  saved_groups : list SavedGroup
}.

(** [d.setdefault(key, default)] on the value under [key]. *)
Definition setdefault (o : option bool) (d : bool) : option bool :=
  match o with
  | Some b => Some b
  | None => Some d
  end.

(** [group.setdefault("maximize", False)] and
    [group.setdefault("capturable", False)]. *)
Definition group_setdefaults (g : SavedGroup) : SavedGroup :=
  {| sg_params := sg_params g; sg_lr := sg_lr g; sg_betas := sg_betas g;
     sg_rho := sg_rho g; sg_weight_decay := sg_weight_decay g;
     sg_maximize := setdefault (sg_maximize g) false;
     sg_capturable := setdefault (sg_capturable g) false |}.

(** [(len(state_values) != 0) and torch.is_tensor(state_values[0]["step"])] *)
Definition step_is_tensor (state_values : list SavedState) : outcome bool :=
  match state_values with
  | [] => Ok false
  | s :: _ =>
      match sv_step s with
      | None => Raise (KeyError "step")
      | Some (StepTensor _) => Ok true
      | Some (StepNumber _) => Ok false
      end
  end.

(** [s["step"] = v] *)
Definition with_step (s : SavedState) (v : StepValue) : SavedState :=
  {| sv_step := Some v; sv_exp_avg := sv_exp_avg s;
     sv_hessian := sv_hessian s; sv_rms := sv_rms s |}.

(** [torch.tensor(x)] for a Python float: a zero-dimensional host tensor. *)
Definition tensor_of_float (x : R) : Tensor := with_data tensor_0 [x].

Section SetState.

(** [float(t)] on a tensor that does not hold exactly one element raises
    inside torch; the exception is a parameter of the embedding. *)
Variable not_a_scalar : exn.

(** [float(v)] *)
Definition float_of (v : StepValue) : outcome R :=
  match v with
  | StepNumber x => Ok x
  | StepTensor t =>
      match data t with
      | [x] => Ok x
      | _ => Raise not_a_scalar
      end
  end.

(** [for s in state_values: s["step"] = torch.tensor(float(s["step"]))];
    the dictionaries are those of [self.state], which keep what the loop
    has written when it raises. *)
Fixpoint convert_steps (states : list (nat * SavedState))
  : outcome unit * list (nat * SavedState) :=
  match states with
  | [] => (Ok tt, [])
  | (p, s) :: rest =>
      match sv_step s with
      | None => (Raise (KeyError "step"), states)
      | Some v =>
          match float_of v with
          | Raise e => (Raise e, states)
          | Ok x =>
              let s' := with_step s (StepTensor (tensor_of_float x)) in
              let '(r, rest') := convert_steps rest in
              (r, (p, s') :: rest')
          end
      end
  end.

(** [__setstate__(self, state)], which the four classes define alike;
    [super().__setstate__(state)] makes the attributes of [state] those of
    the object. The result is the outcome and the object as mutated. *)
Definition __setstate__ (state : Saved) : outcome unit * Saved :=
  let param_groups := map group_setdefaults (saved_groups state) in
  let state_values := map snd (saved_state state) in
  match step_is_tensor state_values with
  | Raise e =>
      (Raise e, {| saved_state := saved_state state;
                   saved_groups := param_groups |})
  | Ok true =>
      (Ok tt, {| saved_state := saved_state state;
                 saved_groups := param_groups |})
  | Ok false =>
      let '(r, states) := convert_steps (saved_state state) in
      (r, {| saved_state := states; saved_groups := param_groups |})
  end.

End SetState.

(** [all(isinstance(t, torch.Tensor) for t in state_steps)], the test at
    the head of [sophiag], [sophiag_rms], [sophiag_og] and [sophiag_rmsd]. *)
Definition is_tensor (v : StepValue) : bool :=
  match v with
  | StepTensor _ => true
  | StepNumber _ => false
  end.

Definition check_state_steps (state_steps : list StepValue) : outcome unit :=
  if forallb is_tensor state_steps then Ok tt
  else Raise (RuntimeError
    "API has changed, `state_steps` argument must contain a list of singleton tensors").

(** The values under ["step"] of the state dictionaries, in order. *)
Definition saved_steps (states : list (nat * SavedState)) : list StepValue :=
  omap (fun ps => sv_step (snd ps)) states.

(** A state dictionary of the object in the form in which [step] and
    [update_hessian] above read it: its step counter is a tensor. *)
Definition as_state (s : SavedState) : option StateDict :=
  match sv_step s with
  | Some (StepNumber _) => None
  | Some (StepTensor t) =>
      Some {| st_step := Some t; st_exp_avg := sv_exp_avg s;
              st_hessian := sv_hessian s; st_rms := sv_rms s |}
  | None =>
      Some {| st_step := None; st_exp_avg := sv_exp_avg s;
              st_hessian := sv_hessian s; st_rms := sv_rms s |}
  end.

(** A dictionary whose step counter [__setstate__] can convert, and the
    dictionary after the conversion. *)
Definition convertible (not_a_scalar : exn) (s : SavedState) (x : R) : Prop :=
  exists v, sv_step s = Some v /\ float_of not_a_scalar v = Ok x.

Definition converted (s s' : SavedState) (x : R) : Prop :=
  s' = with_step s (StepTensor (tensor_of_float x)).

(** Objects as an older version may have pickled them: a group without
    ["maximize"] and ["capturable"], and state dictionaries whose step
    counter is a number, a tensor, or missing. *)
Definition saved_group0 : SavedGroup :=
  {| sg_params := [0%nat; 1%nat]; sg_lr := 1e-4; sg_betas := (0.965, 0.99);
     sg_rho := 0.04; sg_weight_decay := 0.1;
     sg_maximize := None; sg_capturable := None |}.

Definition saved_dict (step : option StepValue) : SavedState :=
  {| sv_step := step; sv_exp_avg := Some (vec [0]);
     sv_hessian := Some (vec [0]); sv_rms := None |}.

Definition saved_numbers : Saved :=
  {| saved_state := [(0%nat, saved_dict (Some (StepNumber 3)));
                     (1%nat, saved_dict (Some (StepNumber 3)))];
     saved_groups := [saved_group0] |}.

Definition saved_mixed : Saved :=
  {| saved_state := [(0%nat, saved_dict (Some (StepTensor tensor_0)));
                     (1%nat, saved_dict (Some (StepNumber 3)))];
     saved_groups := [saved_group0] |}.

Definition saved_broken : Saved :=
  {| saved_state := [(0%nat, saved_dict (Some (StepNumber 3)));
                     (1%nat, saved_dict None)];
     saved_groups := [saved_group0] |}.

(** The exception of [float] on a tensor that is no scalar, for the
    concrete runs. *)
Definition not_scalar_error : exn :=
  ValueError "only one element tensors can be converted to Python scalars".

(** The parameter [p] lives on the host and has a gradient. *)
Definition host_with_grad (p : nat) (w : Store) : Prop :=
  exists po g,
    heap w !! p = Some po /\ is_cuda (p_data po) = false
    /\ p_grad po = Some g.
(** ** Elementary facts *)

Lemma with_data_data t d : data (with_data t d) = d.
Proof. reflexivity. Qed.

Lemma with_data_idem t d d' : with_data (with_data t d) d' = with_data t d'.
Proof. reflexivity. Qed.

Lemma with_data_self t : with_data t (data t) = t.
Proof. destruct t; reflexivity. Qed.

Lemma get_state_set_eq p s w : get_state p (set_state p s w) = s.
Proof. unfold get_state, set_state; simpl. by rewrite lookup_insert_eq. Qed.

Lemma get_state_set_ne p q s w :
  p <> q -> get_state q (set_state p s w) = get_state q w.
Proof.
  intros Hne. unfold get_state, set_state; simpl.
  by rewrite lookup_insert_ne.
Qed.

Lemma get_state_Some p w s : state w !! p = Some s -> get_state p w = s.
Proof. unfold get_state. by intros ->. Qed.

Lemma set_state_twice p s s' w :
  set_state p s' (set_state p s w) = set_state p s' w.
Proof.
  unfold set_state; simpl. f_equal. apply insert_insert_eq.
Qed.

Lemma backfill_hessian_some t s :
  st_hessian (backfill_hessian t s)
  = Some (default (zeros_like t) (st_hessian s)).
Proof.
  unfold backfill_hessian. destruct (st_hessian s) eqn:E; simpl; auto.
Qed.

Lemma for_each_app {X} (xs ys : list X) body w :
  for_each (xs ++ ys) body w
  = match for_each xs body w with
    | (Ok _, w') => for_each ys body w'
    | (Raise e, w') => (Raise e, w')
    end.
Proof.
  revert w. induction xs as [|x xs IH]; intros w; simpl.
  - reflexivity.
  - unfold bind. destruct (body x w) as [[[]|e] w1]; auto.
Qed.

(** ** [update_hessian] on dense gradients *)

Section UpdateHessian.

Variable addcmul_sparse : Tensor -> Tensor -> Tensor -> R -> outcome Tensor.

Lemma hessian_ema_dense p grad beta2 h w :
  is_sparse grad = false ->
  st_hessian (get_state p w) = Some h ->
  hessian_ema addcmul_sparse p grad beta2 w
  = (Ok tt, set_state p (set_hessian (get_state p w)
                           (Some (ema_hessian beta2 h grad))) w).
Proof.
  intros Hd Hh. unfold hessian_ema, bind, state_item, store_hessian, modify.
  rewrite Hh, Hd. rewrite get_state_set_eq. simpl.
  rewrite set_state_twice, Hh. reflexivity.
Qed.

Lemma update_hessian_param_dense init beta2 p po grad w :
  heap w !! p = Some po -> p_grad po = Some grad -> is_sparse grad = false ->
  update_hessian_param addcmul_sparse init beta2 p w
  = (Ok tt, set_state p (hessian_after init (p_data po) grad beta2
                           (get_state p w)) w).
Proof.
  intros Hp Hg Hd. unfold update_hessian_param. rewrite Hp, Hg.
  erewrite hessian_ema_dense; eauto.
  - rewrite get_state_set_eq, set_state_twice. reflexivity.
  - rewrite get_state_set_eq. apply backfill_hessian_some.
Qed.

Lemma update_hessian_param_skip init beta2 p w :
  grad_of w p = None ->
  update_hessian_param addcmul_sparse init beta2 p w = (Ok tt, w).
Proof.
  unfold grad_of, update_hessian_param. intros H.
  destruct (heap w !! p) as [po|]; auto. rewrite H. reflexivity.
Qed.

(** One sweep over the parameters of a group. *)
Lemma update_hessian_sweep init beta2 ps : forall w,
  dense_grads w ->
  exists w',
    for_each ps (update_hessian_param addcmul_sparse init beta2) w = (Ok tt, w')
    /\ heap w' = heap w
    /\ (forall q, q ∉ ps -> state w' !! q = state w !! q)
    /\ (NoDup ps -> forall q po grad,
          q ∈ ps -> heap w !! q = Some po -> p_grad po = Some grad ->
          state w' !! q
          = Some (hessian_after init (p_data po) grad beta2 (get_state q w))).
Proof.
  induction ps as [|p ps IH]; intros w Hdense; simpl.
  - exists w. repeat split; auto. intros _ q po grad Hq. inversion Hq.
  - unfold bind.
    destruct (grad_of w p) as [grad|] eqn:Hg.
    + unfold grad_of in Hg. destruct (heap w !! p) as [po|] eqn:Hp; [|discriminate].
      assert (Hd : is_sparse grad = false).
      { apply (Hdense p). unfold grad_of. by rewrite Hp. }
      rewrite (update_hessian_param_dense _ _ _ _ _ _ Hp Hg Hd).
      set (w1 := set_state p _ w).
      destruct (IH w1) as (w' & Hrun & Hheap & Hout & Hin).
      { intros q g. unfold grad_of. simpl. apply Hdense. }
      exists w'. rewrite Hrun. split; [reflexivity|]. split; [exact Hheap|].
      split.
      * intros q Hq. rewrite Hout by set_solver.
        unfold w1; simpl. rewrite lookup_insert_ne; [done|set_solver].
      * intros Hnd q po' grad' Hq Hpo' Hg'. inversion Hnd as [|? ? Hnotin Hnd']; subst.
        apply elem_of_cons in Hq as [->|Hq].
        -- rewrite Hout by done. unfold w1; simpl. rewrite lookup_insert_eq.
           rewrite Hp in Hpo'. inversion Hpo'; subst po'.
           rewrite Hg in Hg'. inversion Hg'; subst. reflexivity.
        -- rewrite (Hin Hnd' q po' grad' Hq); auto.
           unfold w1. rewrite get_state_set_ne; [done|].
           intros ->. contradiction.
    + rewrite (update_hessian_param_skip _ _ _ _ Hg).
      destruct (IH w Hdense) as (w' & Hrun & Hheap & Hout & Hin).
      exists w'. rewrite Hrun. split; [reflexivity|]. split; [exact Hheap|].
      split.
      * intros q Hq. apply Hout. set_solver.
      * intros Hnd q po grad Hq Hpo Hg'. inversion Hnd as [|? ? Hnotin Hnd']; subst.
        apply elem_of_cons in Hq as [->|Hq].
        -- unfold grad_of in Hg. rewrite Hpo in Hg. congruence.
        -- apply Hin; auto.
Qed.

End UpdateHessian.

Section UpdateHessianGroups.

Variable addcmul_sparse : Tensor -> Tensor -> Tensor -> R -> outcome Tensor.

(** The sweep over all groups, for the state initialisation of a class. *)
Lemma update_hessian_groups init groups : forall w,
  dense_grads w ->
  exists w',
    for_each groups (fun group =>
      let '(beta1, beta2) := betas (hyper group) in
      for_each (params group)
        (update_hessian_param addcmul_sparse init beta2)) w = (Ok tt, w')
    /\ heap w' = heap w
    /\ (forall q, q ∉ concat (map params groups) ->
          state w' !! q = state w !! q)
    /\ (NoDup (concat (map params groups)) -> forall group q po grad,
          group ∈ groups -> q ∈ params group ->
          heap w !! q = Some po -> p_grad po = Some grad ->
          state w' !! q
          = Some (hessian_after init (p_data po) grad
                    (snd (betas (hyper group))) (get_state q w))).
Proof.
  induction groups as [|gr groups IH]; intros w Hdense; simpl.
  - exists w. repeat split; auto. intros _ group q po grad Hq. inversion Hq.
  - unfold bind. destruct (betas (hyper gr)) as [beta1 beta2] eqn:Hb.
    destruct (update_hessian_sweep addcmul_sparse init beta2 (params gr) w Hdense)
      as (w1 & Hrun1 & Hheap1 & Hout1 & Hin1).
    rewrite Hrun1.
    destruct (IH w1) as (w' & Hrun & Hheap & Hout & Hin).
    { intros q g. unfold grad_of. rewrite Hheap1. apply Hdense. }
    exists w'. rewrite Hrun. split; [reflexivity|].
    split; [congruence|]. split.
    + intros q Hq. rewrite not_elem_of_app in Hq. destruct Hq as [Hq1 Hq2].
      rewrite Hout by done. by apply Hout1.
    + intros Hnd group q po grad Hgroup Hq Hpo Hg.
      apply NoDup_app in Hnd as (Hnd1 & Hdisj & Hnd2).
      apply elem_of_cons in Hgroup as [->|Hgroup].
      * rewrite Hout.
        -- rewrite Hb. simpl. by apply Hin1.
        -- by apply Hdisj.
      * assert (Hqin : q ∈ concat (map params groups)).
        { apply list_elem_of_In, in_concat. exists (params group).
          split; [apply in_map|]; by apply list_elem_of_In. }
        rewrite (Hin Hnd2 group q po grad); auto; [|congruence].
        f_equal. f_equal. unfold get_state. rewrite Hout1; [done|].
        intros Hq1. by apply (Hdisj q).
Qed.

Lemma update_hessian_of_groups v self :
  update_hessian_of addcmul_sparse v self
  = for_each (param_groups self) (fun group =>
      let '(beta1, beta2) := betas (hyper group) in
      for_each (params group)
        (update_hessian_param addcmul_sparse
           (init_state_of v (capturable (defaults self))) beta2)).
Proof. destruct v; reflexivity. Qed.

End UpdateHessianGroups.

(** ** What one [update_hessian] call changes *)

Lemma init_state_nonempty cap t s :
  state_is_empty s = false -> init_state cap t s = s.
Proof. unfold init_state. by intros ->. Qed.

Lemma init_state_rms_nonempty t s :
  state_is_empty s = false -> init_state_rms t s = s.
Proof. unfold init_state_rms. by intros ->. Qed.

Lemma init_state_of_nonempty v cap t s :
  state_is_empty s = false -> init_state_of v cap t s = s.
Proof.
  destruct v; simpl; auto using init_state_nonempty, init_state_rms_nonempty.
Qed.

Lemma hessian_present_nonempty s h :
  st_hessian s = Some h -> state_is_empty s = false.
Proof.
  unfold state_is_empty. intros ->.
  destruct (st_step s), (st_exp_avg s); reflexivity.
Qed.


Lemma zip_inplace_length f xs ys : length (zip_inplace f xs ys) = length xs.
Proof.
  revert ys. induction xs as [|x xs IH]; intros [|y ys]; simpl; auto.
Qed.

Lemma zip_inplace_lookup f xs ys j :
  zip_inplace f xs ys !! j
  = match xs !! j, ys !! j with
    | Some x, Some y => Some (f x y)
    | o, _ => o
    end.
Proof.
  revert ys j. induction xs as [|x xs IH]; intros [|y ys] [|j]; simpl; auto.
  destruct (xs !! j); reflexivity.
Qed.





Lemma dense_grads_singleton p po st :
  (forall g, p_grad po = Some g -> is_sparse g = false) ->
  dense_grads {| heap := {[ p := po ]}; state := st |}.
Proof.
  intros H q g. unfold grad_of; simpl.
  destruct (decide (q = p)) as [->|Hne].
  - rewrite lookup_singleton_eq. apply H.
  - rewrite lookup_singleton_ne by done. discriminate.
Qed.




(** ** Construction *)

Lemma not_nonneg_true x : not_nonneg x = true <-> x < 0.
Proof.
  unfold not_nonneg. rewrite negb_true_iff, bool_decide_eq_false. lra.
Qed.

Lemma not_unit_interval_true x :
  not_unit_interval x = true <-> ~ (0 <= x < 1).
Proof.
  unfold not_unit_interval.
  rewrite negb_true_iff, andb_false_iff, !bool_decide_eq_false. lra.
Qed.

Lemma check_hyper_ok lr betas rho weight_decay :
  check_hyper lr betas rho weight_decay = Ok tt
  <-> ~ invalid_config lr betas rho weight_decay.
Proof.
  unfold check_hyper, invalid_config.
  destruct (not_nonneg lr) eqn:E1.
  { apply not_nonneg_true in E1. split; [discriminate|tauto]. }
  destruct (not_unit_interval (fst betas)) eqn:E2.
  { apply not_unit_interval_true in E2. split; [discriminate|tauto]. }
  destruct (not_unit_interval (snd betas)) eqn:E3.
  { apply not_unit_interval_true in E3. split; [discriminate|tauto]. }
  destruct (not_nonneg rho) eqn:E4.
  { apply not_nonneg_true in E4. split; [discriminate|tauto]. }
  destruct (not_nonneg weight_decay) eqn:E5.
  { apply not_nonneg_true in E5. split; [discriminate|tauto]. }
  split; [|reflexivity]. intros _.
  apply not_true_iff_false in E1, E2, E3, E4, E5.
  rewrite not_nonneg_true in E1, E4, E5.
  rewrite not_unit_interval_true in E2, E3. tauto.
Qed.

Lemma check_hyper_raises lr betas rho weight_decay e :
  check_hyper lr betas rho weight_decay = Raise e -> exists msg, e = ValueError msg.
Proof.
  unfold check_hyper.
  repeat match goal with
         | |- context [if ?b then _ else _] => destruct b
         end; intros H; inversion H; eauto.
Qed.

Lemma check_hyper_invalid lr betas rho weight_decay e :
  check_hyper lr betas rho weight_decay = Raise e ->
  invalid_config lr betas rho weight_decay.
Proof.
  unfold check_hyper, invalid_config.
  destruct (not_nonneg lr) eqn:E1.
  { apply not_nonneg_true in E1. tauto. }
  destruct (not_unit_interval (fst betas)) eqn:E2.
  { apply not_unit_interval_true in E2. tauto. }
  destruct (not_unit_interval (snd betas)) eqn:E3.
  { apply not_unit_interval_true in E3. tauto. }
  destruct (not_nonneg rho) eqn:E4.
  { apply not_nonneg_true in E4. tauto. }
  destruct (not_nonneg weight_decay) eqn:E5.
  { apply not_nonneg_true in E5. tauto. }
  discriminate.
Qed.

(** C7, as the code has it. For each of the four classes, the constructor
    raises [ValueError] exactly when [lr < 0], or a beta lies outside
    [0, 1), or [rho < 0], or [weight_decay < 0], or the parameter list is
    empty; it returns an optimizer exactly when the hyperparameters are in
    their ranges and the list is not empty, and it raises no other
    exception. *)
Theorem init_raises_iff_invalid v ps lr betas rho weight_decay maximize capturable :
  ((exists msg, init_of v ps lr betas rho weight_decay maximize capturable
                = Raise (ValueError msg))
   <-> invalid_config lr betas rho weight_decay \/ ps = [])
  /\ ((exists self, init_of v ps lr betas rho weight_decay maximize capturable
                    = Ok self)
      <-> ~ invalid_config lr betas rho weight_decay /\ ps <> [])
  /\ (forall e, init_of v ps lr betas rho weight_decay maximize capturable
                = Raise e -> exists msg, e = ValueError msg).
Proof.
  assert (Hv : init_of v = init_with) by (destruct v; reflexivity).
  rewrite Hv. unfold init_with.
  pose proof (check_hyper_ok lr betas rho weight_decay) as Hok.
  destruct (check_hyper lr betas rho weight_decay) as [[]|e] eqn:E.
  - assert (Hvalid : ~ invalid_config lr betas rho weight_decay)
      by (apply Hok; reflexivity).
    destruct ps as [|p ps]; cbn [Optimizer_init].
    + split; [|split].
      * split; [auto|]. intros _. eexists. reflexivity.
      * split; [intros [self H]; discriminate|]. intros [_ H]. contradiction.
      * intros e [= <-]. eauto.
    + split; [|split].
      * split; [intros [msg H]; discriminate|].
        intros [H|H]; [contradiction|discriminate].
      * split; [|intros _; eexists; reflexivity].
        intros _. split; [exact Hvalid|discriminate].
      * intros e H. discriminate.
  - destruct (check_hyper_raises _ _ _ _ _ E) as [msg ->].
    assert (Hinv : invalid_config lr betas rho weight_decay)
      by eauto using check_hyper_invalid.
    split; [|split].
    + split; [auto|]. intros _. exists msg. reflexivity.
    + split; [intros [self H]; discriminate|]. intros [H _]. contradiction.
    + intros e [= <-]. eauto.
Qed.

(** C7 as the specification words it fails on an empty parameter list:
    under the default hyperparameters, all in their ranges, the constructor
    of [SophiaG] raises [ValueError]. *)
Lemma empty_parameter_list_raises :
  SophiaG_init [] 1e-4 (0.965, 0.99) 0.04 0.1 false false
  = Raise (ValueError "optimizer got an empty parameter list")
  /\ ~ invalid_config 1e-4 (0.965, 0.99) 0.04 0.1.
Proof.
  assert (Hvalid : ~ invalid_config 1e-4 (0.965, 0.99) 0.04 0.1).
  { unfold invalid_config. simpl. lra. }
  split; [|exact Hvalid].
  unfold SophiaG_init, init_with.
  apply check_hyper_ok in Hvalid. rewrite Hvalid. reflexivity.
Qed.

(** ** One kernel iteration outside capturable mode *)

Lemma index_Some {A} (xs : list A) i x : xs !! i = Some x -> index xs i = Ok x.
Proof. unfold index. by intros ->. Qed.

Lemma real_views_real grad exp_avg hess param :
  is_complex param = false ->
  real_views grad exp_avg hess param = Ok (grad, exp_avg, hess, param).
Proof. unfold real_views. by intros ->. Qed.

Lemma real_views_rms_real grad exp_avg rms hess param :
  is_complex param = false ->
  real_views_rms grad exp_avg rms hess param
  = Ok (grad, exp_avg, rms, hess, param).
Proof. unfold real_views_rms. by intros ->. Qed.

Lemma store_eq (w w' : Store) :
  heap w = heap w' -> state w = state w' -> w = w'.
Proof. destruct w, w'; simpl; intros -> ->; reflexivity. Qed.

Ltac mrun :=
  cbv beta iota zeta delta
    [bind lookup_param lift state_item ret raise modify
       store_step store_param store_exp_avg store_rms store_hessian].

Lemma call_iter k ps grads bs beta1 beta2 rho lr weight_decay maximize capturable :
  call k ps grads bs beta1 beta2 rho lr weight_decay maximize capturable
  = for_enumerate 0 ps
      (iter_of k grads bs beta1 beta2 rho lr weight_decay maximize capturable).
Proof. destruct k; reflexivity. Qed.

Lemma numel_add_scalar_ t c : numel (add_scalar_ t c) = numel t.
Proof. unfold numel, add_scalar_. simpl. by rewrite length_map. Qed.

Lemma item_counter t :
  numel t = 1%nat ->
  item (add_scalar_ t 1) = Ok (data (add_scalar_ t 1)).
Proof. intros H. unfold item. by rewrite numel_add_scalar_, H. Qed.

(** Outside capturable mode, on a real parameter whose state holds the keys
    the kernel reads and a step counter of one element, an iteration
    replaces the parameter and its state by the values named above and
    raises nothing. *)
Lemma iter_run k grads bs hy i p w po g s m h t :
  heap w !! p = Some po -> is_complex (p_data po) = false ->
  grads !! i = Some g -> state w !! p = Some s ->
  st_exp_avg s = Some m -> st_hessian s = Some h -> st_step s = Some t ->
  numel t = 1%nat ->
  match k with
  | single_tensor_sophiag => True
  | _ => is_Some (st_rms s)
  end ->
  iter_of k grads bs (fst (betas hy)) (snd (betas hy))
    (rho hy) (lr hy) (weight_decay hy) (maximize hy) false i p w
  = (Ok tt, put_cell p (param_after k hy bs g (p_data po) m h)
              (state_after k hy g (p_data po) s) w).
Proof.
  intros Hpo Hreal Hg Hs Hm Hh Ht Hn Hr.
  apply get_state_Some in Hs. apply index_Some in Hg.
  pose proof (item_counter t Hn) as Hitem.
  destruct k; [|destruct Hr as [r Hr]..];
    cbv beta iota delta [iter_of _single_tensor_sophiag_iter
      _single_tensor_sophiag_rms_iter _single_tensor_sophiag_og_iter
      _single_tensor_sophiag_rmsd_iter]; mrun;
    repeat (progress (rewrite ?Hpo, ?Hg, ?Hs, ?Hm, ?Hh, ?Ht, ?Hr, ?Hitem,
                        ?real_views_real, ?real_views_rms_real by done;
                      cbv beta iota zeta));
    unfold set_state, get_state; cbn [heap state];
    rewrite ?lookup_insert_eq; cbn [default from_option];
    (f_equal; apply store_eq; cbn [heap state put_cell];
     [ rewrite alter_alter_eq; apply alter_ext; intros x Hx;
       rewrite Hpo in Hx; inversion Hx; subst x; reflexivity
     | rewrite !insert_insert_eq; f_equal;
       unfold state_after; rewrite ?Hm, ?Ht, ?Hr; cbn;
       rewrite ?Hm, ?Hr; reflexivity ]).
Qed.

(** ** A kernel iteration that returns, in any mode *)








(** ** The loop of [step] over the parameters of a group *)

Lemma step_of_groups v self bs :
  step_of v self bs
  = (for_fold (param_groups self) (BsNum bs) (fun bs group =>
       let '(beta1, beta2) := betas (hyper group) in
       let* (params_with_grad, grads, bs) :=
         for_fold (params group) ([], [], bs)
           (collect_of v (capturable (defaults self))) in
       call (kernel_of v) params_with_grad grads bs beta1 beta2
         (rho (hyper group)) (lr (hyper group)) (weight_decay (hyper group))
         (maximize (hyper group)) (capturable (hyper group)) >>
       ret bs) >>
     ret tt).
Proof. destruct v; reflexivity. Qed.

Lemma state_is_empty_true s : state_is_empty s = true -> s = empty_state.
Proof.
  destruct s as [[?|] [?|] [?|] [?|]]; cbn; intros H; try discriminate.
  reflexivity.
Qed.

Lemma get_state_ok v w p :
  states_ok v w ->
  state_is_empty (get_state p w) = true \/ full_state (kernel_of v) (get_state p w).
Proof.
  intros Hok. unfold get_state. destruct (state w !! p) as [s|] eqn:E; simpl.
  - eauto.
  - left. reflexivity.
Qed.

Lemma prepared_full v cap t s :
  state_is_empty s = true \/ full_state (kernel_of v) s ->
  full_state (kernel_of v) (prepared v cap t s).
Proof.
  intros [He|Hf].
  - apply state_is_empty_true in He. subst s.
    destruct v, cap; cbv; eauto 10.
  - assert (Hne : state_is_empty s = false).
    { destruct Hf as ((? & H & _) & _). unfold state_is_empty. by rewrite H. }
    unfold prepared. rewrite init_state_of_nonempty by done.
    destruct Hf as (H1 & H2 & [h H3] & H4).
    unfold backfill_hessian. rewrite H3. repeat split; eauto.
Qed.

Lemma collect_skip v cap acc p w :
  grad_of w p = None -> collect_of v cap acc p w = (Ok acc, w).
Proof.
  unfold grad_of. intros H.
  destruct v; cbv beta iota delta [collect_of SophiaG_collect
    SophiaG_RMS_collect SophiaG_OG_collect SophiaG_RMSD_collect];
    destruct (heap w !! p) as [po|]; auto; rewrite H; reflexivity.
Qed.

Lemma collect_run v a1 a2 bs p w po g :
  heap w !! p = Some po -> p_grad po = Some g -> is_sparse g = false ->
  state_is_empty (get_state p w) = true
  \/ full_state (kernel_of v) (get_state p w) ->
  collect_of v false (a1, a2, bs) p w
  = (Ok (a1 ++ [p], a2 ++ [g], bs),
     set_state p (prepared v false (p_data po) (get_state p w)) w).
Proof.
  intros Hpo Hg Hd Hok.
  pose proof (prepared_full v false (p_data po) _ Hok) as (Ht & Hm & Hh & Hr).
  destruct Ht as (t & Ht & Hn), Hm as [m Hm], Hh as [h Hh].
  unfold prepared in *.
  destruct v; [|destruct Hr as [r Hr]..];
    cbv beta iota delta [collect_of SophiaG_collect SophiaG_RMS_collect
      SophiaG_OG_collect SophiaG_RMSD_collect init_state_of] in *;
    rewrite Hpo, Hg, Hd; mrun;
    repeat (progress (rewrite ?get_state_set_eq, ?Hm, ?Ht, ?Hh, ?Hr;
                      cbv beta iota zeta));
    reflexivity.
Qed.

Lemma tracked_cons w p ps :
  tracked w (p :: ps)
  = match grad_of w p with
    | Some g => (p, g) :: tracked w ps
    | None => tracked w ps
    end.
Proof. unfold tracked; simpl. destruct (grad_of w p); reflexivity. Qed.

Lemma tracked_same_heap w w' ps :
  heap w' = heap w -> tracked w' ps = tracked w ps.
Proof.
  intros H. unfold tracked, grad_of. rewrite H. reflexivity.
Qed.

Lemma tracked_fst_subset w ps q : q ∈ (tracked w ps).*1 -> q ∈ ps.
Proof.
  induction ps as [|p ps IH].
  - intros H. inversion H.
  - rewrite tracked_cons, elem_of_cons.
    destruct (grad_of w p); simpl; rewrite ?elem_of_cons; tauto.
Qed.

Lemma tracked_elem w ps p g :
  (p, g) ∈ tracked w ps <-> p ∈ ps /\ grad_of w p = Some g.
Proof.
  induction ps as [|q ps IH].
  - split; [intros H; inversion H|intros [H _]; inversion H].
  - rewrite tracked_cons. destruct (grad_of w q) as [g'|] eqn:E.
    + rewrite !elem_of_cons, IH. split.
      * intros [H|[H1 H2]]; [inversion H; subst; auto|auto].
      * intros [[->|H1] H2]; [left; congruence|auto].
    + rewrite elem_of_cons, IH. split.
      * intros [H1 H2]; auto.
      * intros [[->|H1] H2]; [congruence|auto].
Qed.

Lemma tracked_NoDup w ps : NoDup ps -> NoDup (tracked w ps).*1.
Proof.
  induction 1 as [|p ps Hnotin Hnd IH].
  - constructor.
  - rewrite tracked_cons. destruct (grad_of w p); simpl; auto.
    constructor; auto. intros H. apply Hnotin. eauto using tracked_fst_subset.
Qed.

(** The loop that gathers the parameters with a gradient: it initialises
    their states and returns them with their gradients. *)
Lemma collect_sweep v ps : forall a1 a2 bs w,
  NoDup ps -> dense_grads w -> states_ok v w ->
  exists w',
    for_fold ps (a1, a2, bs) (collect_of v false) w
    = (Ok (a1 ++ (tracked w ps).*1, a2 ++ (tracked w ps).*2, bs), w')
    /\ heap w' = heap w
    /\ (forall q, q ∉ (tracked w ps).*1 -> state w' !! q = state w !! q)
    /\ (forall q po, q ∈ (tracked w ps).*1 -> heap w !! q = Some po ->
          state w' !! q
          = Some (prepared v false (p_data po) (get_state q w))).
Proof.
  induction ps as [|p ps IH]; intros a1 a2 bs w Hnd Hdense Hok.
  - exists w. simpl. rewrite !app_nil_r. repeat split; auto.
    intros q po H. inversion H.
  - inversion Hnd as [|? ? Hnotin Hnd']; subst.
    cbn [for_fold]. unfold bind. rewrite tracked_cons.
    destruct (grad_of w p) as [g|] eqn:Hg.
    + unfold grad_of in Hg.
      destruct (heap w !! p) as [po|] eqn:Hpo; [|discriminate].
      assert (Hd : is_sparse g = false).
      { apply (Hdense p). unfold grad_of. by rewrite Hpo. }
      rewrite (collect_run v a1 a2 bs p w po g Hpo Hg Hd (get_state_ok v w p Hok)).
      set (w1 := set_state p _ w).
      assert (Hheap1 : heap w1 = heap w) by reflexivity.
      destruct (IH (a1 ++ [p]) (a2 ++ [g]) bs w1 Hnd') as (w' & Hrun & Hheap & Hout & Hin).
      { intros q g'. unfold grad_of. rewrite Hheap1. apply Hdense. }
      { intros q s. unfold w1; simpl. destruct (decide (p = q)) as [->|Hne].
        - rewrite lookup_insert_eq. intros [= <-]. right.
          apply prepared_full, get_state_ok, Hok.
        - rewrite lookup_insert_ne by done. apply Hok. }
      rewrite (tracked_same_heap _ _ _ Hheap1) in Hrun, Hout, Hin.
      exists w'. rewrite Hrun. simpl. rewrite <- !app_assoc. simpl.
      split; [reflexivity|]. split; [congruence|]. split.
      * intros q Hq. rewrite not_elem_of_cons in Hq. destruct Hq as [Hne Hq].
        rewrite Hout by done. unfold w1; simpl.
        by rewrite lookup_insert_ne.
      * intros q po' Hq Hpo'. apply elem_of_cons in Hq as [->|Hq].
        -- rewrite Hout.
           ++ unfold w1; simpl. rewrite lookup_insert_eq. congruence.
           ++ intros H. apply Hnotin. eauto using tracked_fst_subset.
        -- rewrite (Hin q po' Hq) by (rewrite Hheap1; done).
           unfold w1. rewrite get_state_set_ne; [done|].
           intros ->. apply Hnotin. eauto using tracked_fst_subset.
    + rewrite (collect_skip v false _ p w Hg).
      destruct (IH a1 a2 bs w Hnd' Hdense Hok) as (w' & Hrun & Hheap & Hout & Hin).
      exists w'. rewrite Hrun. repeat split; auto.
Qed.

(** ** The loop of a kernel *)

Lemma put_cell_heap_eq p t s w po :
  heap w !! p = Some po ->
  heap (put_cell p t s w) !! p = Some {| p_data := t; p_grad := p_grad po |}.
Proof. intros H. unfold put_cell; simpl. by rewrite lookup_alter_eq, H. Qed.

Lemma put_cell_heap_ne p q t s w :
  p <> q -> heap (put_cell p t s w) !! q = heap w !! q.
Proof. intros H. unfold put_cell; simpl. by rewrite lookup_alter_ne. Qed.

Lemma put_cell_state_eq p t s w : state (put_cell p t s w) !! p = Some s.
Proof. unfold put_cell; simpl. by rewrite lookup_insert_eq. Qed.

Lemma put_cell_state_ne p q t s w :
  p <> q -> state (put_cell p t s w) !! q = state w !! q.
Proof. intros H. unfold put_cell; simpl. by rewrite lookup_insert_ne. Qed.

Lemma kernel_sweep k hy bs tr : forall pre w,
  NoDup tr.*1 ->
  (forall p g, (p, g) ∈ tr ->
     exists po s, heap w !! p = Some po /\ is_complex (p_data po) = false
                  /\ state w !! p = Some s /\ full_state k s) ->
  exists w',
    for_enumerate (length pre) tr.*1
      (iter_of k (pre ++ tr.*2) bs (fst (betas hy)) (snd (betas hy))
         (rho hy) (lr hy) (weight_decay hy) (maximize hy) false) w
    = (Ok tt, w')
    /\ (forall q, q ∉ tr.*1 ->
          heap w' !! q = heap w !! q /\ state w' !! q = state w !! q)
    /\ (forall p g po s m h,
          (p, g) ∈ tr -> heap w !! p = Some po -> state w !! p = Some s ->
          st_exp_avg s = Some m -> st_hessian s = Some h ->
          heap w' !! p
          = Some {| p_data := param_after k hy bs g (p_data po) m h;
                    p_grad := p_grad po |}
          /\ state w' !! p = Some (state_after k hy g (p_data po) s)).
Proof.
  induction tr as [|[p g] tr IH]; intros pre w Hnd Hpre.
  - exists w. simpl. split; [reflexivity|]. split; [auto|].
    intros p g po s m h Hin. inversion Hin.
  - simpl in Hnd. inversion Hnd as [|? ? Hnotin Hnd']; subst.
    destruct (Hpre p g) as (po & s & Hpo & Hreal & Hs & Hfull); [by left|].
    destruct Hfull as ((t & Ht & Hn) & [m Hm] & [h Hh] & Hr).
    cbn [for_enumerate fmap list_fmap fst snd]. unfold bind.
    rewrite (iter_run k _ bs hy _ p w po g s m h t); auto;
      [|by apply list_lookup_middle].
    set (w1 := put_cell p _ _ w).
    destruct (IH (pre ++ [g]) w1 Hnd') as (w' & Hrun & Hout & Hin).
    { intros q g' Hq.
      assert (Hne : p <> q).
      { intros ->. apply Hnotin. apply list_elem_of_fmap. by exists (q, g'). }
      unfold w1. rewrite put_cell_heap_ne, put_cell_state_ne by done.
      apply (Hpre q g'). by right. }
    rewrite length_app, <- app_assoc in Hrun. simpl in Hrun.
    rewrite Nat.add_1_r in Hrun.
    exists w'. split; [exact Hrun|]. split.
    + intros q Hq. rewrite not_elem_of_cons in Hq. destruct Hq as [Hne Hq].
      destruct (Hout q Hq) as [-> ->]. unfold w1.
      rewrite put_cell_heap_ne, put_cell_state_ne by done. done.
    + intros p' g' po' s' m' h' Hin' Hpo' Hs' Hm' Hh'.
      apply elem_of_cons in Hin' as [Heq|Hin'].
      * inversion Heq; subst p' g'.
        rewrite Hpo in Hpo'. inversion Hpo'; subst po'.
        rewrite Hs in Hs'. inversion Hs'; subst s'.
        rewrite Hm in Hm'. inversion Hm'; subst m'.
        rewrite Hh in Hh'. inversion Hh'; subst h'.
        destruct (Hout p Hnotin) as [-> ->]. unfold w1.
        rewrite (put_cell_heap_eq p _ _ w po Hpo), put_cell_state_eq. done.
      * assert (Hne : p <> p').
        { intros ->. apply Hnotin. apply list_elem_of_fmap. by exists (p', g'). }
        apply (Hin p' g' po' s' m' h' Hin'); auto; unfold w1.
        -- by rewrite put_cell_heap_ne.
        -- by rewrite put_cell_state_ne.
Qed.

(** ** [step] outside capturable mode, on real parameters *)

Lemma param_after_complex k hy bs g param m h :
  is_complex (param_after k hy bs g param m h) = is_complex param.
Proof. reflexivity. Qed.

Lemma state_after_full k hy g t s :
  full_state k s -> full_state k (state_after k hy g t s).
Proof.
  intros ((t0 & H1 & Hn) & [? H2] & [? H3] & H4).
  unfold state_after, full_state; simpl.
  rewrite H1, H2, H3; simpl. split; [|repeat split; eauto].
  - exists (add_scalar_ t0 1). split; [reflexivity|].
    by rewrite numel_add_scalar_.
  - destruct k; auto; destruct H4 as [? H4]; rewrite H4; simpl; eauto.
Qed.

Lemma grad_of_Some w p g :
  grad_of w p = Some g <-> exists po, heap w !! p = Some po /\ p_grad po = Some g.
Proof.
  unfold grad_of. destruct (heap w !! p) as [po|]; split.
  - intros H. eauto.
  - intros (po' & [= <-] & H). exact H.
  - discriminate.
  - intros (po' & [=] & _).
Qed.

Lemma group_step v bs gr w :
  NoDup (params gr) -> capturable (hyper gr) = false ->
  dense_grads w -> real_params w -> states_ok v w ->
  exists w',
    (let '(beta1, beta2) := betas (hyper gr) in
     let* (params_with_grad, grads, bs) :=
       for_fold (params gr) ([], [], bs) (collect_of v false) in
     call (kernel_of v) params_with_grad grads bs beta1 beta2
       (rho (hyper gr)) (lr (hyper gr)) (weight_decay (hyper gr))
       (maximize (hyper gr)) (capturable (hyper gr)) >>
     ret bs) w = (Ok bs, w')
    /\ stepped v bs (map (fun p => (p, hyper gr)) (params gr)) w w'.
Proof.
  intros Hnd Hcap Hdense Hreal Hok.
  destruct (collect_sweep v (params gr) [] [] bs w Hnd Hdense Hok)
    as (w1 & Hrun1 & Hheap1 & Hout1 & Hin1).
  set (tr := tracked w (params gr)) in *.
  destruct (kernel_sweep (kernel_of v) (hyper gr) bs tr [] w1) as (w' & Hrun & Hout & Hin).
  { apply tracked_NoDup, Hnd. }
  { intros p g Hpg. apply tracked_elem in Hpg as [Hp Hg].
    apply grad_of_Some in Hg as (po & Hpo & Hg).
    exists po, (prepared v false (p_data po) (get_state p w)).
    rewrite Hheap1. split; [done|]. split; [eauto|]. split.
    - apply Hin1; [|done]. apply list_elem_of_fmap. exists (p, g). split; [done|].
      apply tracked_elem. split; [done|]. apply grad_of_Some; eauto.
    - apply prepared_full, get_state_ok, Hok. }
  exists w'. split.
  - destruct (betas (hyper gr)) as [beta1 beta2] eqn:Hb.
    unfold bind at 1. rewrite Hrun1. simpl app. cbv beta iota.
    unfold bind, ret. rewrite call_iter, Hcap.
    simpl in Hrun. rewrite Hrun. reflexivity.
  - assert (Hfst : (map (fun p => (p, hyper gr)) (params gr)).*1 = params gr).
    { rewrite <- list_fmap_compose. apply list_fmap_id. }
    split.
    + intros q Hq.
      assert (Hq' : q ∉ tr.*1).
      { intros Hin'. apply list_elem_of_fmap in Hin' as ([q' g] & -> & Hin').
        apply tracked_elem in Hin' as [Hq1 Hq2]. simpl in Hq.
        destruct Hq as [Hq|Hq]; [|congruence].
        apply Hq. by rewrite Hfst. }
      destruct (Hout q Hq') as [-> ->]. rewrite Hheap1, Hout1 by done. done.
    + intros p hy po g Hp Hpo Hg.
      apply list_elem_of_fmap in Hp as (p' & [= -> ->] & Hp).
      assert (Htr : (p', g) ∈ tr).
      { apply tracked_elem. split; [done|]. apply grad_of_Some; eauto. }
      assert (Hs1 : state w1 !! p'
                    = Some (prepared v false (p_data po) (get_state p' w))).
      { apply Hin1; [|done]. apply list_elem_of_fmap. by exists (p', g). }
      destruct (prepared_full v false (p_data po) (get_state p' w)
                  (get_state_ok v w p' Hok)) as (_ & [m Hm] & [h Hh] & _).
      exists m, h. split; [done|]. split; [done|].
      assert (Hpo1 : heap w1 !! p' = Some po) by (by rewrite Hheap1).
      destruct (Hin p' g po _ m h Htr Hpo1 Hs1 Hm Hh) as [-> ->].
      by rewrite Hg.
Qed.

Lemma visited_fst groups : (visited groups).*1 = concat (map params groups).
Proof.
  unfold visited. induction groups as [|gr groups IH]; simpl; [reflexivity|].
  rewrite fmap_app, IH. f_equal.
  rewrite <- list_fmap_compose. apply list_fmap_id.
Qed.

Lemma visited_elem groups p hy :
  (p, hy) ∈ visited groups
  <-> exists gr, gr ∈ groups /\ p ∈ params gr /\ hy = hyper gr.
Proof.
  unfold visited. rewrite list_elem_of_In, in_concat. split.
  - intros (l & Hl & Hp). apply in_map_iff in Hl as (gr & <- & Hgr).
    apply in_map_iff in Hp as (p' & [= -> <-] & Hp).
    exists gr. rewrite !list_elem_of_In. auto.
  - intros (gr & Hgr & Hp & ->).
    apply list_elem_of_In in Hgr. apply list_elem_of_In in Hp.
    exists (map (fun p => (p, hyper gr)) (params gr)). split.
    + apply in_map_iff. eauto.
    + apply in_map_iff. eauto.
Qed.

(** What [stepped] keeps: the gradients, and the three conditions under
    which the next group runs. *)
Lemma stepped_keeps v bs vis w w' :
  stepped v bs vis w w' ->
  dense_grads w -> real_params w -> states_ok v w ->
  (forall q, grad_of w' q = grad_of w q)
  /\ dense_grads w' /\ real_params w' /\ states_ok v w'.
Proof.
  intros [Hframe Hvis] Hdense Hreal Hok.
  assert (Hcases : forall q,
            (heap w' !! q = heap w !! q /\ state w' !! q = state w !! q)
            \/ exists hy po g, (q, hy) ∈ vis /\ heap w !! q = Some po
                               /\ p_grad po = Some g).
  { intros q. destruct (grad_of w q) as [g|] eqn:Hg; [|left; auto].
    destruct (decide (q ∈ vis.*1)) as [Hin|Hnotin]; [|left; auto].
    right. apply list_elem_of_fmap in Hin as ([q' hy] & -> & Hin).
    apply grad_of_Some in Hg as (po & Hpo & Hg). eauto 10. }
  assert (Hgrad : forall q, grad_of w' q = grad_of w q).
  { intros q. destruct (Hcases q) as [[Hh _]|(hy & po & g & Hin & Hpo & Hg)].
    - unfold grad_of. by rewrite Hh.
    - destruct (Hvis q hy po g Hin Hpo Hg) as (m & h & _ & _ & Hh & _).
      unfold grad_of. rewrite Hh, Hpo. simpl. congruence. }
  split; [exact Hgrad|]. split; [|split].
  - intros q g. rewrite Hgrad. apply Hdense.
  - intros q po' Hpo'.
    destruct (Hcases q) as [[Hh _]|(hy & po & g & Hin & Hpo & Hg)].
    + apply (Hreal q). congruence.
    + destruct (Hvis q hy po g Hin Hpo Hg) as (m & h & _ & _ & Hh & _).
      rewrite Hh in Hpo'. inversion Hpo'; subst po'. cbn [p_data].
      rewrite param_after_complex. eauto.
  - intros q s' Hs'.
    destruct (Hcases q) as [[_ Hh]|(hy & po & g & Hin & Hpo & Hg)].
    + apply (Hok q). congruence.
    + destruct (Hvis q hy po g Hin Hpo Hg) as (m & h & _ & _ & _ & Hh).
      rewrite Hh in Hs'. inversion Hs'; subst s'. right.
      apply state_after_full, prepared_full, get_state_ok, Hok.
Qed.

Lemma stepped_app v bs vis1 vis2 w w1 w' :
  (forall q, q ∈ vis1.*1 -> q ∉ vis2.*1) ->
  dense_grads w -> real_params w -> states_ok v w ->
  stepped v bs vis1 w w1 -> stepped v bs vis2 w1 w' ->
  stepped v bs (vis1 ++ vis2) w w'.
Proof.
  intros Hdisj Hdense Hreal Hok H1 H2.
  destruct (stepped_keeps v bs vis1 w w1 H1 Hdense Hreal Hok) as (Hgrad & _).
  destruct H1 as [Hframe1 Hvis1], H2 as [Hframe2 Hvis2]. split.
  - intros q Hq.
    assert (Hq1 : q ∉ vis1.*1 \/ grad_of w q = None).
    { destruct Hq as [Hq|Hq]; [left|by right].
      rewrite fmap_app, not_elem_of_app in Hq. tauto. }
    assert (Hq2 : q ∉ vis2.*1 \/ grad_of w1 q = None).
    { destruct Hq as [Hq|Hq]; [left|right; by rewrite Hgrad].
      rewrite fmap_app, not_elem_of_app in Hq. tauto. }
    destruct (Hframe1 q Hq1) as [<- <-]. apply Hframe2, Hq2.
  - intros p hy po g Hin Hpo Hg. apply elem_of_app in Hin as [Hin|Hin].
    + destruct (Hvis1 p hy po g Hin Hpo Hg) as (m & h & Hm & Hh & Hheap & Hstate).
      exists m, h. split; [done|]. split; [done|].
      assert (Hnot : p ∉ vis2.*1).
      { apply Hdisj. apply list_elem_of_fmap. by exists (p, hy). }
      destruct (Hframe2 p (or_introl Hnot)) as [-> ->]. done.
    + assert (Hnot : p ∉ vis1.*1).
      { intros Hp1. apply (Hdisj p Hp1). apply list_elem_of_fmap. by exists (p, hy). }
      destruct (Hframe1 p (or_introl Hnot)) as [Hh1 Hs1].
      assert (Hpo1 : heap w1 !! p = Some po) by congruence.
      destruct (Hvis2 p hy po g Hin Hpo1 Hg) as (m & h & Hm & Hh & Hheap & Hstate).
      assert (Hget : get_state p w1 = get_state p w).
      { unfold get_state. by rewrite Hs1. }
      rewrite Hget in *. eauto 10.
Qed.

Lemma groups_step v bs cap_groups : forall w,
  NoDup (concat (map params cap_groups)) ->
  (forall gr, gr ∈ cap_groups -> capturable (hyper gr) = false) ->
  dense_grads w -> real_params w -> states_ok v w ->
  exists w',
    for_fold cap_groups bs (fun bs group =>
      let '(beta1, beta2) := betas (hyper group) in
      let* (params_with_grad, grads, bs) :=
        for_fold (params group) ([], [], bs) (collect_of v false) in
      call (kernel_of v) params_with_grad grads bs beta1 beta2
        (rho (hyper group)) (lr (hyper group)) (weight_decay (hyper group))
        (maximize (hyper group)) (capturable (hyper group)) >>
      ret bs) w = (Ok bs, w')
    /\ stepped v bs (visited cap_groups) w w'.
Proof.
  induction cap_groups as [|gr groups IH]; intros w Hnd Hcap Hdense Hreal Hok.
  - exists w. split; [reflexivity|]. split; [auto|].
    intros p hy po g Hin. inversion Hin.
  - simpl in Hnd. apply NoDup_app in Hnd as (Hnd1 & Hdisj & Hnd2).
    destruct (group_step v bs gr w Hnd1) as (w1 & Hrun1 & Hstep1); auto.
    { apply Hcap. by left. }
    destruct (stepped_keeps v bs _ w w1 Hstep1 Hdense Hreal Hok)
      as (_ & Hdense1 & Hreal1 & Hok1).
    destruct (IH w1 Hnd2) as (w' & Hrun & Hstep); auto.
    { intros gr' Hgr'. apply Hcap. by right. }
    exists w'. split.
    + cbn [for_fold]. unfold bind at 1. rewrite Hrun1. exact Hrun.
    + unfold visited. simpl. fold (visited groups).
      apply (stepped_app v bs _ _ w w1 w'); auto.
      intros q Hq. rewrite visited_fst.
      apply Hdisj. revert Hq. rewrite <- list_fmap_compose.
      rewrite list_fmap_id. auto.
Qed.

(** How [step] runs outside capturable mode when the parameters are listed
    once and real, the gradients dense and the states created by the
    class: it returns, and the final store is the one of [stepped]. *)
Lemma step_run v self bs w :
  host_mode self -> listed_once self ->
  dense_grads w -> real_params w -> states_ok v w ->
  exists w',
    step_of v self bs w = (Ok tt, w')
    /\ stepped v (BsNum bs) (visited (param_groups self)) w w'.
Proof.
  intros [Hcap0 Hcap] Hnd Hdense Hreal Hok.
  destruct (groups_step v (BsNum bs) (param_groups self) w Hnd Hcap Hdense Hreal Hok)
    as (w' & Hrun & Hstep).
  exists w'. split; [|exact Hstep].
  rewrite step_of_groups, Hcap0. unfold bind at 1. rewrite Hrun. reflexivity.
Qed.

(** ** Stores with a single parameter *)

Lemma real_params_singleton p po st :
  is_complex (p_data po) = false ->
  real_params {| heap := {[ p := po ]}; state := st |}.
Proof.
  intros H q po'. simpl. destruct (decide (q = p)) as [->|Hne].
  - rewrite lookup_singleton_eq. by intros [= <-].
  - rewrite lookup_singleton_ne by done. discriminate.
Qed.

Lemma states_ok_empty v hp : states_ok v {| heap := hp; state := ∅ |}.
Proof. intros q s. simpl. rewrite lookup_empty. discriminate. Qed.

Lemma states_ok_set v p s w :
  states_ok v w -> full_state (kernel_of v) s -> states_ok v (set_state p s w).
Proof.
  intros Hok Hfull q s'. unfold set_state; simpl.
  destruct (decide (p = q)) as [->|Hne].
  - rewrite lookup_insert_eq. intros [= <-]. by right.
  - rewrite lookup_insert_ne by done. apply Hok.
Qed.

Lemma listed_once_single p hy : listed_once (one_group [p] hy).
Proof. unfold listed_once; simpl. apply NoDup_singleton. Qed.

Lemma host_mode_single ps hy :
  capturable hy = false -> host_mode (one_group ps hy).
Proof.
  intros H. split; [exact H|]. intros gr Hgr. simpl in Hgr.
  apply list_elem_of_singleton in Hgr. by subst gr.
Qed.

Lemma visited_single p hy :
  (p, hy) ∈ visited (param_groups (one_group [p] hy)).
Proof. apply visited_elem. exists (mkGroup [p] hy). simpl. set_solver. Qed.

(** [update_hessian] on an optimizer with one parameter, whose gradient is
    dense. *)
Lemma update_hessian_single addcmul_sparse v hy p po g w :
  heap w !! p = Some po -> p_grad po = Some g -> is_sparse g = false ->
  update_hessian_of addcmul_sparse v (one_group [p] hy) w
  = (Ok tt, set_state p (hessian_after (init_state_of v (capturable hy))
                           (p_data po) g (snd (betas hy)) (get_state p w)) w).
Proof.
  intros Hpo Hg Hd. rewrite update_hessian_of_groups. simpl.
  destruct (betas hy) as [beta1 beta2]. simpl. unfold bind.
  rewrite (update_hessian_param_dense _ _ _ _ _ _ _ Hpo Hg Hd). reflexivity.
Qed.

(** [step] on an optimizer with one parameter outside capturable mode: the
    parameter is real, its gradient dense, and its state is the one the
    class has created. *)
Lemma step_single v hy bs p po g w :
  capturable hy = false ->
  heap w !! p = Some po -> p_grad po = Some g ->
  dense_grads w -> real_params w -> states_ok v w ->
  exists w' m h,
    step_of v (one_group [p] hy) bs w = (Ok tt, w')
    /\ st_exp_avg (prepared v false (p_data po) (get_state p w)) = Some m
    /\ st_hessian (prepared v false (p_data po) (get_state p w)) = Some h
    /\ heap w' !! p
       = Some {| p_data := param_after (kernel_of v) hy (BsNum bs) g (p_data po) m h;
                 p_grad := Some g |}
    /\ state w' !! p
       = Some (state_after (kernel_of v) hy g (p_data po)
                 (prepared v false (p_data po) (get_state p w))).
Proof.
  intros Hcap Hpo Hg Hdense Hreal Hok.
  destruct (step_run v (one_group [p] hy) bs w) as (w' & Hrun & _ & Hvis);
    auto using host_mode_single, listed_once_single.
  destruct (Hvis p hy po g (visited_single p hy) Hpo Hg)
    as (m & h & Hm & Hh & Hheap & Hstate).
  exists w', m, h. auto.
Qed.

(** ** Numbers *)

Lemma py_max_Rmax a b : py_max a b = Rmax a b.
Proof.
  unfold py_max, Rmax. destruct (Rle_dec a b) as [Hle|Hnle].
  - destruct (bool_decide (a < b)) eqn:E; auto.
    apply bool_decide_eq_false in E. lra.
  - rewrite bool_decide_eq_false_2; [reflexivity|lra].
Qed.

Lemma rms_vec1 x : 0 <= x -> _rms (vec [x]) = x.
Proof.
  intros Hx. unfold _rms, norm2, numel, sum_sq. simpl.
  rewrite Rplus_0_r, sqrt_square by exact Hx. rewrite sqrt_1. lra.
Qed.

Lemma sgn_pos x : 0 < x -> sgn x = 1.
Proof. intros H. unfold sgn. destruct (Rlt_dec 0 x); [reflexivity|lra]. Qed.



Lemma vec1_eq x y : x = y -> vec [x] = vec [y].
Proof. by intros ->. Qed.

(** ** The scenario *)

Lemma vec1_data t x :
  shape t = [1%nat] -> is_complex t = false -> is_sparse t = false ->
  is_cuda t = false -> data t = [x] -> t = vec [x].
Proof. destruct t; simpl; intros -> -> -> -> ->; reflexivity. Qed.

Ltac tensor_unfold :=
  cbv beta iota zeta delta
    [vec with_data data shape is_complex is_sparse is_cuda decayed momentum
       fast_momentum update_momentum signed_grad mul_ add_ sub_ neg add_scalar_
       addcmul_ addcmul_real abs sign clamp_max tdiv denom ratio_of zeros_like
       zeros_1 tensor_0 ema_hessian mul_data grad_sq complex_mul bs_value
       map zip_with zip_inplace repeat length negb fst snd].

Ltac vec1 := apply vec1_data; [reflexivity..|]; tensor_unfold; f_equal.

Lemma div_le_1 a d : 0 < d -> a <= d -> a / d <= 1.
Proof.
  intros Hd Ha. apply (Rmult_le_reg_r d); [exact Hd|].
  unfold Rdiv. rewrite Rmult_assoc, Rinv_l by lra. lra.
Qed.

Ltac lra_div := first [lra | apply div_le_1; lra].

Lemma scenario_hessian :
  hessian_after (init_state_of Base false) (vec [1]) (vec [0.1]) 0.99 empty_state
  = state_base tensor_0 (vec [0]) (vec [0.0001]).
Proof.
  unfold hessian_after, state_base. cbn. unfold set_hessian. cbn.
  f_equal. f_equal. vec1. lra.
Qed.

Lemma scenario_step :
  param_after single_tensor_sophiag hyper0 (BsNum 5120) (vec [0.1]) (vec [1])
    (vec [0]) (vec [0.0001])
  = vec [0.99999 - 1e-4 * 0.99999 * (0.0035 / (0.04 * 5120 * 0.0001 + 1e-15))].
Proof.
  unfold param_after. cbn [lr weight_decay betas rho maximize hyper0 fst snd].
  assert (Hd : decayed 1e-4 0.1 (vec [1]) = vec [0.99999]) by (vec1; lra).
  assert (Hm : update_momentum single_tensor_sophiag 0.965 false (vec [0]) (vec [0.1])
               = vec [0.0035]) by (vec1; lra).
  rewrite Hd, Hm. unfold step_size_neg_of, clamp_bound.
  rewrite rms_vec1, py_max_Rmax, Rmax_right by lra.
  vec1. rewrite sgn_pos, Rabs_pos_eq, Rmin_left by lra_div. lra.
Qed.

Lemma div_ge a d c : 0 < d -> c * d <= a -> c <= a / d.
Proof.
  intros Hd H. apply (Rmult_le_reg_r d); [exact Hd|].
  unfold Rdiv. rewrite Rmult_assoc, Rinv_l by lra. lra.
Qed.

Lemma scenario_state_after :
  state_after single_tensor_sophiag hyper0 (vec [0.1]) (vec [1])
    (state_base tensor_0 (vec [0]) (vec [0.0001]))
  = state_base (with_data tensor_0 [1]) (vec [0.0035]) (vec [0.0001]).
Proof.
  unfold state_after, state_base. cbn [st_step st_exp_avg st_hessian st_rms
    option_map rms_after hyper0 betas maximize fst].
  f_equal.
  - f_equal. unfold add_scalar_. f_equal. tensor_unfold. f_equal. lra.
  - f_equal. vec1. lra.
Qed.

(** The run of the scenario: one [update_hessian], then one [step]. *)
Lemma scenario_run addcmul_sparse :
  exists w1 w2,
    update_hessian_of addcmul_sparse Base opt0 store0 = (Ok tt, w1)
    /\ state w1 !! 0%nat = Some (state_base tensor_0 (vec [0]) (vec [0.0001]))
    /\ step_of Base opt0 5120 w1 = (Ok tt, w2)
    /\ state w2 !! 0%nat
       = Some (state_base (with_data tensor_0 [1]) (vec [0.0035]) (vec [0.0001]))
    /\ heap w2 !! 0%nat
       = Some {| p_data :=
                   vec [0.99999 - 1e-4 * 0.99999
                                  * (0.0035 / (0.04 * 5120 * 0.0001 + 1e-15))];
                 p_grad := Some (vec [0.1]) |}.
Proof.
  set (s1 := state_base tensor_0 (vec [0]) (vec [0.0001])).
  set (w1 := set_state 0%nat s1 store0).
  assert (Hrun1 : update_hessian_of addcmul_sparse Base opt0 store0 = (Ok tt, w1)).
  { unfold opt0. erewrite update_hessian_single;
      [|apply lookup_singleton_eq|reflexivity|reflexivity].
    unfold w1, s1. rewrite <- scenario_hessian. reflexivity. }
  assert (Hs1 : state w1 !! 0%nat = Some s1) by apply lookup_insert_eq.
  destruct (step_single Base hyper0 5120 0%nat param0 (vec [0.1]) w1)
    as (w2 & m & h & Hrun2 & Hm & Hh & Hheap & Hstate).
  - reflexivity.
  - apply lookup_singleton_eq.
  - reflexivity.
  - apply dense_grads_singleton. intros g [= <-]. reflexivity.
  - apply real_params_singleton. reflexivity.
  - apply states_ok_set; [apply states_ok_empty|]. cbv. eauto 10.
  - assert (Hprep : prepared Base false (p_data param0) (get_state 0%nat w1) = s1).
    { unfold get_state. rewrite Hs1. reflexivity. }
    rewrite Hprep in *. inversion Hm; subst m. inversion Hh; subst h.
    exists w1, w2. split; [exact Hrun1|]. split; [exact Hs1|].
    split; [exact Hrun2|]. split.
    + rewrite Hstate. f_equal. apply scenario_state_after.
    + rewrite Hheap. do 2 f_equal. apply scenario_step.
Qed.

(** C1, as the code has it. In the scenario of the specification
    (parameter [[1.0]], gradient [[0.1]], [lr=1e-4], [betas=(0.965, 0.99)],
    [rho=0.04], [weight_decay=0.1], [bs=5120], host mode), [update_hessian]
    leaves the hessian [[0.0001]]; the following [step] leaves the momentum
    [[0.0035]] and the step counter 1, multiplies the parameter by
    [1 - 1e-4 * 0.1] first, which gives [[0.99999]], takes the step size
    [1e-4 * max(1e-3, rms)] from the decayed parameter, which is
    [1e-4 * 0.99999], and the ratio
    [0.0035 / (0.04 * 5120 * 0.0001 + 1e-15)], which the clamp at 1 leaves
    as it is, and subtracts their product. *)
Theorem scenario_base_values addcmul_sparse :
  exists w1 w2,
    update_hessian_of addcmul_sparse Base opt0 store0 = (Ok tt, w1)
    /\ state w1 !! 0%nat = Some (state_base tensor_0 (vec [0]) (vec [0.0001]))
    /\ step_of Base opt0 5120 w1 = (Ok tt, w2)
    /\ state w2 !! 0%nat
       = Some (state_base (with_data tensor_0 [1]) (vec [0.0035]) (vec [0.0001]))
    /\ heap w2 !! 0%nat
       = Some {| p_data :=
                   vec [0.99999 - 1e-4 * 0.99999
                                  * (0.0035 / (0.04 * 5120 * 0.0001 + 1e-15))];
                 p_grad := Some (vec [0.1]) |}
    /\ decayed 1e-4 0.1 (vec [1]) = vec [0.99999]
    /\ 1e-4 * py_max 1e-3 (_rms (vec [0.99999])) = 1e-4 * 0.99999
    /\ ratio_of 0.04 (BsNum 5120) (vec [0.0035]) (vec [0.0001]) 1
       = vec [0.0035 / (0.04 * 5120 * 0.0001 + 1e-15)].
Proof.
  destruct (scenario_run addcmul_sparse) as (w1 & w2 & H1 & H2 & H3 & H4 & H5).
  exists w1, w2. repeat (split; [assumption|]). split; [|split].
  - vec1. lra.
  - rewrite rms_vec1, py_max_Rmax, Rmax_right by lra. reflexivity.
  - vec1. rewrite Rabs_pos_eq, Rmin_left by lra_div. reflexivity.
Qed.

(** C1 as the specification words it fails in the scenario: the parameter
    after the step is not [0.99999 - 1e-4 * (0.0035 / 20.48)], the step size
    is not [1e-4], and the ratio is not [0.0035 / 20.48]. *)
Lemma scenario_base_claim_fails :
  exists w1 w2 po x,
    update_hessian_of sparse_unsupported Base opt0 store0 = (Ok tt, w1)
    /\ step_of Base opt0 5120 w1 = (Ok tt, w2)
    /\ heap w2 !! 0%nat = Some po /\ data (p_data po) = [x]
    /\ x <> 0.99999 - 1e-4 * (0.0035 / 20.48)
    /\ 1e-4 * py_max 1e-3 (_rms (decayed 1e-4 0.1 (vec [1]))) <> 1e-4
    /\ data (ratio_of 0.04 (BsNum 5120) (vec [0.0035]) (vec [0.0001]) 1)
       <> [0.0035 / 20.48].
Proof.
  destruct (scenario_run sparse_unsupported) as (w1 & w2 & H1 & H2 & H3 & H4 & H5).
  assert (Hr : 0.1 <= 0.0035 / (0.04 * 5120 * 0.0001 + 1e-15))
    by (apply div_ge; lra).
  eexists w1, w2, _, _. split; [exact H1|]. split; [exact H3|].
  split; [exact H5|]. split; [reflexivity|]. split; [|split].
  - lra.
  - assert (Hd : decayed 1e-4 0.1 (vec [1]) = vec [0.99999]) by (vec1; lra).
    rewrite Hd, rms_vec1, py_max_Rmax, Rmax_right by lra. lra.
  - tensor_unfold. rewrite Rabs_pos_eq, Rmin_left by lra_div.
    intros [= H]. lra.
Qed.

(** ** The update, entry by entry *)

Lemma signed_grad_lookup maximize g j x :
  data g !! j = Some x ->
  data (signed_grad maximize g) !! j = Some (if maximize then - x else x).
Proof.
  intros H. unfold signed_grad. destruct maximize; simpl; [|exact H].
  by rewrite list_lookup_fmap, H.
Qed.

Lemma momentum_lookup beta1 maximize m g j mj gj :
  data m !! j = Some mj -> data g !! j = Some gj ->
  data (momentum beta1 maximize m g) !! j
  = Some (momentum_entry beta1 maximize mj gj).
Proof.
  intros Hm Hg. unfold momentum, add_, mul_. simpl.
  rewrite zip_inplace_lookup, list_lookup_fmap, Hm. simpl.
  by rewrite (signed_grad_lookup _ _ _ _ Hg).
Qed.

Lemma momentum_length beta1 maximize m g :
  length (data (momentum beta1 maximize m g)) = length (data m).
Proof.
  unfold momentum, add_, mul_. cbn [data with_data].
  by rewrite zip_inplace_length, length_map.
Qed.

Lemma ratio_of_lookup rho bs m h u j mj hj :
  data m !! j = Some mj -> data h !! j = Some hj ->
  data (ratio_of rho bs m h u) !! j
  = Some (ratio_entry rho (bs_value bs) mj hj u).
Proof.
  intros Hm Hh. unfold ratio_of, clamp_max, tdiv, abs, denom. simpl.
  rewrite list_lookup_fmap, lookup_zip_with, !list_lookup_fmap, Hm, Hh.
  reflexivity.
Qed.

Lemma kernel_of_momentum v beta1 maximize m g :
  update_momentum (kernel_of v) beta1 maximize m g = momentum beta1 maximize m g.
Proof. destruct v; reflexivity. Qed.

Lemma kernel_of_coefficient v lr param1 :
  step_size_neg_of (kernel_of v) lr param1 = - coefficient v lr param1.
Proof.
  destruct v; simpl; try reflexivity. rewrite py_max_Rmax. lra.
Qed.

Lemma kernel_of_bound v param1 :
  clamp_bound (kernel_of v) param1 = upper_bound v param1.
Proof. destruct v; simpl; try reflexivity; apply py_max_Rmax. Qed.

(** The entry of the parameter after the kernel of the class has run. *)
Lemma param_after_lookup v hy bs g param m h j x gj mj hj :
  data param !! j = Some x -> data g !! j = Some gj ->
  data m !! j = Some mj -> data h !! j = Some hj ->
  let param1 := decayed (lr hy) (weight_decay hy) param in
  let m1 := momentum_entry (fst (betas hy)) (maximize hy) mj gj in
  data (param_after (kernel_of v) hy bs g param m h) !! j
  = Some (x * (1 - lr hy * weight_decay hy)
          - coefficient v (lr hy) param1
            * (sgn m1 * ratio_entry (rho hy) (bs_value bs) m1 hj
                          (upper_bound v param1))).
Proof.
  intros Hx Hg Hm Hh param1 m1. unfold param_after.
  rewrite kernel_of_momentum, kernel_of_coefficient, kernel_of_bound.
  fold param1.
  pose proof (momentum_lookup (fst (betas hy)) (maximize hy) m g j mj gj Hm Hg)
    as Hm1. fold m1 in Hm1.
  assert (Hx1 : data param1 !! j = Some (x * (1 - lr hy * weight_decay hy))).
  { unfold param1, decayed, mul_. cbn [data with_data].
    by rewrite list_lookup_fmap, Hx. }
  unfold addcmul_real, sign. cbn [data with_data].
  rewrite zip_inplace_lookup, Hx1, lookup_zip_with, list_lookup_fmap, Hm1.
  rewrite (ratio_of_lookup _ _ _ _ _ _ _ _ Hm1 Hh). cbn [fmap option_fmap option_map mbind option_bind].
  f_equal. lra.
Qed.


Lemma singleton_lookup_eq {A} (l : list A) x :
  length l = 1%nat -> l !! 0%nat = Some x -> l = [x].
Proof.
  destruct l as [|y [|z l]]; simpl; try discriminate.
  by intros _ [= ->].
Qed.

Lemma param_after_length k hy bs g param m h :
  length (data (param_after k hy bs g param m h)) = length (data param).
Proof.
  unfold param_after, addcmul_real, decayed, mul_. cbn [data with_data].
  by rewrite zip_inplace_length, length_map.
Qed.

(** The update of a parameter with a single entry. *)
Lemma param_after_vec1 v hy bs gj x mj hj :
  let x1 := x * (1 - lr hy * weight_decay hy) in
  let m1 := momentum_entry (fst (betas hy)) (maximize hy) mj gj in
  param_after (kernel_of v) hy bs (vec [gj]) (vec [x]) (vec [mj]) (vec [hj])
  = vec [x1 - coefficient v (lr hy) (vec [x1])
              * (sgn m1 * ratio_entry (rho hy) (bs_value bs) m1 hj
                            (upper_bound v (vec [x1])))].
Proof.
  intros x1 m1. apply vec1_data; try reflexivity.
  apply singleton_lookup_eq.
  - by rewrite param_after_length.
  - by apply (param_after_lookup v hy bs (vec [gj]) (vec [x]) (vec [mj]) (vec [hj]) 0).
Qed.


Lemma ratio_entry_free rho bs m h u :
  0 < rho * bs * h + 1e-15 -> Rabs m <= u * (rho * bs * h + 1e-15) ->
  ratio_entry rho bs m h u = Rabs m / (rho * bs * h + 1e-15).
Proof.
  intros Hd Hm. unfold ratio_entry. apply Rmin_left.
  apply (Rmult_le_reg_r (rho * bs * h + 1e-15)); [exact Hd|].
  unfold Rdiv. rewrite Rmult_assoc, Rinv_l by lra. lra.
Qed.


Lemma div_le a d c : 0 < d -> a <= c * d -> a / d <= c.
Proof.
  intros Hd H. apply (Rmult_le_reg_r d); [exact Hd|].
  unfold Rdiv. rewrite Rmult_assoc, Rinv_l by lra. lra.
Qed.

(** ** The step size *)







(** ** The clamp at a zero hessian *)








(** ** One [update_hessian] and one [step] on a single entry *)

Lemma hessian_then_step_vec1 addcmul_sparse v hy bs x gj :
  capturable hy = false ->
  let po := {| p_data := vec [x]; p_grad := Some (vec [gj]) |} in
  let w := {| heap := {[ 0%nat := po ]}; state := ∅ |} in
  let x1 := x * (1 - lr hy * weight_decay hy) in
  let m1 := momentum_entry (fst (betas hy)) (maximize hy) 0 gj in
  let h1 := 0 * snd (betas hy) + (1 - snd (betas hy)) * (gj * gj) in
  exists w1 w2 s,
    update_hessian_of addcmul_sparse v (one_group [0%nat] hy) w = (Ok tt, w1)
    /\ step_of v (one_group [0%nat] hy) bs w1 = (Ok tt, w2)
    /\ heap w2 !! 0%nat
       = Some {| p_data :=
                   param_after (kernel_of v) hy (BsNum bs) (vec [gj]) (vec [x])
                     (vec [0]) (vec [h1]);
                 p_grad := Some (vec [gj]) |}
    /\ state w2 !! 0%nat = Some s
    /\ st_exp_avg s = Some (vec [m1])
    /\ st_hessian s = Some (vec [h1]).
Proof.
  intros Hcap po w x1 m1 h1.
  set (s1 := hessian_after (init_state_of v (capturable hy)) (vec [x]) (vec [gj])
               (snd (betas hy)) (get_state 0%nat w)).
  assert (Hrun1 : update_hessian_of addcmul_sparse v (one_group [0%nat] hy) w
                  = (Ok tt, set_state 0%nat s1 w)).
  { apply (update_hessian_single addcmul_sparse v hy 0%nat po (vec [gj]) w);
      [apply lookup_singleton_eq|reflexivity|reflexivity]. }
  set (w1 := set_state 0%nat s1 w) in *.
  assert (Hget : get_state 0%nat w = empty_state).
  { unfold get_state, w. simpl. by rewrite lookup_empty. }
  assert (Hm1 : st_exp_avg s1 = Some (vec [0])).
  { unfold s1. rewrite Hget, Hcap. destruct v; reflexivity. }
  assert (Hh1 : st_hessian s1 = Some (vec [h1])).
  { unfold s1. rewrite Hget, Hcap. destruct v; reflexivity. }
  assert (Hfull : full_state (kernel_of v) s1).
  { unfold s1. rewrite Hget, Hcap. destruct v; cbv; eauto 10. }
  assert (Hs1 : state w1 !! 0%nat = Some s1) by apply lookup_insert_eq.
  assert (Hprep : prepared v false (vec [x]) (get_state 0%nat w1) = s1).
  { unfold get_state. rewrite Hs1. simpl. unfold prepared.
    rewrite init_state_of_nonempty by eauto using hessian_present_nonempty.
    unfold backfill_hessian. by rewrite Hh1. }
  destruct (step_single v hy bs 0%nat po (vec [gj]) w1)
    as (w2 & m & h & Hrun2 & Hm & Hh & Hheap & Hstate).
  - exact Hcap.
  - apply lookup_singleton_eq.
  - reflexivity.
  - apply dense_grads_singleton. intros g [= <-]. reflexivity.
  - apply real_params_singleton. reflexivity.
  - apply states_ok_set; [apply states_ok_empty|exact Hfull].
  - cbn [p_data po] in *. rewrite Hprep in *.
    rewrite Hm1 in Hm. inversion Hm; subst m.
    rewrite Hh1 in Hh. inversion Hh; subst h.
    eexists (set_state 0%nat s1 w), w2, _. split; [exact Hrun1|].
    split; [exact Hrun2|]. split; [exact Hheap|]. split; [exact Hstate|].
    cbn [state_after st_exp_avg st_hessian]. rewrite Hm1, Hh1. split; [|reflexivity].
    cbn [option_map]. f_equal. apply vec1_data; try reflexivity.
    apply singleton_lookup_eq.
    + by rewrite momentum_length.
    + apply (momentum_lookup _ _ (vec [0]) (vec [gj]) 0); reflexivity.
Qed.

(** ** [SophiaG_RMSD] *)

Lemma rmsd_kernel_value :
  param_after single_tensor_sophiag_rmsd hyper_rmsd (BsNum 5120) (vec [1])
    (vec [1]) (vec [0]) (vec [0.01])
  = vec [0.99999 - 1e-4 * (0.05 / (0.04 * 5120 * 0.01 + 1e-15))].
Proof.
  unfold param_after.
  cbn [lr weight_decay betas rho maximize hyper_rmsd fst snd].
  assert (Hd : decayed 1e-4 0.1 (vec [1]) = vec [0.99999]) by (vec1; lra).
  assert (Hm : update_momentum single_tensor_sophiag_rmsd 0.99 false (vec [0]) (vec [1])
               = vec [0.05]) by (vec1; lra).
  rewrite Hd, Hm. unfold step_size_neg_of, clamp_bound.
  rewrite rms_vec1, py_max_Rmax, Rmax_right by lra.
  vec1. rewrite sgn_pos, Rabs_pos_eq, Rmin_left;
    first [lra | apply div_le; lra].
Qed.

Lemma rms_kernel_value :
  param_after (kernel_of RMSD) hyper_rmsd (BsNum 5120) (vec [1])
    (vec [1]) (vec [0]) (vec [0.01])
  = vec [0.99999 - 1e-4 * (0.01 / (0.04 * 5120 * 0.01 + 1e-15))].
Proof.
  rewrite param_after_vec1.
  cbn [lr weight_decay betas rho maximize hyper_rmsd fst snd coefficient
         upper_bound bs_value].
  assert (Hx : 1 * (1 - 1e-4 * 0.1) = 0.99999) by lra.
  assert (Hm : momentum_entry 0.99 false 0 1 = 0.01)
    by (unfold momentum_entry; lra).
  rewrite Hx, Hm, rms_vec1, Rmax_right by lra.
  rewrite ratio_entry_free, sgn_pos, Rabs_pos_eq by (rewrite ?Rabs_pos_eq; lra).
  apply vec1_eq. lra.
Qed.

(** C2, on the code. [SophiaG_RMSD] under its defaults, parameter [[1.0]],
    gradient [[1.0]], one [update_hessian] and one [step] with [bs=5120]:
    the momentum buffer holds the slow average 0.01 and the hessian 0.01,
    and the parameter becomes [0.99999 - 1e-4 * 0.01 / (2.048 + 1e-15)],
    the value of the ratio and sign of the slow average. The kernel
    [_single_tensor_sophiag_rmsd], which forms the fast average
    [0.95 * 0 + 0.05 * 1], gives
    [0.99999 - 1e-4 * 0.05 / (2.048 + 1e-15)] on the same buffers; [step]
    does not produce that value. *)
Theorem rmsd_step_uses_slow_momentum addcmul_sparse :
  exists w1 w2 s,
    update_hessian_of addcmul_sparse RMSD opt_rmsd store_rmsd = (Ok tt, w1)
    /\ step_of RMSD opt_rmsd 5120 w1 = (Ok tt, w2)
    /\ state w2 !! 0%nat = Some s
    /\ st_exp_avg s = Some (vec [0.01])
    /\ st_hessian s = Some (vec [0.01])
    /\ heap w2 !! 0%nat
       = Some {| p_data :=
                   vec [0.99999 - 1e-4 * (0.01 / (0.04 * 5120 * 0.01 + 1e-15))];
                 p_grad := Some (vec [1]) |}
    /\ param_after single_tensor_sophiag_rmsd hyper_rmsd (BsNum 5120) (vec [1])
         (vec [1]) (vec [0]) (vec [0.01])
       = vec [0.99999 - 1e-4 * (0.05 / (0.04 * 5120 * 0.01 + 1e-15))]
    /\ 0.99999 - 1e-4 * (0.01 / (0.04 * 5120 * 0.01 + 1e-15))
       <> 0.99999 - 1e-4 * (0.05 / (0.04 * 5120 * 0.01 + 1e-15)).
Proof.
  destruct (hessian_then_step_vec1 addcmul_sparse RMSD hyper_rmsd 5120 1 1 eq_refl)
    as (w1 & w2 & s & Hrun1 & Hrun2 & Hheap & Hs & Hm & Hh).
  cbn [lr weight_decay betas rho maximize hyper_rmsd fst snd] in Hheap, Hm, Hh.
  assert (Hh1 : 0 * 0.99 + (1 - 0.99) * (1 * 1) = 0.01) by lra.
  assert (Hm1 : momentum_entry 0.99 false 0 1 = 0.01)
    by (unfold momentum_entry; lra).
  rewrite Hh1 in Hheap, Hh. rewrite Hm1 in Hm.
  exists w1, w2, s. split; [exact Hrun1|]. split; [exact Hrun2|].
  split; [exact Hs|]. split; [exact Hm|]. split; [exact Hh|]. split; [|split].
  - rewrite Hheap. do 2 f_equal. apply rms_kernel_value.
  - apply rmsd_kernel_value.
  - set (d := 0.04 * 5120 * 0.01 + 1e-15).
    assert (Hd : 0 < d) by (unfold d; lra).
    assert (Hinv : 0 < / d) by (apply Rinv_0_lt_compat, Hd).
    unfold Rdiv. nra.
Qed.

(** C3. [SophiaG_RMSD.step] is [SophiaG_RMS.step]: on every optimizer,
    batch size and store the two return the same outcome and the same
    store. The dispatch function [sophiag_rmsd] sets [func] to
    [_single_tensor_sophiag_rms], and the [step] of no class calls
    [_single_tensor_sophiag_rmsd]. *)
Theorem rmsd_step_is_rms_step self bs w :
  SophiaG_RMSD_step self bs w = SophiaG_RMS_step self bs w
  /\ sophiag_rmsd = sophiag_rms
  /\ sophiag_rmsd_func = single_tensor_sophiag_rms
  /\ forall v, kernel_of v <> single_tensor_sophiag_rmsd.
Proof.
  split; [reflexivity|]. split; [reflexivity|]. split; [reflexivity|].
  intros v. destruct v; discriminate.
Qed.

(** ** Sparse gradients *)

Lemma collect_sparse v cap acc p w po g :
  heap w !! p = Some po -> p_grad po = Some g -> is_sparse g = true ->
  exists msg, collect_of v cap acc p w = (Raise (RuntimeError msg), w).
Proof.
  intros Hpo Hg Hs. destruct acc as [[a1 a2] bs].
  destruct v; cbv beta iota delta [collect_of SophiaG_collect
    SophiaG_RMS_collect SophiaG_OG_collect SophiaG_RMSD_collect];
    rewrite Hpo, Hg, Hs; eauto.
Qed.

(** ** Invariants along a sequence of calls *)

Lemma preserves_ret {A} I (a : A) : preserves I (ret a).
Proof. intros w H. exact H. Qed.

Lemma preserves_raise {A} I e : preserves I (raise (A := A) e).
Proof. intros w H. exact H. Qed.

Lemma preserves_lift {A} I (o : outcome A) : preserves I (lift o).
Proof. intros w H. exact H. Qed.

Lemma preserves_lookup_param I p : preserves I (lookup_param p).
Proof.
  intros w H. unfold lookup_param. destruct (heap w !! p); exact H.
Qed.

Lemma preserves_state_item I key proj p : preserves I (state_item key proj p).
Proof.
  intros w H. unfold state_item. destruct (proj (get_state p w)); exact H.
Qed.

Lemma preserves_modify I f :
  (forall w, I w -> I (f w)) -> preserves I (modify f).
Proof. intros Hf w H. apply Hf, H. Qed.

Lemma preserves_bind {A B} I (m : M A) (k : A -> M B) :
  preserves I m -> (forall a, preserves I (k a)) -> preserves I (bind m k).
Proof.
  intros Hm Hk w H. unfold bind. specialize (Hm w H).
  destruct (m w) as [[a|e] w1]; simpl in *; [apply Hk, Hm|exact Hm].
Qed.

Lemma preserves_for_each {X} I (xs : list X) body :
  (forall x, preserves I (body x)) -> preserves I (for_each xs body).
Proof.
  intros Hb. induction xs as [|x xs IH]; simpl.
  - apply preserves_ret.
  - apply preserves_bind; auto.
Qed.

Lemma preserves_for_enumerate {X} I (xs : list X) body : forall i,
  (forall i x, preserves I (body i x)) -> preserves I (for_enumerate i xs body).
Proof.
  induction xs as [|x xs IH]; intros i Hb; simpl.
  - apply preserves_ret.
  - apply preserves_bind; auto.
Qed.

Lemma preserves_for_fold {X A} I (xs : list X) body : forall a : A,
  (forall a x, preserves I (body a x)) -> preserves I (for_fold xs a body).
Proof.
  induction xs as [|x xs IH]; intros a Hb; simpl.
  - apply preserves_ret.
  - apply preserves_bind; auto.
Qed.

Lemma hessian_nonneg_get w :
  hessian_nonneg w
  <-> forall p h, st_hessian (get_state p w) = Some h ->
        Forall (fun x => 0 <= x) (data h).
Proof.
  unfold hessian_nonneg, get_state. split.
  - intros H p h. destruct (state w !! p) as [s|] eqn:E; simpl.
    + apply (H p s h E).
    + discriminate.
  - intros H p s h Hs Hh. apply (H p h). by rewrite Hs.
Qed.

Lemma same_hessians_keep w w' :
  same_hessians_and_grads w w' -> hessian_inv w -> hessian_inv w'.
Proof.
  intros [Hg Hh] [H1 H2]. split.
  - apply hessian_nonneg_get. intros p h. rewrite Hh.
    apply hessian_nonneg_get, H1.
  - intros p g. rewrite Hg. apply H2.
Qed.

Lemma set_state_same_hessian p s w :
  st_hessian s = st_hessian (get_state p w) ->
  same_hessians_and_grads w (set_state p s w).
Proof.
  intros H. split; [reflexivity|]. intros q.
  destruct (decide (p = q)) as [->|Hne].
  - by rewrite get_state_set_eq.
  - by rewrite get_state_set_ne.
Qed.

Lemma store_param_same_hessian p t w :
  same_hessians_and_grads w (snd (store_param p t w)).
Proof.
  split; [|reflexivity]. intros q. unfold grad_of, store_param, modify; simpl.
  destruct (decide (p = q)) as [->|Hne].
  - rewrite lookup_alter_eq. destruct (heap w !! q); reflexivity.
  - by rewrite lookup_alter_ne.
Qed.

Lemma I_store_param p t : preserves hessian_inv (store_param p t).
Proof. intros w. apply same_hessians_keep, store_param_same_hessian. Qed.

Lemma I_store_step p t : preserves hessian_inv (store_step p t).
Proof.
  intros w. apply same_hessians_keep. unfold store_step, modify; simpl.
  apply set_state_same_hessian. reflexivity.
Qed.

Lemma I_store_exp_avg p t : preserves hessian_inv (store_exp_avg p t).
Proof.
  intros w. apply same_hessians_keep. unfold store_exp_avg, modify; simpl.
  apply set_state_same_hessian. reflexivity.
Qed.

Lemma I_store_rms p t : preserves hessian_inv (store_rms p t).
Proof.
  intros w. apply same_hessians_keep. unfold store_rms, modify; simpl.
  apply set_state_same_hessian. reflexivity.
Qed.

Ltac pres_step lem :=
  match goal with
  | |- preserves _ (bind _ _) => apply preserves_bind; [|intros ?]
  | |- preserves _ (ret _) => apply preserves_ret
  | |- preserves _ (raise _) => apply preserves_raise
  | |- preserves _ (lift _) => apply preserves_lift
  | |- preserves _ (lookup_param _) => apply preserves_lookup_param
  | |- preserves _ (state_item _ _ _) => apply preserves_state_item
  | |- preserves _ (if ?b then _ else _) => destruct b
  | |- preserves _ (match ?x with _ => _ end) => destruct x
  | |- preserves _ _ => lem
  end.

Ltac hessian_pres :=
  repeat pres_step
    ltac:(first [ apply I_store_param | apply I_store_step
                | apply I_store_exp_avg | apply I_store_rms ]).

Lemma I_iter k grads bs beta1 beta2 rho lr weight_decay maximize capturable i p :
  preserves hessian_inv
    (iter_of k grads bs beta1 beta2 rho lr weight_decay maximize capturable i p).
Proof.
  destruct k;
    cbv beta iota zeta delta [iter_of _single_tensor_sophiag_iter
      _single_tensor_sophiag_rms_iter _single_tensor_sophiag_og_iter
      _single_tensor_sophiag_rmsd_iter];
    hessian_pres.
Qed.

Lemma I_call k ps grads bs beta1 beta2 rho lr weight_decay maximize capturable :
  preserves hessian_inv
    (call k ps grads bs beta1 beta2 rho lr weight_decay maximize capturable).
Proof.
  rewrite call_iter. apply preserves_for_enumerate. intros i x. apply I_iter.
Qed.

Lemma Forall_repeat_0 n : Forall (fun x => 0 <= x) (repeat 0 n).
Proof. induction n; simpl; constructor; auto. lra. Qed.

Lemma prepared_hessian v cap t s h :
  st_hessian (backfill_hessian t (init_state_of v cap t s)) = Some h ->
  h = zeros_like t \/ st_hessian s = Some h.
Proof.
  unfold backfill_hessian.
  destruct (state_is_empty s) eqn:E.
  - destruct v; simpl; unfold init_state, init_state_rms; rewrite E; simpl;
      intros [= <-]; auto.
  - rewrite init_state_of_nonempty by done.
    destruct (st_hessian s) eqn:Eh; simpl.
    + rewrite Eh. auto.
    + intros [= <-]. auto.
Qed.

Lemma I_prepare v cap t p w :
  hessian_inv w ->
  hessian_inv (set_state p (backfill_hessian t
                              (init_state_of v cap t (get_state p w))) w).
Proof.
  intros [Hn Hg]. split; [|exact Hg].
  apply hessian_nonneg_get. intros q h.
  destruct (decide (p = q)) as [->|Hne].
  - rewrite get_state_set_eq. intros Hh.
    apply prepared_hessian in Hh as [->|Hh].
    + apply Forall_repeat_0.
    + apply (proj1 (hessian_nonneg_get w) Hn q h Hh).
  - rewrite get_state_set_ne by done. apply (proj1 (hessian_nonneg_get w) Hn).
Qed.

Lemma I_collect v cap acc p : preserves hessian_inv (collect_of v cap acc p).
Proof.
  intros w HI. destruct acc as [[a1 a2] bs].
  destruct v;
    cbv beta iota zeta delta [collect_of SophiaG_collect SophiaG_RMS_collect
      SophiaG_OG_collect SophiaG_RMSD_collect];
    (destruct (heap w !! p) as [po|]; [|exact HI]);
    (destruct (p_grad po) as [g|]; [|exact HI]);
    (destruct (is_sparse g); [exact HI|]);
    match goal with
    | |- hessian_inv (snd (?m (set_state p ?s w))) =>
        assert (Hm : preserves hessian_inv m) by hessian_pres;
        apply Hm
    end.
  - apply (I_prepare Base cap), HI.
  - apply (I_prepare RMS cap), HI.
  - apply (I_prepare OG cap), HI.
  - apply (I_prepare RMSD cap), HI.
Qed.

Lemma I_step v self bs : preserves hessian_inv (step_of v self bs).
Proof.
  rewrite step_of_groups.
  apply preserves_bind; [|intros; apply preserves_ret].
  apply preserves_for_fold. intros bs' group.
  destruct (betas (hyper group)) as [beta1 beta2].
  apply preserves_bind.
  - apply preserves_for_fold. intros acc p. apply I_collect.
  - intros [[pwg grads] bs2]. apply preserves_bind.
    + apply I_call.
    + intros _. apply preserves_ret.
Qed.

Lemma Forall_zip_inplace_nonneg c xs ys :
  0 <= c -> Forall (fun x => 0 <= x) xs -> Forall (fun x => 0 <= x) ys ->
  Forall (fun x => 0 <= x) (zip_inplace (fun x y => x + c * y) xs ys).
Proof.
  intros Hc Hxs. revert ys. induction Hxs as [|x xs Hx Hxs IH]; intros ys Hys.
  - constructor.
  - destruct Hys as [|y ys Hy Hys]; simpl.
    + constructor; auto.
    + constructor; [nra|auto].
Qed.

Lemma Forall_squares xs : Forall (fun x => 0 <= x) (zip_with Rmult xs xs).
Proof. induction xs as [|x xs IH]; simpl; constructor; [nra|auto]. Qed.

Lemma Forall_scale c xs :
  0 <= c -> Forall (fun x => 0 <= x) xs ->
  Forall (fun x => 0 <= x) (map (fun x => x * c) xs).
Proof.
  intros Hc Hxs. induction Hxs; simpl; constructor; [nra|auto].
Qed.

Lemma ema_hessian_nonneg beta2 h g :
  0 <= beta2 <= 1 -> is_complex g = false ->
  Forall (fun x => 0 <= x) (data h) ->
  Forall (fun x => 0 <= x) (data (addcmul_ (mul_ h beta2) g g (1 - beta2))).
Proof.
  intros Hb Hg Hh. unfold addcmul_, mul_, mul_data. rewrite Hg.
  cbn [data with_data].
  apply Forall_zip_inplace_nonneg; [lra| |apply Forall_squares].
  apply Forall_scale; [lra|exact Hh].
Qed.

Lemma I_set_hessian p d w h :
  st_hessian (get_state p w) = Some h ->
  Forall (fun x => 0 <= x) d ->
  hessian_inv w ->
  hessian_inv (set_state p (set_hessian (get_state p w)
                              (write d (st_hessian (get_state p w)))) w).
Proof.
  intros Hh Hd [Hn Hg]. split; [|exact Hg].
  apply hessian_nonneg_get. intros q h'.
  destruct (decide (p = q)) as [->|Hne].
  - rewrite get_state_set_eq, Hh. simpl. intros [= <-]. exact Hd.
  - rewrite get_state_set_ne by done. apply (proj1 (hessian_nonneg_get w) Hn).
Qed.

Section HessianEma.

Variable addcmul_sparse : Tensor -> Tensor -> Tensor -> R -> outcome Tensor.
Hypothesis Hsound : sparse_sound addcmul_sparse.

Lemma I_hessian_ema p g beta2 :
  0 <= beta2 <= 1 -> is_complex g = false ->
  preserves hessian_inv (hessian_ema addcmul_sparse p g beta2).
Proof.
  intros Hb Hg w HI. unfold hessian_ema, bind, state_item.
  destruct (st_hessian (get_state p w)) as [h|] eqn:Hh; [|exact HI].
  assert (Hh0 : Forall (fun x => 0 <= x) (data h)).
  { destruct HI as [Hn _]. apply (proj1 (hessian_nonneg_get w) Hn p h Hh). }
  assert (HI1 : hessian_inv (snd (store_hessian p (mul_ h beta2) w))).
  { unfold store_hessian, modify. simpl. apply (I_set_hessian p _ w h Hh); auto.
    apply Forall_scale; [lra|exact Hh0]. }
  unfold store_hessian at 1, modify at 1. cbv beta iota.
  set (w1 := set_state p _ w) in *. simpl in HI1. fold w1 in HI1.
  assert (Hh1 : st_hessian (get_state p w1) = Some (mul_ h beta2)).
  { unfold w1. rewrite get_state_set_eq, Hh. reflexivity. }
  assert (Hfin : hessian_inv
            (snd (store_hessian p (addcmul_ (mul_ h beta2) g g (1 - beta2)) w1))).
  { unfold store_hessian, modify. simpl.
    apply (I_set_hessian p _ w1 _ Hh1); auto.
    by apply ema_hessian_nonneg. }
  destruct (is_sparse g).
  - unfold lift. destruct (addcmul_sparse _ _ _ _) as [h2|e] eqn:E.
    + apply Hsound in E. subst h2. exact Hfin.
    + exact HI1.
  - exact Hfin.
Qed.

Lemma I_update_hessian_param v cap beta2 p :
  0 <= beta2 <= 1 ->
  preserves hessian_inv
    (update_hessian_param addcmul_sparse (init_state_of v cap) beta2 p).
Proof.
  intros Hb w HI. unfold update_hessian_param.
  destruct (heap w !! p) as [po|] eqn:Hpo; [|exact HI].
  destruct (p_grad po) as [g|] eqn:Hg; [|exact HI].
  apply I_hessian_ema; auto.
  - destruct HI as [_ Hreal]. apply (Hreal p). unfold grad_of. by rewrite Hpo.
  - apply I_prepare, HI.
Qed.

Lemma I_update_hessian v self :
  valid_beta2 self ->
  preserves hessian_inv (update_hessian_of addcmul_sparse v self).
Proof.
  intros Hvalid. rewrite update_hessian_of_groups.
  assert (Hgen : forall groups,
            (forall group, group ∈ groups -> 0 <= snd (betas (hyper group)) < 1) ->
            preserves hessian_inv
              (for_each groups (fun group =>
                 let '(beta1, beta2) := betas (hyper group) in
                 for_each (params group)
                   (update_hessian_param addcmul_sparse
                      (init_state_of v (capturable (defaults self))) beta2)))).
  { induction groups as [|gr groups IH]; intros Hv; simpl.
    - apply preserves_ret.
    - apply preserves_bind.
      + specialize (Hv gr (list_elem_of_here _ _)).
        destruct (betas (hyper gr)) as [beta1 beta2]. simpl in Hv.
        apply preserves_for_each. intros p.
        apply I_update_hessian_param. lra.
      + intros _. apply IH. intros group Hg. apply Hv. by right. }
  apply Hgen, Hvalid.
Qed.

Lemma I_put_grad p og :
  (forall g, og = Some g -> is_complex g = false) ->
  preserves hessian_inv (fun w => (Ok tt, put_grad p og w)).
Proof.
  intros Hog w [Hn Hg]. split; [exact Hn|]. simpl.
  intros q g. unfold grad_of, put_grad; simpl.
  destruct (decide (p = q)) as [->|Hne].
  - rewrite lookup_alter_eq. destruct (heap w !! q); simpl; [|discriminate].
    apply Hog.
  - rewrite lookup_alter_ne by done. apply (Hg q).
Qed.

Lemma I_run v self w0 w :
  valid_beta2 self -> hessian_inv w0 ->
  run (fun g => is_complex g = false) addcmul_sparse v self w0 w ->
  hessian_inv w.
Proof.
  intros Hvalid H0 Hrun. induction Hrun as [|w bs _ IH|w _ IH|w p og _ IH Hog].
  - exact H0.
  - by apply I_step.
  - by apply I_update_hessian.
  - by apply (I_put_grad p og Hog).
Qed.

End HessianEma.

(** C10, where the code meets it: on real-valued gradients. Start from a
    store without optimizer state whose gradients are real-valued, with
    [beta2] in [0, 1) in every group. After any sequence of [step] and
    [update_hessian] calls of a class, and of assignments of real-valued
    gradients in between, every entry of every hessian buffer is
    nonnegative; calls may raise, in capturable mode or on a sparse
    gradient, and the sequence may go on. *)
Theorem hessian_stays_nonnegative addcmul_sparse v self w0 w :
  sparse_sound addcmul_sparse ->
  valid_beta2 self ->
  state w0 = ∅ -> real_grads w0 ->
  run (fun g => is_complex g = false) addcmul_sparse v self w0 w ->
  forall p s h, state w !! p = Some s -> st_hessian s = Some h ->
    Forall (fun x => 0 <= x) (data h).
Proof.
  intros Hsound Hvalid Hempty Hreal Hrun.
  assert (H0 : hessian_inv w0).
  { split; [|exact Hreal]. intros p s h. rewrite Hempty, lookup_empty.
    discriminate. }
  destruct (I_run addcmul_sparse Hsound v self w0 w Hvalid H0 Hrun) as [Hn _].
  exact Hn.
Qed.

Lemma sparse_unsupported_sound : sparse_sound sparse_unsupported.
Proof. intros h t1 t2 c r H. discriminate. Qed.

Lemma valid_beta2_single ps hy :
  0 <= snd (betas hy) < 1 -> valid_beta2 (one_group ps hy).
Proof.
  intros H group Hg. simpl in Hg. apply list_elem_of_singleton in Hg.
  by subst group.
Qed.

Lemma real_grads_singleton p po st :
  (forall g, p_grad po = Some g -> is_complex g = false) ->
  real_grads {| heap := {[ p := po ]}; state := st |}.
Proof.
  intros H q g. unfold grad_of; simpl.
  destruct (decide (q = p)) as [->|Hne].
  - rewrite lookup_singleton_eq. apply H.
  - rewrite lookup_singleton_ne by done. discriminate.
Qed.

Lemma hessian_stays_nonnegative_witness :
  exists w s h,
    state w !! 0%nat = Some s /\ st_hessian s = Some h
    /\ Forall (fun x => 0 <= x) (data h).
Proof.
  pose proof (update_hessian_single sparse_unsupported Base hyper0 0%nat param0
                (vec [0.1]) store0 (lookup_singleton_eq _ _) eq_refl eq_refl)
    as Hrun.
  set (w := snd (update_hessian_of sparse_unsupported Base opt0 store0)).
  set (s := hessian_after (init_state_of Base false) (vec [1]) (vec [0.1]) 0.99
              (get_state 0%nat store0)).
  assert (Hw : state w !! 0%nat = Some s).
  { unfold w, opt0. rewrite Hrun. apply lookup_insert_eq. }
  exists w, s, (ema_hessian 0.99 (vec [0]) (vec [0.1])).
  split; [exact Hw|].
  assert (Hh : st_hessian s = Some (ema_hessian 0.99 (vec [0]) (vec [0.1])))
    by reflexivity.
  split; [exact Hh|].
  apply (hessian_stays_nonnegative sparse_unsupported Base opt0 store0 w
           sparse_unsupported_sound) with (p := 0%nat) (s := s).
  - apply valid_beta2_single. simpl. lra.
  - reflexivity.
  - apply real_grads_singleton. intros g [= <-]. reflexivity.
  - apply run_update_hessian, run_start.
  - exact Hw.
  - exact Hh.
Defined.

(** C10 fails in the code on a complex parameter. [update_hessian] hands
    the complex gradient to [addcmul_] as it is, where the kernels of [step]
    go through [torch.view_as_real]: for the parameter [0 + 0i] with the
    gradient [0 + 1i], one [update_hessian] of [SophiaG] under its defaults
    stores [0.01 * (i * i)], whose real part is negative. *)
Lemma hessian_negative_on_complex :
  exists w' s h x,
    update_hessian_of sparse_unsupported Base opt0 store_complex = (Ok tt, w')
    /\ state w' !! 0%nat = Some s
    /\ st_hessian s = Some h
    /\ data h !! 0%nat = Some x
    /\ x < 0.
Proof.
  eexists _, _, _, _. split.
  - unfold opt0.
    apply (update_hessian_single sparse_unsupported Base hyper0 0%nat
             {| p_data := complex_vec [0; 0];
                p_grad := Some (complex_vec [0; 1]) |}
             (complex_vec [0; 1]) store_complex);
      [apply lookup_singleton_eq|reflexivity|reflexivity].
  - split; [apply lookup_insert_eq|]. split; [reflexivity|].
    split; [reflexivity|]. cbn [betas hyper0 snd]. lra.
Qed.

(** ** The layout of the state buffers *)

Lemma same_layout_with_data a b d :
  same_layout a b -> length d = length (data a) -> same_layout (with_data a d) b.
Proof.
  intros (H1 & H2 & H3) Hd. repeat split; simpl; congruence.
Qed.

Lemma same_layout_target a b d :
  same_layout a b -> length d = length (data b) -> same_layout a (with_data b d).
Proof.
  intros (H1 & H2 & H3) Hd. repeat split; simpl; congruence.
Qed.

Section Cell.

Variables (p n : nat).

Lemma cell_len_param w po :
  cell_inv p n w -> heap w !! p = Some po -> length (data (p_data po)) = n.
Proof. intros [_ (po' & Hpo & Hn)] H. congruence. Qed.

Lemma cell_len_exp_avg w m :
  cell_inv p n w -> st_exp_avg (get_state p w) = Some m -> length (data m) = n.
Proof.
  intros [HK (po & Hpo & Hn)]. unfold get_state.
  destruct (state w !! p) as [s|] eqn:Hs; simpl; [|discriminate].
  intros Hm. destruct (HK p po s Hpo Hs) as (H1 & _).
  destruct (H1 m Hm) as (_ & _ & Hl). congruence.
Qed.

Lemma cell_len_hessian w h :
  cell_inv p n w -> st_hessian (get_state p w) = Some h -> length (data h) = n.
Proof.
  intros [HK (po & Hpo & Hn)]. unfold get_state.
  destruct (state w !! p) as [s|] eqn:Hs; simpl; [|discriminate].
  intros Hh. destruct (HK p po s Hpo Hs) as (_ & H2 & _).
  destruct (H2 h Hh) as (_ & _ & Hl). congruence.
Qed.

Lemma cell_len_rms w r :
  cell_inv p n w -> st_rms (get_state p w) = Some r -> length (data r) = 1%nat.
Proof.
  intros [HK (po & Hpo & Hn)]. unfold get_state.
  destruct (state w !! p) as [s|] eqn:Hs; simpl; [|discriminate].
  intros Hr. destruct (HK p po s Hpo Hs) as (_ & _ & H3).
  by destruct (H3 r Hr) as (_ & _ & Hl).
Qed.

(** Reads: the value read has the length that the invariant fixes. *)
Lemma cell_bind_lookup_param {B} (k : Tensor -> M B) :
  (forall param, length (data param) = n -> preserves (cell_inv p n) (k param)) ->
  preserves (cell_inv p n) (bind (lookup_param p) k).
Proof.
  intros Hk w HI. unfold bind, lookup_param.
  destruct (heap w !! p) as [po|] eqn:Hpo; [|exact HI].
  apply Hk; [|exact HI]. eauto using cell_len_param.
Qed.

Lemma cell_bind_exp_avg {B} key (k : Tensor -> M B) :
  (forall m, length (data m) = n -> preserves (cell_inv p n) (k m)) ->
  preserves (cell_inv p n) (bind (state_item key st_exp_avg p) k).
Proof.
  intros Hk w HI. unfold bind, state_item.
  destruct (st_exp_avg (get_state p w)) as [m|] eqn:Hm; [|exact HI].
  apply Hk; [|exact HI]. eauto using cell_len_exp_avg.
Qed.

Lemma cell_bind_hessian {B} key (k : Tensor -> M B) :
  (forall h, length (data h) = n -> preserves (cell_inv p n) (k h)) ->
  preserves (cell_inv p n) (bind (state_item key st_hessian p) k).
Proof.
  intros Hk w HI. unfold bind, state_item.
  destruct (st_hessian (get_state p w)) as [h|] eqn:Hh; [|exact HI].
  apply Hk; [|exact HI]. eauto using cell_len_hessian.
Qed.

Lemma cell_bind_rms {B} key (k : Tensor -> M B) :
  (forall r, length (data r) = 1%nat -> preserves (cell_inv p n) (k r)) ->
  preserves (cell_inv p n) (bind (state_item key st_rms p) k).
Proof.
  intros Hk w HI. unfold bind, state_item.
  destruct (st_rms (get_state p w)) as [r|] eqn:Hr; [|exact HI].
  apply Hk; [|exact HI]. eauto using cell_len_rms.
Qed.

(** Writes: an in-place operation that keeps the number of entries keeps
    the invariant. *)
Lemma cell_set_state s w :
  cell_inv p n w ->
  (forall po, heap w !! p = Some po -> buffers_ok (p_data po) s) ->
  cell_inv p n (set_state p s w).
Proof.
  intros [HK Hp] Hs. split; [|exact Hp].
  intros q po s' Hpo. unfold set_state; simpl.
  destruct (decide (p = q)) as [->|Hne].
  - rewrite lookup_insert_eq. intros [= <-]. by apply Hs.
  - rewrite lookup_insert_ne by done. by apply HK.
Qed.

Lemma cell_buffers w po :
  cell_inv p n w -> heap w !! p = Some po ->
  buffers_ok (p_data po) (get_state p w).
Proof.
  intros [HK _] Hpo. unfold get_state.
  destruct (state w !! p) as [s|] eqn:Hs; simpl; [eauto|].
  repeat split; discriminate.
Qed.

Lemma cell_store_step t : preserves (cell_inv p n) (store_step p t).
Proof.
  intros w HI. unfold store_step, modify. simpl.
  apply cell_set_state; [exact HI|]. intros po Hpo.
  exact (cell_buffers w po HI Hpo).
Qed.

Lemma cell_store_exp_avg t :
  length (data t) = n -> preserves (cell_inv p n) (store_exp_avg p t).
Proof.
  intros Ht w HI. unfold store_exp_avg, modify. simpl.
  apply cell_set_state; [exact HI|]. intros po Hpo.
  destruct (cell_buffers w po HI Hpo) as (H1 & H2 & H3).
  split; [|split]; [|exact H2|exact H3]. simpl.
  destruct (st_exp_avg (get_state p w)) as [m|] eqn:Hm; simpl; [|discriminate].
  intros m' [= <-]. apply same_layout_with_data; [by apply H1|].
  rewrite Ht. symmetry. eauto using cell_len_exp_avg.
Qed.

Lemma cell_store_hessian t :
  length (data t) = n -> preserves (cell_inv p n) (store_hessian p t).
Proof.
  intros Ht w HI. unfold store_hessian, modify. simpl.
  apply cell_set_state; [exact HI|]. intros po Hpo.
  destruct (cell_buffers w po HI Hpo) as (H1 & H2 & H3).
  split; [exact H1|split]; [|exact H3]. simpl.
  destruct (st_hessian (get_state p w)) as [h|] eqn:Hh; simpl; [|discriminate].
  intros h' [= <-]. apply same_layout_with_data; [by apply H2|].
  rewrite Ht. symmetry. eauto using cell_len_hessian.
Qed.

Lemma cell_store_rms t :
  length (data t) = 1%nat -> preserves (cell_inv p n) (store_rms p t).
Proof.
  intros Ht w HI. unfold store_rms, modify. simpl.
  apply cell_set_state; [exact HI|]. intros po Hpo.
  destruct (cell_buffers w po HI Hpo) as (H1 & H2 & H3).
  split; [exact H1|split]; [exact H2|]. simpl.
  destruct (st_rms (get_state p w)) as [r|] eqn:Hr; simpl; [|discriminate].
  intros r' [= <-]. destruct (H3 r eq_refl) as (Hs & Hc & Hl).
  repeat split; auto.
Qed.

Lemma cell_store_param t :
  length (data t) = n -> preserves (cell_inv p n) (store_param p t).
Proof.
  intros Ht w [HK (po & Hpo & Hn)]. unfold store_param, modify. simpl. split.
  - intros q po' s. simpl. destruct (decide (p = q)) as [->|Hne].
    + rewrite lookup_alter_eq, Hpo. simpl. intros [= <-] Hs. simpl.
      destruct (HK q po s Hpo Hs) as (H1 & H2 & H3).
      split; [|split]; [| |exact H3].
      * intros m Hm. apply same_layout_target; [by apply H1|]. congruence.
      * intros h Hh. apply same_layout_target; [by apply H2|]. congruence.
    + rewrite lookup_alter_ne by done. apply HK.
  - eexists. simpl. rewrite lookup_alter_eq, Hpo. simpl. split; [reflexivity|].
    simpl. exact Ht.
Qed.

End Cell.

Lemma view_as_real_data t t' : view_as_real t = Ok t' -> data t' = data t.
Proof.
  unfold view_as_real. destruct (is_complex t); [|discriminate].
  by intros [= <-].
Qed.

Lemma real_views_data g m h param g' m' h' param' :
  real_views g m h param = Ok (g', m', h', param') ->
  data m' = data m /\ data h' = data h /\ data param' = data param.
Proof.
  unfold real_views. destruct (is_complex param).
  - destruct (view_as_real g) eqn:E1; [|discriminate].
    destruct (view_as_real m) eqn:E2; [|discriminate].
    destruct (view_as_real h) eqn:E3; [|discriminate].
    destruct (view_as_real param) eqn:E4; [|discriminate].
    intros [= <- <- <- <-]. repeat split; eauto using view_as_real_data.
  - intros [= <- <- <- <-]. auto.
Qed.

Lemma real_views_rms_data g m r h param g' m' r' h' param' :
  real_views_rms g m r h param = Ok (g', m', r', h', param') ->
  data m' = data m /\ data r' = data r /\ data h' = data h
  /\ data param' = data param.
Proof.
  unfold real_views_rms. destruct (is_complex param).
  - destruct (view_as_real g) eqn:E1; [|discriminate].
    destruct (view_as_real m) eqn:E2; [|discriminate].
    destruct (view_as_real r) eqn:E5; [|discriminate].
    destruct (view_as_real h) eqn:E3; [|discriminate].
    destruct (view_as_real param) eqn:E4; [|discriminate].
    intros [= <- <- <- <- <-]. repeat split; eauto using view_as_real_data.
  - intros [= <- <- <- <- <-]. auto.
Qed.

Lemma bind_views {B} I g m h param (k : _ -> M B) :
  (forall g' m' h' param',
     data m' = data m -> data h' = data h -> data param' = data param ->
     preserves I (k (g', m', h', param'))) ->
  preserves I (bind (lift (real_views g m h param)) k).
Proof.
  intros Hk w HI. unfold bind, lift.
  destruct (real_views g m h param) as [[[[g' m'] h'] param']|e] eqn:E;
    [|exact HI].
  apply real_views_data in E as (H1 & H2 & H3). by apply Hk.
Qed.

Lemma bind_views_rms {B} I g m r h param (k : _ -> M B) :
  (forall g' m' r' h' param',
     data m' = data m -> data r' = data r -> data h' = data h ->
     data param' = data param ->
     preserves I (k (g', m', r', h', param'))) ->
  preserves I (bind (lift (real_views_rms g m r h param)) k).
Proof.
  intros Hk w HI. unfold bind, lift.
  destruct (real_views_rms g m r h param) as [[[[[g' m'] r'] h'] param']|e] eqn:E;
    [|exact HI].
  apply real_views_rms_data in E as (H1 & H2 & H3 & H4). by apply Hk.
Qed.

Ltac len :=
  cbv beta iota zeta delta [mul_ add_ sub_ add_scalar_ addcmul_real addcmul_];
  cbn [data with_data];
  rewrite ?length_map, ?zip_inplace_length, ?length_map;
  congruence.

Ltac cell_step :=
  cbv beta iota zeta;
  match goal with
  | |- preserves _ (bind (lookup_param _) _) =>
      apply cell_bind_lookup_param; intros ? ?
  | |- preserves _ (bind (state_item _ st_exp_avg _) _) =>
      apply cell_bind_exp_avg; intros ? ?
  | |- preserves _ (bind (state_item _ st_hessian _) _) =>
      apply cell_bind_hessian; intros ? ?
  | |- preserves _ (bind (state_item _ st_rms _) _) =>
      apply cell_bind_rms; intros ? ?
  | |- preserves _ (bind (lift (real_views _ _ _ _)) _) =>
      apply bind_views; intros ? ? ? ? ? ? ?
  | |- preserves _ (bind (lift (real_views_rms _ _ _ _ _)) _) =>
      apply bind_views_rms; intros ? ? ? ? ? ? ? ? ?
  | |- preserves _ (bind _ _) => apply preserves_bind; [|intros ?]
  | |- preserves _ (ret _) => apply preserves_ret
  | |- preserves _ (raise _) => apply preserves_raise
  | |- preserves _ (lift _) => apply preserves_lift
  | |- preserves _ (state_item _ _ _) => apply preserves_state_item
  | |- preserves _ (if ?b then _ else _) => destruct b
  | |- preserves _ (store_step _ _) => apply cell_store_step
  | |- preserves _ (store_param _ _) => apply cell_store_param; len
  | |- preserves _ (store_exp_avg _ _) => apply cell_store_exp_avg; len
  | |- preserves _ (store_rms _ _) => apply cell_store_rms; len
  end.

Lemma cell_iter k grads bs beta1 beta2 rho lr weight_decay maximize capturable
    i p n :
  preserves (cell_inv p n)
    (iter_of k grads bs beta1 beta2 rho lr weight_decay maximize capturable i p).
Proof.
  destruct k;
    cbv beta iota zeta delta [iter_of _single_tensor_sophiag_iter
      _single_tensor_sophiag_rms_iter _single_tensor_sophiag_og_iter
      _single_tensor_sophiag_rmsd_iter];
    repeat cell_step.
Qed.

Lemma iter_no_param k grads bs beta1 beta2 rho lr weight_decay maximize
    capturable i p w :
  heap w !! p = None ->
  snd (iter_of k grads bs beta1 beta2 rho lr weight_decay maximize capturable
         i p w) = w.
Proof.
  intros H.
  destruct k;
    cbv beta iota zeta delta [iter_of _single_tensor_sophiag_iter
      _single_tensor_sophiag_rms_iter _single_tensor_sophiag_og_iter
      _single_tensor_sophiag_rmsd_iter];
    unfold bind at 1; unfold lookup_param; rewrite H; reflexivity.
Qed.

Lemma K_iter k grads bs beta1 beta2 rho lr weight_decay maximize capturable i p :
  preserves layout_inv
    (iter_of k grads bs beta1 beta2 rho lr weight_decay maximize capturable i p).
Proof.
  intros w HK. destruct (heap w !! p) as [po|] eqn:Hpo.
  - apply (cell_iter k grads bs beta1 beta2 rho lr weight_decay maximize
             capturable i p (length (data (p_data po))) w).
    split; [exact HK|]. eauto.
  - by rewrite iter_no_param.
Qed.

Lemma K_call k ps grads bs beta1 beta2 rho lr weight_decay maximize capturable :
  preserves layout_inv
    (call k ps grads bs beta1 beta2 rho lr weight_decay maximize capturable).
Proof.
  rewrite call_iter. apply preserves_for_enumerate. intros i x. apply K_iter.
Qed.

Lemma zeros_like_layout t : same_layout (zeros_like t) t.
Proof. repeat split. simpl. apply repeat_length. Qed.

Lemma buffers_ok_empty t : buffers_ok t empty_state.
Proof. repeat split; discriminate. Qed.

Lemma prepared_buffers_ok v cap t s :
  buffers_ok t s ->
  buffers_ok t (backfill_hessian t (init_state_of v cap t s)).
Proof.
  intros Hs.
  assert (Hinit : buffers_ok t (init_state_of v cap t s)).
  { destruct (state_is_empty s) eqn:E.
    - destruct v; simpl; unfold init_state, init_state_rms; rewrite E;
        (split; [|split]); simpl; intros x [= <-];
        auto using zeros_like_layout.
    - by rewrite init_state_of_nonempty. }
  unfold backfill_hessian.
  destruct (st_hessian (init_state_of v cap t s)) eqn:Eh; [exact Hinit|].
  destruct Hinit as (H1 & H2 & H3). split; [exact H1|split]; [|exact H3].
  simpl. intros h [= <-]. apply zeros_like_layout.
Qed.

Lemma get_state_buffers_ok w p po :
  layout_inv w -> heap w !! p = Some po ->
  buffers_ok (p_data po) (get_state p w).
Proof.
  intros HK Hpo. unfold get_state.
  destruct (state w !! p) as [s|] eqn:Hs; simpl; [eauto|].
  apply buffers_ok_empty.
Qed.

Lemma K_prepare v cap p po w :
  layout_inv w -> heap w !! p = Some po ->
  layout_inv (set_state p (backfill_hessian (p_data po)
                             (init_state_of v cap (p_data po) (get_state p w))) w).
Proof.
  intros HK Hpo q po' s'. unfold set_state; simpl.
  destruct (decide (p = q)) as [->|Hne].
  - rewrite lookup_insert_eq. intros Hpo' [= <-].
    assert (po' = po) by congruence. subst po'.
    apply prepared_buffers_ok. by apply get_state_buffers_ok.
  - rewrite lookup_insert_ne by done. apply HK.
Qed.

Ltac layout_pres :=
  repeat pres_step ltac:(fail).

Lemma K_collect v cap acc p : preserves layout_inv (collect_of v cap acc p).
Proof.
  intros w HK. destruct acc as [[a1 a2] bs].
  destruct v;
    cbv beta iota zeta delta [collect_of SophiaG_collect SophiaG_RMS_collect
      SophiaG_OG_collect SophiaG_RMSD_collect];
    (destruct (heap w !! p) as [po|] eqn:Hpo; [|exact HK]);
    (destruct (p_grad po) as [g|]; [|exact HK]);
    (destruct (is_sparse g); [exact HK|]);
    match goal with
    | |- layout_inv (snd (?m (set_state p ?s w))) =>
        assert (Hm : preserves layout_inv m) by layout_pres;
        apply Hm
    end.
  - apply (K_prepare Base cap); assumption.
  - apply (K_prepare RMS cap); assumption.
  - apply (K_prepare OG cap); assumption.
  - apply (K_prepare RMSD cap); assumption.
Qed.

Lemma K_step v self bs : preserves layout_inv (step_of v self bs).
Proof.
  rewrite step_of_groups.
  apply preserves_bind; [|intros; apply preserves_ret].
  apply preserves_for_fold. intros bs' group.
  destruct (betas (hyper group)) as [beta1 beta2].
  apply preserves_bind.
  - apply preserves_for_fold. intros acc p. apply K_collect.
  - intros [[pwg grads] bs2]. apply preserves_bind.
    + apply K_call.
    + intros _. apply preserves_ret.
Qed.

Section LayoutUpdateHessian.

Variable addcmul_sparse : Tensor -> Tensor -> Tensor -> R -> outcome Tensor.
Hypothesis Hsound : sparse_sound addcmul_sparse.

Lemma bind_sparse {B} I h t1 t2 c (k : Tensor -> M B) :
  (forall r, r = addcmul_ h t1 t2 c -> preserves I (k r)) ->
  preserves I (bind (lift (addcmul_sparse h t1 t2 c)) k).
Proof.
  intros Hk w HI. unfold bind, lift.
  destruct (addcmul_sparse h t1 t2 c) as [r|e] eqn:E; [|exact HI].
  apply Hk; [|exact HI]. by apply Hsound.
Qed.

Lemma cell_hessian_ema p n g beta2 :
  preserves (cell_inv p n) (hessian_ema addcmul_sparse p g beta2).
Proof.
  unfold hessian_ema. apply cell_bind_hessian. intros h Hh.
  cbv zeta. apply preserves_bind.
  - apply cell_store_hessian. len.
  - intros _. destruct (is_sparse g).
    + apply bind_sparse. intros r ->. apply cell_store_hessian. len.
    + apply cell_store_hessian. len.
Qed.

Lemma K_update_hessian_param v cap beta2 p :
  preserves layout_inv
    (update_hessian_param addcmul_sparse (init_state_of v cap) beta2 p).
Proof.
  intros w HK. unfold update_hessian_param.
  destruct (heap w !! p) as [po|] eqn:Hpo; [|exact HK].
  destruct (p_grad po) as [g|] eqn:Hg; [|exact HK].
  apply (cell_hessian_ema p (length (data (p_data po)))).
  split.
  - by apply K_prepare.
  - exists po. split; [exact Hpo|reflexivity].
Qed.

Lemma K_update_hessian v self :
  preserves layout_inv (update_hessian_of addcmul_sparse v self).
Proof.
  rewrite update_hessian_of_groups.
  apply preserves_for_each. intros group.
  destruct (betas (hyper group)) as [beta1 beta2].
  apply preserves_for_each. intros p. apply K_update_hessian_param.
Qed.

Lemma K_put_grad p og w : layout_inv w -> layout_inv (put_grad p og w).
Proof.
  intros HK q po s. unfold put_grad; simpl.
  destruct (decide (p = q)) as [->|Hne].
  - rewrite lookup_alter_eq.
    destruct (heap w !! q) as [po0|] eqn:Hpo; simpl; [|discriminate].
    intros [= <-] Hs. simpl. by apply (HK q po0 s).
  - rewrite lookup_alter_ne by done. apply HK.
Qed.

Lemma K_run ok v self w0 w :
  layout_inv w0 -> run ok addcmul_sparse v self w0 w -> layout_inv w.
Proof.
  intros H0 Hrun. induction Hrun as [|w bs _ IH|w _ IH|w p og _ IH Hog].
  - exact H0.
  - by apply K_step.
  - by apply K_update_hessian.
  - by apply K_put_grad.
Qed.

End LayoutUpdateHessian.

(** C8, as the code has it. At lazy state creation the momentum and the
    hessian buffer are zero-filled and have the shape, dtype and number of
    entries of the parameter; the rms buffer, where the class has one, is a
    zero-filled real tensor of shape [(1,)]. From a store without optimizer
    state, after any sequence of [step] and [update_hessian] calls of a
    class and of gradient assignments, the momentum and hessian buffers of
    a parameter still have its layout and the rms buffer still has shape
    [(1,)]. *)
Theorem state_buffers_layout addcmul_sparse v self w0 w p po s :
  sparse_sound addcmul_sparse ->
  state w0 = ∅ ->
  run (fun _ => True) addcmul_sparse v self w0 w ->
  heap w !! p = Some po -> state w !! p = Some s ->
  ((forall m, st_exp_avg s = Some m -> same_layout m (p_data po))
   /\ (forall h, st_hessian s = Some h -> same_layout h (p_data po))
   /\ (forall r, st_rms s = Some r ->
         shape r = [1%nat] /\ is_complex r = false /\ length (data r) = 1%nat))
  /\ forall cap,
       let s0 := init_state_of v cap (p_data po) empty_state in
       st_exp_avg s0 = Some (zeros_like (p_data po))
       /\ st_hessian s0 = Some (zeros_like (p_data po))
       /\ st_rms s0 = match v with
                      | Base => None
                      | RMS | OG | RMSD => Some (zeros_1 (p_data po))
                      end
       /\ data (zeros_like (p_data po)) = repeat 0 (length (data (p_data po)))
       /\ same_layout (zeros_like (p_data po)) (p_data po)
       /\ data (zeros_1 (p_data po)) = [0]
       /\ shape (zeros_1 (p_data po)) = [1%nat].
Proof.
  intros Hsound Hempty Hrun Hpo Hs. split.
  - assert (H0 : layout_inv w0).
    { intros q po' s'. rewrite Hempty, lookup_empty. discriminate. }
    exact (K_run addcmul_sparse Hsound _ v self w0 w H0 Hrun p po s Hpo Hs).
  - intros cap. destruct v; simpl; repeat split; apply repeat_length.
Qed.

Lemma state_buffers_layout_witness :
  exists w po s,
    heap w !! 0%nat = Some po /\ state w !! 0%nat = Some s
    /\ ((forall m, st_exp_avg s = Some m -> same_layout m (p_data po))
        /\ (forall h, st_hessian s = Some h -> same_layout h (p_data po))
        /\ (forall r, st_rms s = Some r ->
              shape r = [1%nat] /\ is_complex r = false
              /\ length (data r) = 1%nat))
    /\ forall cap,
         let s0 := init_state_of RMS cap (p_data po) empty_state in
         st_exp_avg s0 = Some (zeros_like (p_data po))
         /\ st_hessian s0 = Some (zeros_like (p_data po))
         /\ st_rms s0 = Some (zeros_1 (p_data po))
         /\ data (zeros_like (p_data po)) = repeat 0 (length (data (p_data po)))
         /\ same_layout (zeros_like (p_data po)) (p_data po)
         /\ data (zeros_1 (p_data po)) = [0]
         /\ shape (zeros_1 (p_data po)) = [1%nat].
Proof.
  destruct (hessian_then_step_vec1 sparse_unsupported RMS hyper0 5120 1 0.1 eq_refl)
    as (w1 & w2 & s & Hrun1 & Hrun2 & Hheap & Hs & _).
  eexists w2, _, s. split; [exact Hheap|]. split; [exact Hs|].
  apply (state_buffers_layout sparse_unsupported RMS
           (one_group [0%nat] hyper0) store0 w2 0%nat _ s).
  - exact sparse_unsupported_sound.
  - reflexivity.
  - assert (E2 : w2 = snd (step_of RMS (one_group [0%nat] hyper0) 5120 w1))
      by (by rewrite Hrun2).
    assert (E1 : w1 = snd (update_hessian_of sparse_unsupported RMS
                             (one_group [0%nat] hyper0) store0))
      by (unfold store0, param0; by rewrite Hrun1).
    rewrite E2, E1. apply run_step, run_update_hessian, run_start.
  - exact Hheap.
  - exact Hs.
Defined.

(** C8 as the specification words it fails for the rms buffer: for
    [SophiaG_RMS] on a parameter with two entries, the rms buffer has shape
    [(1,)] at creation and after [step], not the shape [(2,)] of the
    parameter. *)
Lemma rms_buffer_shape_claim_fails :
  exists w' po s r r0,
    step_of RMS opt_two 5120 store_two = (Ok tt, w')
    /\ heap w' !! 0%nat = Some po /\ state w' !! 0%nat = Some s
    /\ st_rms s = Some r
    /\ shape r <> shape (p_data po)
    /\ st_rms (init_state_rms (vec [1; 1]) empty_state) = Some r0
    /\ shape r0 <> shape (vec [1; 1]).
Proof.
  destruct (step_single RMS hyper0 5120 0%nat
              {| p_data := vec [1; 1]; p_grad := Some (vec [1; 1]) |}
              (vec [1; 1]) store_two)
    as (w' & m & h & Hrun & Hm & Hh & Hheap & Hstate).
  - reflexivity.
  - apply lookup_singleton_eq.
  - reflexivity.
  - apply dense_grads_singleton. intros g [= <-]. reflexivity.
  - apply real_params_singleton. reflexivity.
  - apply states_ok_empty.
  - assert (Hget : get_state 0%nat store_two = empty_state).
    { unfold get_state. simpl. by rewrite lookup_empty. }
    rewrite Hget in Hstate.
    eexists w', _, _, _, _. split; [exact Hrun|]. split; [exact Hheap|].
    split; [exact Hstate|]. split; [reflexivity|]. split; [discriminate|].
    split; [reflexivity|discriminate].
Qed.

(** ** [step] on a sparse gradient, in general *)

Section SparseStep.

Variables (p : nat) (w0 : Store) (g : Tensor).
Hypothesis Hgrad : grad_of w0 p = Some g.
Hypothesis Hsparse : is_sparse g = true.

Lemma U_set_state q s w :
  q <> p -> untouched p w0 w -> untouched p w0 (set_state q s w).
Proof.
  intros Hne (H1 & H2 & H3). repeat split; auto.
  unfold set_state; simpl. by rewrite lookup_insert_ne.
Qed.

Lemma U_store_param q t : q <> p -> preserves (untouched p w0) (store_param q t).
Proof.
  intros Hne w (H1 & H2 & H3). unfold store_param, modify, untouched, grad_of.
  simpl. rewrite lookup_alter_ne by done. auto.
Qed.

Lemma U_store_step q t : q <> p -> preserves (untouched p w0) (store_step q t).
Proof. intros Hne w H. by apply U_set_state. Qed.

Lemma U_store_exp_avg q t :
  q <> p -> preserves (untouched p w0) (store_exp_avg q t).
Proof. intros Hne w H. by apply U_set_state. Qed.

Lemma U_store_rms q t : q <> p -> preserves (untouched p w0) (store_rms q t).
Proof. intros Hne w H. by apply U_set_state. Qed.

Lemma U_iter k grads bs beta1 beta2 rho lr weight_decay maximize capturable i q :
  q <> p ->
  preserves (untouched p w0)
    (iter_of k grads bs beta1 beta2 rho lr weight_decay maximize capturable i q).
Proof.
  intros Hne.
  destruct k;
    cbv beta iota zeta delta [iter_of _single_tensor_sophiag_iter
      _single_tensor_sophiag_rms_iter _single_tensor_sophiag_og_iter
      _single_tensor_sophiag_rmsd_iter];
    repeat pres_step
      ltac:(first [ apply U_store_param | apply U_store_step
                  | apply U_store_exp_avg | apply U_store_rms ]; exact Hne).
Qed.

Lemma U_for_enumerate (body : nat -> nat -> M unit) qs : forall i,
  p ∉ qs ->
  (forall i q, q <> p -> preserves (untouched p w0) (body i q)) ->
  preserves (untouched p w0) (for_enumerate i qs body).
Proof.
  induction qs as [|q qs IH]; intros i Hnot Hb; simpl.
  - apply preserves_ret.
  - rewrite not_elem_of_cons in Hnot. destruct Hnot as [Hne Hnot].
    apply preserves_bind; [by apply Hb|]. intros _. by apply IH.
Qed.

(** A parameter that passes the loop body of [step] is not [p]; on [p]
    itself the body raises and leaves the store as it is. *)
Lemma collect_sparse_step v cap a1 a2 bs q w :
  untouched p w0 w -> p ∉ a1 ->
  untouched p w0 (snd (collect_of v cap (a1, a2, bs) q w))
  /\ match fst (collect_of v cap (a1, a2, bs) q w) with
     | Ok (a1', _, _) => (p ∉ a1') /\ q <> p
     | Raise _ => True
     end.
Proof.
  intros HU Hnot.
  destruct (decide (q = p)) as [->|Hne].
  { pose proof HU as (H1 & _). rewrite Hgrad in H1.
    apply grad_of_Some in H1 as (po & Hpo & Hg).
    destruct (collect_sparse v cap (a1, a2, bs) p w po g Hpo Hg Hsparse)
      as [msg ->].
    simpl. auto. }
  assert (Happ : p ∉ a1 ++ [q]).
  { rewrite not_elem_of_app, not_elem_of_cons. split; [exact Hnot|].
    split; [congruence|apply not_elem_of_nil]. }
  destruct v;
    cbv beta iota zeta delta [collect_of SophiaG_collect SophiaG_RMS_collect
      SophiaG_OG_collect SophiaG_RMSD_collect];
    (destruct (heap w !! q) as [po|]; [|simpl; auto]);
    (destruct (p_grad po) as [gq|]; [|simpl; auto]);
    (destruct (is_sparse gq); [simpl; auto|]);
    match goal with
    | |- context [set_state q ?s w] =>
        pose proof (U_set_state q s w Hne HU) as HU1;
        generalize dependent (set_state q s w)
    end;
    intros w1 HU1; unfold bind, state_item, ret;
    repeat match goal with
           | |- context [match ?x with Some _ => _ | None => _ end] =>
               destruct x
           end;
    simpl; auto.
Qed.

Lemma collect_loop_sparse v cap qs : forall a1 a2 bs w,
  untouched p w0 w -> p ∉ a1 ->
  untouched p w0 (snd (for_fold qs (a1, a2, bs) (collect_of v cap) w))
  /\ match fst (for_fold qs (a1, a2, bs) (collect_of v cap) w) with
     | Ok (a1', _, _) => (p ∉ a1') /\ p ∉ qs
     | Raise _ => True
     end.
Proof.
  induction qs as [|q qs IH]; intros a1 a2 bs w HU Hnot.
  - simpl. split; [exact HU|]. split; [exact Hnot|apply not_elem_of_nil].
  - cbn [for_fold]. unfold bind.
    destruct (collect_sparse_step v cap a1 a2 bs q w HU Hnot) as [HU1 Hr].
    destruct (collect_of v cap (a1, a2, bs) q w) as [[[[a1' a2'] bs']|e] w1];
      simpl in *; [|auto].
    destruct Hr as [Hnot1 Hne].
    destruct (IH a1' a2' bs' w1 HU1 Hnot1) as [HU2 Hr2].
    split; [exact HU2|].
    destruct (for_fold qs (a1', a2', bs') (collect_of v cap) w1)
      as [[[[a1'' a2''] bs'']|e] w2]; simpl in *; [|auto].
    destruct Hr2 as [H1 H2]. split; [exact H1|].
    rewrite not_elem_of_cons. auto.
Qed.

Lemma group_sparse v cap bs gr w :
  untouched p w0 w ->
  let r := (let '(beta1, beta2) := betas (hyper gr) in
            let* (params_with_grad, grads, bs) :=
              for_fold (params gr) ([], [], bs) (collect_of v cap) in
            call (kernel_of v) params_with_grad grads bs beta1 beta2
              (rho (hyper gr)) (lr (hyper gr))
              (weight_decay (hyper gr)) (maximize (hyper gr))
              (capturable (hyper gr)) >>
            ret bs) w in
  untouched p w0 (snd r) /\ (p ∈ params gr -> exists e, fst r = Raise e).
Proof.
  intros HU. cbv zeta. destruct (betas (hyper gr)) as [beta1 beta2].
  destruct (collect_loop_sparse v cap (params gr) [] [] bs w HU
              (not_elem_of_nil p)) as [HU1 Hr1].
  unfold bind.
  destruct (for_fold (params gr) ([], [], bs) (collect_of v cap) w)
    as [[[[pwg grads] bs1]|e] w1]; simpl in HU1, Hr1; cbv beta iota.
  - destruct Hr1 as [Hnot1 Hnot2].
    assert (HU2 : untouched p w0
              (snd (call (kernel_of v) pwg grads bs1 beta1 beta2 (rho (hyper gr))
                      (lr (hyper gr)) (weight_decay (hyper gr))
                      (maximize (hyper gr)) (capturable (hyper gr)) w1))).
    { rewrite call_iter. apply U_for_enumerate; auto.
      intros i q Hne. by apply U_iter. }
    destruct (call (kernel_of v) pwg grads bs1 beta1 beta2 (rho (hyper gr))
                (lr (hyper gr)) (weight_decay (hyper gr))
                (maximize (hyper gr)) (capturable (hyper gr)) w1)
      as [[[]|e] w2]; simpl in HU2; cbv beta iota.
    + unfold ret. simpl. split; [exact HU2|]. intros Hp. contradiction.
    + split; [exact HU2|]. eauto.
  - simpl. split; [exact HU1|]. eauto.
Qed.

Lemma for_fold_raises {A B} (body : A -> B -> M A) (hit : B -> Prop) xs :
  (forall a x w, untouched p w0 w ->
     untouched p w0 (snd (body a x w))
     /\ (hit x -> exists e, fst (body a x w) = Raise e)) ->
  forall a w, untouched p w0 w ->
    untouched p w0 (snd (for_fold xs a body w))
    /\ ((exists x, x ∈ xs /\ hit x) ->
        exists e, fst (for_fold xs a body w) = Raise e).
Proof.
  intros Hbody. induction xs as [|x xs IH]; intros a w HU.
  - simpl. split; [exact HU|]. intros (x & Hin & _). inversion Hin.
  - cbn [for_fold]. unfold bind. destruct (Hbody a x w HU) as [HU1 Hr1].
    destruct (body a x w) as [[a'|e] w1]; simpl in HU1, Hr1.
    + destruct (IH a' w1 HU1) as [HU2 Hr2]. split; [exact HU2|].
      intros (y & Hin & Hy). apply elem_of_cons in Hin as [->|Hin].
      * destruct (Hr1 Hy) as [e He]. discriminate.
      * apply Hr2. eauto.
    + simpl. split; [exact HU1|]. eauto.
Qed.

(** [step] on a store in which a listed parameter has a sparse gradient:
    it raises, and the parameter, its gradient and its state are as
    before. *)
Lemma step_sparse v self bs group :
  group ∈ param_groups self -> p ∈ params group ->
  exists e w',
    step_of v self bs w0 = (Raise e, w')
    /\ state w' !! p = state w0 !! p
    /\ heap w' !! p = heap w0 !! p.
Proof.
  intros Hgroup Hp. rewrite step_of_groups.
  assert (HU0 : untouched p w0 w0) by (repeat split).
  unfold bind.
  match goal with
  | |- context [for_fold (param_groups self) (BsNum bs) ?body w0] =>
      destruct (for_fold_raises body (fun gr => p ∈ params gr)
                  (param_groups self)
                  (fun a x w => group_sparse v (capturable (defaults self)) a x w)
                  (BsNum bs) w0 HU0) as [HU Hr];
      destruct (for_fold (param_groups self) (BsNum bs) body w0) as [r w']
  end.
  simpl in HU, Hr. destruct Hr as [e ->]; [eauto|].
  exists e, w'. split; [reflexivity|].
  destruct HU as (_ & H2 & H3). auto.
Qed.

End SparseStep.

(** C6, on the code. [step] of every class raises whenever a listed
    parameter has a sparse gradient, and leaves that parameter and its
    state as they were; on a parameter with a sparse gradient and no state
    yet the exception is [RuntimeError] and the store is unchanged.
    [update_hessian] of every class has no such test: whatever [addcmul_]
    does with the sparse operand, the call has by then created the state
    of the parameter, and an exception, if any, is the one that [addcmul_]
    raises. *)
Theorem sparse_gradient_handling addcmul_sparse v :
  (forall self bs w p g group,
     group ∈ param_groups self -> p ∈ params group ->
     grad_of w p = Some g -> is_sparse g = true ->
     exists e w',
       step_of v self bs w = (Raise e, w')
       /\ state w' !! p = state w !! p
       /\ heap w' !! p = heap w !! p)
  /\ (exists msg,
     step_of v opt0 5120 store_sparse = (Raise (RuntimeError msg), store_sparse))
  /\ exists r w' s,
       update_hessian_of addcmul_sparse v opt0 store_sparse = (r, w')
       /\ state store_sparse !! 0%nat = None
       /\ state w' !! 0%nat = Some s
       /\ st_exp_avg s = Some (vec [0])
       /\ (r = Ok tt
           \/ exists e, r = Raise e
                /\ addcmul_sparse (mul_ (vec [0]) 0.99) sparse_grad sparse_grad
                     (1 - 0.99) = Raise e).
Proof.
  split; [|split].
  - intros self bs w p g group Hgroup Hp Hg Hs.
    exact (step_sparse p w g Hg Hs v self bs group Hgroup Hp).
  - rewrite step_of_groups. cbn [opt0 one_group param_groups for_fold
      params hyper betas hyper0 defaults capturable].
    destruct (collect_sparse v false ([], [], BsNum 5120) 0%nat store_sparse
                _ sparse_grad (lookup_singleton_eq _ _) eq_refl eq_refl)
      as [msg Hc].
    exists msg. unfold bind. rewrite Hc. reflexivity.
  - rewrite update_hessian_of_groups.
    cbn [opt0 one_group param_groups for_each params hyper betas hyper0
           defaults capturable].
    unfold bind, update_hessian_param.
    cbn [store_sparse heap]. rewrite lookup_singleton_eq. cbn [p_grad p_data].
    assert (Hget : get_state 0%nat store_sparse = empty_state).
    { unfold get_state. simpl. by rewrite lookup_empty. }
    rewrite Hget.
    set (s1 := backfill_hessian (vec [1])
                 (init_state_of v false (vec [1]) empty_state)).
    assert (Hh : st_hessian s1 = Some (vec [0])) by (destruct v; reflexivity).
    assert (Hm : st_exp_avg s1 = Some (vec [0])) by (destruct v; reflexivity).
    unfold hessian_ema, bind, state_item, store_hessian, modify, lift.
    rewrite !get_state_set_eq, Hh. cbn [is_sparse sparse_grad].
    rewrite !get_state_set_eq.
    destruct (addcmul_sparse _ _ _ _) as [h2|e] eqn:E.
    + eexists _, _, _. split; [reflexivity|]. split; [apply lookup_empty|].
      split; [apply lookup_insert_eq|]. split; [exact Hm|]. left. reflexivity.
    + eexists _, _, _. split; [reflexivity|]. split; [apply lookup_empty|].
      split; [apply lookup_insert_eq|]. split; [exact Hm|]. right.
      exists e. split; reflexivity.
Qed.

Lemma sparse_gradient_handling_witness :
  exists e w',
    step_of RMS opt0 5120 store_sparse = (Raise e, w')
    /\ state w' !! 0%nat = state store_sparse !! 0%nat
    /\ heap w' !! 0%nat = heap store_sparse !! 0%nat.
Proof.
  destruct (sparse_gradient_handling
              (fun _ _ _ _ => Raise (RuntimeError "sparse")) RMS) as [H _].
  apply (H opt0 5120 store_sparse 0%nat sparse_grad
           {| params := [0%nat]; hyper := hyper0 |}).
  - left.
  - left.
  - reflexivity.
  - reflexivity.
Defined.


(** * Further properties of the code *)

(** ** [_rms] *)

Lemma sum_sq_nonneg l : 0 <= sum_sq l.
Proof. induction l as [|x l IH]; simpl; [lra|nra]. Qed.

Lemma sum_sq_scale c l : sum_sq (map (fun x => x * c) l) = c * c * sum_sq l.
Proof. induction l as [|x l IH]; simpl; [lra|rewrite IH; lra]. Qed.

Lemma sq_le_of_abs x B : Rabs x <= B -> x * x <= B * B.
Proof.
  intros H. pose proof (Rabs_pos x) as Hp.
  assert (E : x * x = Rabs x * Rabs x)
    by (unfold Rabs; destruct (Rcase_abs x); lra).
  rewrite E. nra.
Qed.

Lemma sum_sq_bound B l :
  Forall (fun x => Rabs x <= B) l -> sum_sq l <= INR (length l) * (B * B).
Proof.
  induction 1 as [|x l Hx Hl IH].
  - simpl. lra.
  - change (length (x :: l)) with (S (length l)). rewrite S_INR.
    simpl sum_sq. pose proof (sq_le_of_abs x B Hx). lra.
Qed.

Lemma numel_mul_ t c : numel (mul_ t c) = numel t.
Proof. unfold numel, mul_. simpl. by rewrite length_map. Qed.

Lemma rms_nonneg t : 0 <= _rms t.
Proof.
  unfold _rms, norm2, Rdiv.
  apply Rmult_le_pos; [apply sqrt_pos|].
  destruct (Req_dec (sqrt (INR (numel t))) 0) as [->|Hne].
  - rewrite Rinv_0. lra.
  - left. apply Rinv_0_lt_compat.
    pose proof (sqrt_pos (INR (numel t))). lra.
Qed.

Lemma rms_mul_ t c : _rms (mul_ t c) = Rabs c * _rms t.
Proof.
  unfold _rms, norm2. rewrite numel_mul_. unfold mul_ at 1. simpl.
  rewrite sum_sq_scale.
  rewrite sqrt_mult by (first [apply sum_sq_nonneg | nra]).
  change (c * c) with (Rsqr c). rewrite sqrt_Rsqr_abs. unfold Rdiv. ring.
Qed.

(** X1. On a tensor with at least one element, [_rms] is nonnegative and
    absolutely homogeneous: scaling the tensor in place by [c] scales its
    rms by [|c|]. On a real tensor whose entries all have magnitude at most
    [B], the rms is at most [B]. *)
Theorem rms_scaling_and_bound t c :
  (0 < numel t)%nat ->
  0 <= _rms t
  /\ _rms (mul_ t c) = Rabs c * _rms t
  /\ forall B, is_complex t = false ->
       Forall (fun x => Rabs x <= B) (data t) -> _rms t <= B.
Proof.
  intros Hn. split; [apply rms_nonneg|]. split; [apply rms_mul_|].
  intros B Hreal HB. unfold _rms, norm2.
  unfold numel in *. rewrite Hreal in *.
  set (n := length (data t)) in *.
  assert (Hn0 : 0 < INR n) by (apply lt_0_INR; exact Hn).
  assert (Hs : 0 < sqrt (INR n)) by (apply sqrt_lt_R0; exact Hn0).
  assert (HB0 : 0 <= B).
  { destruct (data t) as [|x l] eqn:E; [simpl in n; subst n; inversion Hn|].
    inversion HB; subst. pose proof (Rabs_pos x). lra. }
  pose proof (sum_sq_bound B (data t) HB) as Hsum. fold n in Hsum.
  assert (Hle : sqrt (sum_sq (data t)) <= sqrt (INR n) * B).
  { assert (E : sqrt (INR n) * B = sqrt (INR n * (B * B))).
    { rewrite sqrt_mult by nra. by rewrite sqrt_square. }
    rewrite E. apply sqrt_le_1_alt. exact Hsum. }
  apply Rmult_le_reg_r with (r := sqrt (INR n)); [exact Hs|].
  unfold Rdiv. rewrite Rmult_assoc, Rinv_l by lra. lra.
Qed.

Lemma rms_scaling_and_bound_witness :
  0 <= _rms (vec [3; -4])
  /\ _rms (mul_ (vec [3; -4]) (-2)) = Rabs (-2) * _rms (vec [3; -4])
  /\ forall B, is_complex (vec [3; -4]) = false ->
       Forall (fun x => Rabs x <= B) (data (vec [3; -4])) ->
       _rms (vec [3; -4]) <= B.
Proof.
  apply (rms_scaling_and_bound (vec [3; -4]) (-2)).
  unfold numel; simpl. apply Nat.lt_0_succ.
Defined.

(** ** The shape of the loop body of [step] *)

(** The body either passes over the parameter, or raises on its sparse
    gradient before it touches the store, or prepares the state dictionary
    and then reads its keys. *)
Lemma collect_cases v cap a1 a2 bs p w :
  (grad_of w p = None
   /\ collect_of v cap (a1, a2, bs) p w = (Ok (a1, a2, bs), w))
  \/ exists po g,
       heap w !! p = Some po /\ p_grad po = Some g
       /\ ((is_sparse g = true
            /\ exists msg,
                 collect_of v cap (a1, a2, bs) p w = (Raise (RuntimeError msg), w))
           \/ (is_sparse g = false
               /\ let w1 := set_state p (prepared v cap (p_data po) (get_state p w)) w in
                  collect_of v cap (a1, a2, bs) p w
                  = (Ok (a1 ++ [p], a2 ++ [g],
                         if cap then ones_times (p_data po) bs else bs), w1)
                  \/ exists key,
                       collect_of v cap (a1, a2, bs) p w = (Raise (KeyError key), w1))).
Proof.
  destruct (grad_of w p) as [g|] eqn:Eg.
  - right. apply grad_of_Some in Eg as (po & Hpo & Hg). exists po, g.
    split; [exact Hpo|]. split; [exact Hg|].
    destruct (is_sparse g) eqn:Es.
    + left. split; [reflexivity|].
      exact (collect_sparse v cap (a1, a2, bs) p w po g Hpo Hg Es).
    + right. split; [reflexivity|]. cbv zeta. unfold prepared.
      destruct v;
        cbv beta iota zeta delta [collect_of SophiaG_collect SophiaG_RMS_collect
          SophiaG_OG_collect SophiaG_RMSD_collect init_state_of];
        rewrite Hpo, Hg, Es; unfold bind, state_item, ret;
        repeat match goal with
               | |- context [match ?x with Some _ => _ | None => _ end] =>
                   destruct x
               end;
        eauto.
  - left. split; [reflexivity|]. by apply collect_skip.
Qed.

(** ** Invariants of [step], from invariants of its writes *)

Section StepInvariant.

Variable v : Variant.
Variable I : Store -> Prop.
Hypothesis I_param : forall p t, preserves I (store_param p t).
Hypothesis I_step_t : forall p t, preserves I (store_step p t).
Hypothesis I_exp_avg : forall p t, preserves I (store_exp_avg p t).
Hypothesis I_rms : forall p t, preserves I (store_rms p t).
Hypothesis I_prepared : forall cap p po g w,
  I w -> heap w !! p = Some po -> p_grad po = Some g ->
  I (set_state p (prepared v cap (p_data po) (get_state p w)) w).

Lemma inv_iter k grads bs beta1 beta2 rho lr weight_decay maximize capturable i p :
  preserves I
    (iter_of k grads bs beta1 beta2 rho lr weight_decay maximize capturable i p).
Proof.
  destruct k;
    cbv beta iota zeta delta [iter_of _single_tensor_sophiag_iter
      _single_tensor_sophiag_rms_iter _single_tensor_sophiag_og_iter
      _single_tensor_sophiag_rmsd_iter];
    repeat pres_step
      ltac:(first [ apply I_param | apply I_step_t
                  | apply I_exp_avg | apply I_rms ]).
Qed.

Lemma inv_call k ps grads bs beta1 beta2 rho lr weight_decay maximize capturable :
  preserves I
    (call k ps grads bs beta1 beta2 rho lr weight_decay maximize capturable).
Proof.
  rewrite call_iter. apply preserves_for_enumerate. intros i x. apply inv_iter.
Qed.

Lemma inv_collect cap acc p : preserves I (collect_of v cap acc p).
Proof.
  intros w HI. destruct acc as [[a1 a2] bs].
  destruct (collect_cases v cap a1 a2 bs p w)
    as [[_ ->]|(po & g & Hpo & Hg & [[_ [msg ->]]|[_ H]])];
    [exact HI|exact HI|].
  cbv zeta in H. destruct H as [->|[key ->]]; simpl;
    exact (I_prepared cap p po g w HI Hpo Hg).
Qed.

Lemma inv_step self bs : preserves I (step_of v self bs).
Proof.
  rewrite step_of_groups.
  apply preserves_bind; [|intros; apply preserves_ret].
  apply preserves_for_fold. intros bs' group.
  destruct (betas (hyper group)) as [beta1 beta2].
  apply preserves_bind.
  - apply preserves_for_fold. intros acc p. apply inv_collect.
  - intros [[pwg grads] bs2]. apply preserves_bind.
    + apply inv_call.
    + intros _. apply preserves_ret.
Qed.

End StepInvariant.

(** ** Calls that meet no gradient *)

Lemma collect_loop_skip v cap ps : forall acc w,
  (forall p, p ∈ ps -> grad_of w p = None) ->
  for_fold ps acc (collect_of v cap) w = (Ok acc, w).
Proof.
  induction ps as [|p ps IH]; intros acc w H; [reflexivity|].
  cbn [for_fold]. unfold bind.
  rewrite collect_skip by (apply H; left). apply IH.
  intros q Hq. apply H. by right.
Qed.

Lemma update_hessian_loop_skip addcmul_sparse init beta2 ps : forall w,
  (forall p, p ∈ ps -> grad_of w p = None) ->
  for_each ps (update_hessian_param addcmul_sparse init beta2) w = (Ok tt, w).
Proof.
  induction ps as [|p ps IH]; intros w H; [reflexivity|].
  cbn [for_each]. unfold bind.
  assert (Hp : update_hessian_param addcmul_sparse init beta2 p w = (Ok tt, w)).
  { specialize (H p ltac:(left)). unfold grad_of in H.
    unfold update_hessian_param.
    destruct (heap w !! p) as [po|]; [|reflexivity]. by rewrite H. }
  rewrite Hp. apply IH. intros q Hq. apply H. by right.
Qed.

(** X2. A call that meets no gradient does nothing: when no listed
    parameter has a gradient, [step] and [update_hessian] of every class
    return without an exception and leave the store as it is; no state
    dictionary is created. This holds in capturable mode as well, and for
    an optimizer without groups. *)
Theorem no_gradient_no_effect addcmul_sparse v self bs w :
  (forall group p, group ∈ param_groups self -> p ∈ params group ->
     grad_of w p = None) ->
  step_of v self bs w = (Ok tt, w)
  /\ update_hessian_of addcmul_sparse v self w = (Ok tt, w).
Proof.
  intros H. split.
  - rewrite step_of_groups. unfold bind at 1.
    assert (Hloop : forall bs0,
      for_fold (param_groups self) bs0 (fun bs group =>
        let '(beta1, beta2) := betas (hyper group) in
        let* (params_with_grad, grads, bs) :=
          for_fold (params group) ([], [], bs)
            (collect_of v (capturable (defaults self))) in
        call (kernel_of v) params_with_grad grads bs beta1 beta2
          (rho (hyper group)) (lr (hyper group)) (weight_decay (hyper group))
          (maximize (hyper group)) (capturable (hyper group)) >>
        ret bs) w = (Ok bs0, w)).
    { induction (param_groups self) as [|gr groups IH]; intros bs0;
        [reflexivity|].
      cbn [for_fold]. unfold bind at 1.
      destruct (betas (hyper gr)) as [beta1 beta2]. unfold bind at 1.
      rewrite collect_loop_skip by (intros p Hp; apply (H gr); [left|exact Hp]).
      rewrite call_iter. cbn [for_enumerate]. unfold bind, ret.
      apply IH. intros group p Hg. apply H. by right. }
    rewrite Hloop. reflexivity.
  - rewrite update_hessian_of_groups.
    induction (param_groups self) as [|gr groups IH]; [reflexivity|].
    cbn [for_each]. unfold bind.
    destruct (betas (hyper gr)) as [beta1 beta2].
    rewrite update_hessian_loop_skip
      by (intros p Hp; apply (H gr); [left|exact Hp]).
    apply IH. intros group p Hg. apply H. by right.
Qed.

Lemma no_gradient_no_effect_witness :
  step_of RMS opt0 5120 store_idle = (Ok tt, store_idle)
  /\ update_hessian_of sparse_unsupported RMS opt0 store_idle
     = (Ok tt, store_idle).
Proof.
  apply (no_gradient_no_effect sparse_unsupported RMS opt0 5120 store_idle).
  intros group p Hg Hp. apply list_elem_of_singleton in Hg. subst group.
  apply list_elem_of_singleton in Hp. subst p. reflexivity.
Defined.

(** ** What [step] leaves of the hessian buffers *)

Lemma hessian_frame_refl w : hessian_frame w w.
Proof.
  split; [reflexivity|]. split; [auto|]. intros q h H1 H2. congruence.
Qed.

Lemma hessian_frame_keep w0 w w' :
  same_hessians_and_grads w w' -> hessian_frame w0 w -> hessian_frame w0 w'.
Proof.
  intros [Hg Hh] (H1 & H2 & H3). split; [|split].
  - intros q. by rewrite Hg.
  - intros q h Hq. rewrite Hh. by apply H2.
  - intros q h Hq. rewrite Hh. by apply H3.
Qed.

Lemma Forall_repeat_zero n : Forall (fun x => x = 0) (repeat 0 n).
Proof. induction n; simpl; constructor; auto. Qed.

Lemma hessian_frame_prepared w0 v cap p t w :
  hessian_frame w0 w ->
  hessian_frame w0 (set_state p (prepared v cap t (get_state p w)) w).
Proof.
  intros (H1 & H2 & H3). split; [|split].
  - intros q. apply H1.
  - intros q h Hq. destruct (decide (p = q)) as [->|Hne].
    + rewrite get_state_set_eq. specialize (H2 q h Hq).
      unfold prepared.
      rewrite init_state_of_nonempty
        by (eapply hessian_present_nonempty; exact H2).
      unfold backfill_hessian. by rewrite H2.
    + rewrite get_state_set_ne by done. by apply H2.
  - intros q h Hq. destruct (decide (p = q)) as [->|Hne].
    + rewrite get_state_set_eq. intros Hh.
      apply prepared_hessian in Hh as [->|Hh].
      * apply Forall_repeat_zero.
      * by apply (H3 q).
    + rewrite get_state_set_ne by done. by apply H3.
Qed.

(** X3. [step] never writes a hessian buffer and never changes a gradient,
    in any mode and whether or not it raises: after the call every
    gradient is the same tensor, every hessian buffer that existed holds
    the same entries, and a hessian buffer that the call has created is
    all zeros. *)
Theorem step_keeps_hessians v self bs w :
  hessian_frame w (snd (step_of v self bs w)).
Proof.
  apply (inv_step v (hessian_frame w)).
  - intros p t w1. apply hessian_frame_keep, store_param_same_hessian.
  - intros p t w1. apply hessian_frame_keep. unfold store_step, modify; simpl.
    apply set_state_same_hessian. reflexivity.
  - intros p t w1. apply hessian_frame_keep. unfold store_exp_avg, modify; simpl.
    apply set_state_same_hessian. reflexivity.
  - intros p t w1. apply hessian_frame_keep. unfold store_rms, modify; simpl.
    apply set_state_same_hessian. reflexivity.
  - intros cap p po g w1 H _ _. by apply hessian_frame_prepared.
  - apply hessian_frame_refl.
Qed.

(** ** What [update_hessian] leaves of the store *)

Lemma moments_frame_refl w : moments_frame w w.
Proof.
  split; [reflexivity|]. split; [auto|]. intros q s Hs _. exists s. auto.
Qed.

Lemma state_nonempty_keep s s' :
  state_is_empty s = false ->
  st_step s' = st_step s -> st_exp_avg s' = st_exp_avg s ->
  st_rms s' = st_rms s ->
  (is_Some (st_hessian s) -> is_Some (st_hessian s')) ->
  state_is_empty s' = false.
Proof.
  destruct s as [a b c d], s' as [a' b' c' d']. unfold state_is_empty. simpl.
  intros Hne -> -> -> H.
  destruct a, b, c, d, c'; simpl in *; try reflexivity; try discriminate.
  destruct H as [h Hh]; [eauto|discriminate].
Qed.

(** A write to the state dictionary of [p] that keeps the step counter,
    the momentum, the rms buffer and the presence of the hessian, when [p]
    has a gradient. *)
Lemma moments_frame_set w0 w p s1 g :
  moments_frame w0 w -> grad_of w p = Some g ->
  (state_is_empty (get_state p w) = false ->
     st_step s1 = st_step (get_state p w)
     /\ st_exp_avg s1 = st_exp_avg (get_state p w)
     /\ st_rms s1 = st_rms (get_state p w)
     /\ (is_Some (st_hessian (get_state p w)) -> is_Some (st_hessian s1))) ->
  moments_frame w0 (set_state p s1 w).
Proof.
  intros (Hheap & Hnone & Hkeep) Hg Hs1. split; [exact Hheap|]. split.
  - intros q Hq. assert (Hne : p <> q).
    { intros ->. unfold grad_of in Hg, Hq. rewrite Hheap in Hg. congruence. }
    unfold set_state; simpl. rewrite lookup_insert_ne by done. by apply Hnone.
  - intros q s Hq Hne. destruct (Hkeep q s Hq Hne) as (s' & Hs' & E1 & E2 & E3 & E4).
    destruct (decide (p = q)) as [->|Hpq].
    + exists s1. unfold set_state; simpl. rewrite lookup_insert_eq.
      split; [reflexivity|].
      assert (Hget : get_state q w = s') by (unfold get_state; by rewrite Hs').
      rewrite Hget in Hs1.
      assert (Hne' : state_is_empty s' = false)
        by exact (state_nonempty_keep s s' Hne E1 E2 E3 E4).
      destruct (Hs1 Hne') as (F1 & F2 & F3 & F4).
      repeat split; try congruence. auto.
    + exists s'. unfold set_state; simpl. rewrite lookup_insert_ne by done.
      auto.
Qed.

Lemma grad_of_set_state p s w q : grad_of (set_state p s w) q = grad_of w q.
Proof. reflexivity. Qed.

Lemma moments_frame_store_hessian w0 p t g :
  forall w, moments_frame w0 w -> grad_of w p = Some g ->
    moments_frame w0 (snd (store_hessian p t w)).
Proof.
  intros w H Hg. unfold store_hessian, modify; simpl.
  apply (moments_frame_set w0 w p _ g H Hg). intros _.
  unfold set_hessian; simpl. repeat split.
  intros [h Hh]. rewrite Hh. simpl. eauto.
Qed.

Lemma moments_frame_param addcmul_sparse v cap beta2 p w0 w :
  moments_frame w0 w ->
  moments_frame w0
    (snd (update_hessian_param addcmul_sparse (init_state_of v cap) beta2 p w)).
Proof.
  intros H. unfold update_hessian_param.
  destruct (heap w !! p) as [po|] eqn:Hpo; [|exact H].
  destruct (p_grad po) as [g|] eqn:Hg; [|exact H].
  assert (Hgrad : grad_of w p = Some g) by (unfold grad_of; by rewrite Hpo).
  set (s1 := backfill_hessian (p_data po)
               (init_state_of v cap (p_data po) (get_state p w))).
  assert (H1 : moments_frame w0 (set_state p s1 w)).
  { apply (moments_frame_set w0 w p s1 g H Hgrad). intros Hne.
    unfold s1. rewrite init_state_of_nonempty by exact Hne.
    unfold backfill_hessian.
    destruct (st_hessian (get_state p w)) eqn:Eh; simpl; [rewrite Eh|];
      repeat split; eauto. }
  unfold hessian_ema, bind, state_item.
  destruct (st_hessian (get_state p (set_state p s1 w))) as [h|]; [|exact H1].
  pose proof (moments_frame_store_hessian w0 p (mul_ h beta2) g _ H1 Hgrad) as H2.
  destruct (store_hessian p (mul_ h beta2) (set_state p s1 w)) as [[[]|e] w2] eqn:E2;
    simpl in H2; [|exact H2].
  assert (Hgrad2 : grad_of w2 p = Some g).
  { unfold store_hessian, modify in E2. inversion E2; subst w2. exact Hgrad. }
  destruct (is_sparse g).
  - unfold lift. destruct (addcmul_sparse _ _ _ _) as [h2|e]; [|exact H2].
    by apply (moments_frame_store_hessian w0 p h2 g).
  - by apply (moments_frame_store_hessian w0 p _ g).
Qed.

(** X4. [update_hessian] writes hessian buffers only, whatever the
    gradients are and whether or not it raises: the parameters and their
    gradients are the same objects with the same entries, a parameter
    without a gradient keeps its state entry (or keeps none), and every
    state dictionary that was not empty keeps its step counter, its
    momentum buffer and its rms buffer. *)
Theorem update_hessian_writes_hessian_only addcmul_sparse v self w :
  moments_frame w (snd (update_hessian_of addcmul_sparse v self w)).
Proof.
  assert (H : forall init,
    (forall beta2 p w1, moments_frame w w1 ->
       moments_frame w (snd (update_hessian_param addcmul_sparse init beta2 p w1))) ->
    moments_frame w
      (snd (for_each (param_groups self) (fun group =>
              let '(beta1, beta2) := betas (hyper group) in
              for_each (params group)
                (update_hessian_param addcmul_sparse init beta2)) w))).
  { intros init Hinit.
    apply (preserves_for_each (moments_frame w)); [|apply moments_frame_refl].
    intros group. destruct (betas (hyper group)) as [beta1 beta2].
    apply preserves_for_each. intros p w1. apply Hinit. }
  destruct v; cbv beta iota delta [update_hessian_of SophiaG_update_hessian
    SophiaG_RMS_update_hessian SophiaG_OG_update_hessian
    SophiaG_RMSD_update_hessian]; apply H; intros beta2 p w1.
  - apply (moments_frame_param addcmul_sparse Base).
  - apply (moments_frame_param addcmul_sparse RMS false).
  - apply (moments_frame_param addcmul_sparse OG false).
  - apply (moments_frame_param addcmul_sparse RMSD false).
Qed.

(** ** The update is clipped and signed *)






(** ** The state after [step] *)












(** ** The hessian estimate stays between its old value and [g * g] *)




(** ** A training loop in the common setting never raises *)

Lemma states_ok_store_hessian v p t :
  preserves (states_ok v) (store_hessian p t).
Proof.
  intros w Hok q s'. unfold store_hessian, modify; simpl.
  destruct (decide (p = q)) as [->|Hne].
  - rewrite lookup_insert_eq. intros [= <-].
    destruct (get_state_ok v w q Hok) as [He|Hf].
    + left. apply state_is_empty_true in He. rewrite He. reflexivity.
    + right. destruct Hf as (H1 & H2 & [h Hh] & H4).
      unfold full_state, set_hessian; simpl. rewrite Hh. simpl.
      repeat split; eauto.
  - rewrite lookup_insert_ne by done. apply Hok.
Qed.

Lemma states_ok_update_hessian_param addcmul_sparse v cap beta2 p :
  preserves (states_ok v)
    (update_hessian_param addcmul_sparse (init_state_of v cap) beta2 p).
Proof.
  intros w Hok. unfold update_hessian_param.
  destruct (heap w !! p) as [po|]; [|exact Hok].
  destruct (p_grad po) as [g|]; [|exact Hok].
  assert (H1 : states_ok v
            (set_state p (backfill_hessian (p_data po)
                            (init_state_of v cap (p_data po) (get_state p w))) w)).
  { apply states_ok_set; [exact Hok|].
    apply (prepared_full v cap (p_data po)), get_state_ok, Hok. }
  revert H1. generalize (set_state p (backfill_hessian (p_data po)
                            (init_state_of v cap (p_data po) (get_state p w))) w).
  change (preserves (states_ok v) (hessian_ema addcmul_sparse p g beta2)).
  unfold hessian_ema.
  repeat pres_step ltac:(apply states_ok_store_hessian).
Qed.

Lemma states_ok_update_hessian addcmul_sparse v self :
  preserves (states_ok v) (update_hessian_of addcmul_sparse v self).
Proof.
  assert (H : forall init,
    (forall beta2 p,
       preserves (states_ok v) (update_hessian_param addcmul_sparse init beta2 p)) ->
    preserves (states_ok v)
      (for_each (param_groups self) (fun group =>
         let '(beta1, beta2) := betas (hyper group) in
         for_each (params group)
           (update_hessian_param addcmul_sparse init beta2)))).
  { intros init Hinit. apply preserves_for_each. intros group.
    destruct (betas (hyper group)) as [beta1 beta2].
    apply preserves_for_each. intros p. apply Hinit. }
  destruct v; cbv beta iota delta [update_hessian_of SophiaG_update_hessian
    SophiaG_RMS_update_hessian SophiaG_OG_update_hessian
    SophiaG_RMSD_update_hessian]; apply H; intros beta2 p.
  - apply (states_ok_update_hessian_param addcmul_sparse Base).
  - apply (states_ok_update_hessian_param addcmul_sparse RMS false).
  - apply (states_ok_update_hessian_param addcmul_sparse OG false).
  - apply (states_ok_update_hessian_param addcmul_sparse RMSD false).
Qed.

Lemma update_hessian_heap addcmul_sparse v self w :
  heap (snd (update_hessian_of addcmul_sparse v self w)) = heap w.
Proof.
  assert (Hs : forall p t, preserves (fun w1 => heap w1 = heap w)
                             (store_hessian p t)).
  { intros p t w1 H. exact H. }
  assert (Hp : forall init beta2 p,
    preserves (fun w1 => heap w1 = heap w)
      (update_hessian_param addcmul_sparse init beta2 p)).
  { intros init beta2 p w1 H. unfold update_hessian_param.
    destruct (heap w1 !! p) as [po|]; [|exact H].
    destruct (p_grad po) as [g|]; [|exact H].
    assert (H1 : heap (set_state p (backfill_hessian (p_data po)
                         (init (p_data po) (get_state p w1))) w1) = heap w)
      by exact H.
    revert H1. generalize (set_state p (backfill_hessian (p_data po)
                             (init (p_data po) (get_state p w1))) w1).
    change (preserves (fun w1 => heap w1 = heap w)
              (hessian_ema addcmul_sparse p g beta2)).
    unfold hessian_ema. repeat pres_step ltac:(apply Hs). }
  assert (H : forall init,
    preserves (fun w1 => heap w1 = heap w)
      (for_each (param_groups self) (fun group =>
         let '(beta1, beta2) := betas (hyper group) in
         for_each (params group)
           (update_hessian_param addcmul_sparse init beta2)))).
  { intros init. apply preserves_for_each. intros group.
    destruct (betas (hyper group)) as [beta1 beta2].
    apply preserves_for_each. intros p. apply Hp. }
  destruct v; cbv beta iota delta [update_hessian_of SophiaG_update_hessian
    SophiaG_RMS_update_hessian SophiaG_OG_update_hessian
    SophiaG_RMSD_update_hessian]; apply H; reflexivity.
Qed.

Lemma common_setting_step v self bs w :
  host_mode self -> listed_once self -> common_setting v w ->
  exists w', step_of v self bs w = (Ok tt, w') /\ common_setting v w'.
Proof.
  intros Hhost Hnd (Hdense & Hreal & Hok).
  destruct (step_run v self bs w Hhost Hnd Hdense Hreal Hok) as (w' & Hrun & Hst).
  exists w'. split; [exact Hrun|].
  destruct (stepped_keeps _ _ _ _ _ Hst Hdense Hreal Hok) as (_ & H1 & H2 & H3).
  repeat split; assumption.
Qed.

Lemma common_setting_update_hessian addcmul_sparse v self w :
  common_setting v w ->
  exists w', update_hessian_of addcmul_sparse v self w = (Ok tt, w')
    /\ common_setting v w'.
Proof.
  intros (Hdense & Hreal & Hok).
  pose proof (update_hessian_heap addcmul_sparse v self w) as Hheap.
  pose proof (states_ok_update_hessian addcmul_sparse v self w Hok) as Hok'.
  assert (Hrun : exists w', update_hessian_of addcmul_sparse v self w = (Ok tt, w')).
  { rewrite update_hessian_of_groups.
    destruct (update_hessian_groups addcmul_sparse
                (init_state_of v (capturable (defaults self)))
                (param_groups self) w Hdense) as (w' & Hrun & _).
    eauto. }
  destruct Hrun as (w' & Hrun). rewrite Hrun in Hheap, Hok'. simpl in *.
  exists w'. split; [exact Hrun|]. split; [|split].
  - intros q g. unfold grad_of. rewrite Hheap. apply Hdense.
  - intros q po. rewrite Hheap. apply Hreal.
  - exact Hok'.
Qed.

Lemma common_setting_put_grad v p og w :
  (forall g, og = Some g -> is_sparse g = false) ->
  common_setting v w -> common_setting v (put_grad p og w).
Proof.
  intros Hog (Hdense & Hreal & Hok). split; [|split].
  - intros q g. unfold grad_of, put_grad; simpl.
    destruct (decide (p = q)) as [->|Hne].
    + rewrite lookup_alter_eq. destruct (heap w !! q); simpl; [|discriminate].
      apply Hog.
    + rewrite lookup_alter_ne by done. apply (Hdense q).
  - intros q po. unfold put_grad; simpl.
    destruct (decide (p = q)) as [->|Hne].
    + rewrite lookup_alter_eq. destruct (heap w !! q) as [po0|] eqn:E; simpl;
        [|discriminate].
      intros [= <-]. simpl. by apply (Hreal q).
    + rewrite lookup_alter_ne by done. apply Hreal.
  - exact Hok.
Qed.

Lemma common_setting_run addcmul_sparse v self w0 w :
  host_mode self -> listed_once self -> common_setting v w0 ->
  run (fun g => is_sparse g = false) addcmul_sparse v self w0 w ->
  common_setting v w.
Proof.
  intros Hhost Hnd H0 Hrun.
  induction Hrun as [|w bs _ IH|w _ IH|w p og _ IH Hog].
  - exact H0.
  - destruct (common_setting_step v self bs w Hhost Hnd IH) as (w' & -> & H).
    exact H.
  - destruct (common_setting_update_hessian addcmul_sparse v self w IH)
      as (w' & -> & H).
    exact H.
  - by apply common_setting_put_grad.
Qed.

(** X9. In the common setting a training loop never raises. Start from a
    store without optimizer state whose parameters are real and whose
    gradients are dense, with every parameter listed once and no group in
    capturable mode. After any sequence of [step] and [update_hessian]
    calls of a class, in any order and with any batch sizes, and of
    assignments of dense gradients in between, the next [step] and the next
    [update_hessian] return without an exception: the state that either
    method creates holds every key that the other reads. *)
Theorem training_loop_never_raises addcmul_sparse v self w0 w bs :
  host_mode self -> listed_once self ->
  state w0 = ∅ -> dense_grads w0 -> real_params w0 ->
  run (fun g => is_sparse g = false) addcmul_sparse v self w0 w ->
  (exists w', step_of v self bs w = (Ok tt, w'))
  /\ (exists w', update_hessian_of addcmul_sparse v self w = (Ok tt, w'))
  /\ forall p s, state w !! p = Some s ->
       state_is_empty s = true \/ full_state (kernel_of v) s.
Proof.
  intros Hhost Hnd Hempty Hdense Hreal Hrun.
  assert (H0 : common_setting v w0).
  { split; [exact Hdense|]. split; [exact Hreal|].
    intros q s. rewrite Hempty, lookup_empty. discriminate. }
  pose proof (common_setting_run addcmul_sparse v self w0 w Hhost Hnd H0 Hrun)
    as Hw.
  split; [|split].
  - destruct (common_setting_step v self bs w Hhost Hnd Hw) as (w' & H & _).
    eauto.
  - destruct (common_setting_update_hessian addcmul_sparse v self w Hw)
      as (w' & H & _).
    eauto.
  - destruct Hw as (_ & _ & Hok). exact Hok.
Qed.

Lemma training_loop_never_raises_witness :
  (exists w',
     step_of RMSD opt_rmsd 5120
       (snd (step_of RMSD opt_rmsd 5120
               (snd (update_hessian_of sparse_unsupported RMSD opt_rmsd
                       store_rmsd)))) = (Ok tt, w'))
  /\ (exists w',
        update_hessian_of sparse_unsupported RMSD opt_rmsd
          (snd (step_of RMSD opt_rmsd 5120
                  (snd (update_hessian_of sparse_unsupported RMSD opt_rmsd
                          store_rmsd)))) = (Ok tt, w'))
  /\ forall p s,
       state (snd (step_of RMSD opt_rmsd 5120
                     (snd (update_hessian_of sparse_unsupported RMSD opt_rmsd
                             store_rmsd)))) !! p = Some s ->
       state_is_empty s = true \/ full_state (kernel_of RMSD) s.
Proof.
  apply (training_loop_never_raises sparse_unsupported RMSD opt_rmsd store_rmsd).
  - by apply host_mode_single.
  - apply listed_once_single.
  - reflexivity.
  - apply dense_grads_singleton. intros g [= <-]. reflexivity.
  - apply real_params_singleton. reflexivity.
  - apply run_step, run_update_hessian, run_start.
Defined.

(** ** When [step] is bound to raise *)

Lemma preserves_and {A} (I J : Store -> Prop) (m : M A) :
  preserves I m -> preserves J m -> preserves (fun w => I w /\ J w) m.
Proof. intros HI HJ w [H1 H2]. split; [by apply HI|by apply HJ]. Qed.

Section StepRaises.

Variable v : Variant.
Variable I : Store -> Prop.
Variable p : nat.
Variable hit : Hyper -> Prop.

Hypothesis I_grad : forall w, I w -> is_Some (grad_of w p).
Hypothesis I_collect : forall cap acc q, preserves I (collect_of v cap acc q).
Hypothesis I_iter :
  forall grads bs beta1 beta2 rho lr weight_decay maximize capturable i q,
    preserves I
      (iter_of (kernel_of v) grads bs beta1 beta2 rho lr weight_decay maximize
         capturable i q).

(** On [p], in a group that [hit] selects, either the loop body of [step]
    raises or the kernel iteration does. *)
Hypothesis trips : forall hy, hit hy ->
  (forall cap acc w, I w -> exists e, fst (collect_of v cap acc p w) = Raise e)
  \/ (forall grads bs i w, I w ->
        exists e,
          fst (iter_of (kernel_of v) grads bs (fst (betas hy)) (snd (betas hy))
                 (rho hy) (lr hy) (weight_decay hy) (maximize hy)
                 (capturable hy) i p w) = Raise e).

Lemma for_enumerate_trips (body : nat -> nat -> M unit) qs : forall i w,
  (forall i q, preserves I (body i q)) ->
  (forall i w, I w -> exists e, fst (body i p w) = Raise e) ->
  p ∈ qs -> I w ->
  exists e, fst (for_enumerate i qs body w) = Raise e.
Proof.
  induction qs as [|q qs IH]; intros i w Hpres Htrip Hin HI.
  - inversion Hin.
  - cbn [for_enumerate]. unfold bind.
    pose proof (Hpres i q w HI) as HI1.
    destruct (body i q w) as [[[]|e] w1] eqn:E; simpl in HI1; [|simpl; eauto].
    apply elem_of_cons in Hin as [->|Hin].
    + destruct (Htrip i w HI) as [e He]. rewrite E in He. discriminate.
    + by apply IH.
Qed.

Lemma for_fold_trips {A B} (body : A -> B -> M A) (sel : B -> Prop) xs :
  (forall a x, preserves I (body a x)) ->
  (forall a x w, sel x -> I w -> exists e, fst (body a x w) = Raise e) ->
  forall a w, (exists x, x ∈ xs /\ sel x) -> I w ->
    exists e, fst (for_fold xs a body w) = Raise e.
Proof.
  intros Hpres Htrip. induction xs as [|x xs IH]; intros a w (y & Hin & Hy) HI.
  - inversion Hin.
  - cbn [for_fold]. unfold bind.
    pose proof (Hpres a x w HI) as HI1.
    destruct (body a x w) as [[a'|e] w1] eqn:E; simpl in HI1; [|simpl; eauto].
    apply elem_of_cons in Hin as [->|Hin].
    + destruct (Htrip a x w Hy HI) as [e He]. rewrite E in He. discriminate.
    + apply IH; eauto.
Qed.

Lemma collect_loop_tracks cap qs : forall a1 a2 bs w,
  I w ->
  match fst (for_fold qs (a1, a2, bs) (collect_of v cap) w) with
  | Ok (a1', _, _) => p ∈ a1 \/ p ∈ qs -> p ∈ a1'
  | Raise _ => True
  end.
Proof.
  induction qs as [|q qs IH]; intros a1 a2 bs w HI.
  - simpl. intros [H|H]; [exact H|inversion H].
  - cbn [for_fold]. unfold bind.
    pose proof (I_collect cap (a1, a2, bs) q w HI) as HI1.
    destruct (collect_cases v cap a1 a2 bs q w)
      as [[Hnone E]|(po & g & Hpo & Hg & [[_ [msg E]]|[_ H]])].
    + rewrite E in HI1 |- *. simpl in HI1. specialize (IH a1 a2 bs w HI1).
      destruct (for_fold qs (a1, a2, bs) (collect_of v cap) w)
        as [[[[a1' a2'] bs']|e] w2]; simpl in *; [|exact Logic.I].
      intros [H|H]; [auto|]. apply elem_of_cons in H as [->|H]; [|auto].
      destruct (I_grad w HI) as [g Hg]. congruence.
    + rewrite E. exact Logic.I.
    + cbv zeta in H. destruct H as [E|[key E]]; rewrite E in HI1 |- *;
        [|exact Logic.I].
      simpl in HI1.
      match goal with
      | |- context [for_fold qs (?b1, ?b2, ?b3) _ ?w1] =>
          specialize (IH b1 b2 b3 w1 HI1);
          destruct (for_fold qs (b1, b2, b3) (collect_of v cap) w1)
            as [[[[a1' a2'] bs']|e] w2]; simpl in *; [|exact Logic.I]
      end.
      intros [H|H]; apply IH.
      * left. apply elem_of_app. by left.
      * apply elem_of_cons in H as [->|H]; [|by right].
        left. apply elem_of_app. right. by left.
Qed.

Lemma group_body_preserves cap bs gr :
  preserves I
    (let '(beta1, beta2) := betas (hyper gr) in
     let* (params_with_grad, grads, bs) :=
       for_fold (params gr) ([], [], bs) (collect_of v cap) in
     call (kernel_of v) params_with_grad grads bs beta1 beta2
       (rho (hyper gr)) (lr (hyper gr)) (weight_decay (hyper gr))
       (maximize (hyper gr)) (capturable (hyper gr)) >>
     ret bs).
Proof.
  destruct (betas (hyper gr)) as [beta1 beta2].
  apply preserves_bind.
  - apply preserves_for_fold. intros acc q. apply I_collect.
  - intros [[pwg grads] bs2]. apply preserves_bind.
    + rewrite call_iter. apply preserves_for_enumerate. intros i q.
      apply I_iter.
    + intros _. apply preserves_ret.
Qed.

Lemma group_body_trips cap bs gr w :
  hit (hyper gr) -> p ∈ params gr -> I w ->
  exists e,
    fst ((let '(beta1, beta2) := betas (hyper gr) in
          let* (params_with_grad, grads, bs) :=
            for_fold (params gr) ([], [], bs) (collect_of v cap) in
          call (kernel_of v) params_with_grad grads bs beta1 beta2
            (rho (hyper gr)) (lr (hyper gr)) (weight_decay (hyper gr))
            (maximize (hyper gr)) (capturable (hyper gr)) >>
          ret bs) w) = Raise e.
Proof.
  intros Hhit Hp HI. destruct (trips (hyper gr) Hhit) as [Hc|Hk].
  - destruct (betas (hyper gr)) as [beta1 beta2]. unfold bind at 1.
    destruct (for_fold_trips (A := list nat * list Tensor * BatchSize)
                (collect_of v cap) (fun q => q = p) (params gr)
                (I_collect cap)
                (fun a x w1 (E : x = p) HI1 =>
                   eq_ind_r (fun y => exists e, fst (collect_of v cap a y w1) = Raise e)
                     (Hc cap a w1 HI1) E)
                ([], [], bs) w ltac:(eauto) HI) as [e He].
    destruct (for_fold (params gr) ([], [], bs) (collect_of v cap) w)
      as [[acc|e'] w1] eqn:E; rewrite ?E in He; simpl in He; [discriminate|].
    simpl. eauto.
  - destruct (betas (hyper gr)) as [beta1 beta2] eqn:Eb. simpl in Hk.
    unfold bind at 1.
    pose proof (collect_loop_tracks cap (params gr) [] [] bs w HI) as Htr.
    pose proof (preserves_for_fold (A := list nat * list Tensor * BatchSize)
                  I (params gr) (collect_of v cap) ([], [], bs)
                  (I_collect cap) w HI) as HI1.
    destruct (for_fold (params gr) ([], [], bs) (collect_of v cap) w)
      as [[[[pwg grads] bs1]|e'] w1] eqn:E; rewrite ?E in Htr, HI1;
      simpl in Htr, HI1; [|simpl; eauto].
    specialize (Htr ltac:(by right)).
    unfold bind. rewrite call_iter.
    destruct (for_enumerate_trips
                (iter_of (kernel_of v) grads bs1 beta1 beta2 (rho (hyper gr))
                   (lr (hyper gr)) (weight_decay (hyper gr)) (maximize (hyper gr))
                   (capturable (hyper gr))) pwg 0 w1
                (fun i q => I_iter _ _ _ _ _ _ _ _ _ i q)
                (fun i w2 HI2 => Hk grads bs1 i w2 HI2) Htr HI1) as [e He].
    destruct (for_enumerate 0 pwg _ w1) as [[[]|e''] w2] eqn:E2;
      rewrite ?E2 in He; simpl in He; [discriminate|]. simpl. eauto.
Qed.

Lemma step_trips self bs group w :
  group ∈ param_groups self -> hit (hyper group) -> p ∈ params group -> I w ->
  exists e w', step_of v self bs w = (Raise e, w').
Proof.
  intros Hgroup Hhit Hp HI. rewrite step_of_groups. unfold bind.
  match goal with
  | |- context [for_fold (param_groups self) (BsNum bs) ?body w] =>
      destruct (for_fold_trips body
                  (fun gr => hit (hyper gr) /\ p ∈ params gr)
                  (param_groups self)
                  (fun a x => group_body_preserves (capturable (defaults self)) a x)
                  (fun a x w1 Hs HI1 =>
                     group_body_trips (capturable (defaults self)) a x w1
                       (proj1 Hs) (proj2 Hs) HI1)
                  (BsNum bs) w ltac:(eauto) HI) as [e He];
      destruct (for_fold (param_groups self) (BsNum bs) body w) as [[b|e'] w']
        eqn:E
  end; rewrite ?E in He; simpl in He; [discriminate|]. inversion He; subst. eauto.
Qed.

End StepRaises.

(** The gradient of a parameter is the same throughout [step]. *)
Lemma grad_kept_iter p g k grads bs beta1 beta2 rho lr weight_decay maximize
    capturable i q :
  preserves (fun w => grad_of w p = Some g)
    (iter_of k grads bs beta1 beta2 rho lr weight_decay maximize capturable i q).
Proof.
  apply inv_iter.
  - intros q' t w H.
    destruct (store_param_same_hessian q' t w) as [Hg _]. by rewrite Hg.
  - intros q' t w H. exact H.
  - intros q' t w H. exact H.
  - intros q' t w H. exact H.
Qed.

Lemma grad_kept_collect p g v cap acc q :
  preserves (fun w => grad_of w p = Some g) (collect_of v cap acc q).
Proof.
  apply inv_collect.
  intros cap' q' po g' w H _ _. exact H.
Qed.

(** ** Capturable mode *)

Lemma iter_capturable_raises k grads bs beta1 beta2 rho lr weight_decay maximize
    i q w :
  k <> single_tensor_sophiag ->
  exists e,
    fst (iter_of k grads bs beta1 beta2 rho lr weight_decay maximize true i q w)
    = Raise e.
Proof.
  intros Hk. destruct k; [contradiction|..];
    cbv beta iota zeta delta [iter_of _single_tensor_sophiag_rms_iter
      _single_tensor_sophiag_og_iter _single_tensor_sophiag_rmsd_iter
      bind lookup_param lift state_item ret raise store_step store_param
      store_exp_avg modify];
    repeat match goal with
           | |- context [match ?x with _ => _ end] =>
               lazymatch x with
               | context [match _ with _ => _ end] => fail
               | _ => destruct x
               end
           end; simpl; eauto.
Qed.

(** X10. [SophiaG_RMS], [SophiaG_OG] and [SophiaG_RMSD] cannot step in
    capturable mode: whenever a group with [capturable=True] lists a
    parameter that has a gradient, [step] raises. The kernels of these
    classes evaluate [lr.neg()] on the learning rate, a Python float, in
    their capturable branch. *)
Theorem capturable_step_raises v self bs w group p g :
  v <> Base ->
  group ∈ param_groups self -> capturable (hyper group) = true ->
  p ∈ params group -> grad_of w p = Some g ->
  exists e w', step_of v self bs w = (Raise e, w').
Proof.
  intros Hv Hgroup Hcap Hp Hg.
  apply (step_trips v (fun w1 => grad_of w1 p = Some g) p
           (fun hy => capturable hy = true)) with (group := group);
    try assumption.
  - intros w1 H. rewrite H. eauto.
  - intros cap acc q. apply grad_kept_collect.
  - intros. apply grad_kept_iter.
  - intros hy Hhy. right. intros grads bs' i w1 _. rewrite Hhy.
    apply iter_capturable_raises. destruct v; [contradiction|..]; discriminate.
Qed.

Lemma capturable_step_raises_witness :
  exists e w', step_of RMS opt_cap 5120 store0 = (Raise e, w').
Proof.
  apply (capturable_step_raises RMS opt_cap 5120 store0
           (mkGroup [0%nat] hyper_cap) 0%nat (vec [0.1])).
  - discriminate.
  - apply list_elem_of_singleton. reflexivity.
  - reflexivity.
  - apply list_elem_of_singleton. reflexivity.
  - reflexivity.
Defined.

(** ** Capturable mode on host tensors *)

Lemma host_with_grad_iter p k grads bs beta1 beta2 rho lr weight_decay
    maximize capturable i q :
  preserves (host_with_grad p)
    (iter_of k grads bs beta1 beta2 rho lr weight_decay maximize capturable i q).
Proof.
  apply inv_iter.
  - intros q' t w (po & g & Hpo & Hc & Hg).
    unfold host_with_grad, store_param, modify; simpl.
    destruct (decide (q' = p)) as [->|Hne].
    + rewrite lookup_alter_eq, Hpo. simpl. eauto.
    + rewrite lookup_alter_ne by done. eauto.
  - intros q' t w H. exact H.
  - intros q' t w H. exact H.
  - intros q' t w H. exact H.
Qed.

Lemma host_with_grad_collect p v cap acc q :
  preserves (host_with_grad p) (collect_of v cap acc q).
Proof.
  apply inv_collect.
  intros cap' q' po g' w H _ _. exact H.
Qed.

Lemma iter_host_capturable_raises k grads bs beta1 beta2 rho lr weight_decay
    maximize i p w :
  host_with_grad p w ->
  exists e,
    fst (iter_of k grads bs beta1 beta2 rho lr weight_decay maximize true
           i p w) = Raise e.
Proof.
  intros (po & g & Hpo & Hc & Hg).
  destruct k;
    cbv beta iota zeta delta [iter_of _single_tensor_sophiag_iter
      _single_tensor_sophiag_rms_iter
      _single_tensor_sophiag_og_iter _single_tensor_sophiag_rmsd_iter
      bind lookup_param lift state_item ret raise assert_cuda];
    repeat first
      [ progress (rewrite ?Hpo, ?Hc; cbv beta iota zeta)
      | match goal with
        | |- context [match ?x with _ => _ end] =>
            lazymatch x with
            | context [match _ with _ => _ end] => fail
            | _ => destruct x
            end
        end ];
    simpl; eauto.
Qed.

(** X11. Capturable mode needs CUDA tensors: in every class, whenever a
    group with [capturable=True] lists a host parameter that has a
    gradient, [step] raises; the kernels assert [param.is_cuda] before
    they write anything for that parameter. *)
Theorem capturable_step_on_host_raises v self bs w group p po g :
  group ∈ param_groups self -> capturable (hyper group) = true ->
  p ∈ params group ->
  heap w !! p = Some po -> is_cuda (p_data po) = false ->
  p_grad po = Some g ->
  exists e w', step_of v self bs w = (Raise e, w').
Proof.
  intros Hgroup Hcap Hp Hpo Hc Hg.
  apply (step_trips v (host_with_grad p) p (fun hy => capturable hy = true))
    with (group := group); try assumption.
  - intros w1 (po1 & g1 & Hpo1 & _ & Hg1). unfold grad_of.
    rewrite Hpo1, Hg1. eauto.
  - intros cap acc q. apply host_with_grad_collect.
  - intros. apply host_with_grad_iter.
  - intros hy Hhy. right. intros grads bs' i w1 H1. rewrite Hhy.
    by apply iter_host_capturable_raises.
  - exists po, g. auto.
Qed.

Lemma capturable_step_on_host_raises_witness :
  exists e w', step_of Base opt_cap 5120 store0 = (Raise e, w').
Proof.
  apply (capturable_step_on_host_raises Base opt_cap 5120 store0
           (mkGroup [0%nat] hyper_cap) 0%nat param0 (vec [0.1])).
  - apply list_elem_of_singleton. reflexivity.
  - reflexivity.
  - apply list_elem_of_singleton. reflexivity.
  - apply lookup_singleton_eq.
  - reflexivity.
  - reflexivity.
Defined.

(** ** Complex parameters *)

Lemma complex_with_grad_iter p k grads bs beta1 beta2 rho lr weight_decay
    maximize capturable i q :
  preserves (complex_with_grad p)
    (iter_of k grads bs beta1 beta2 rho lr weight_decay maximize capturable i q).
Proof.
  apply inv_iter.
  - intros q' t w (po & g & Hpo & Hc & Hg).
    unfold complex_with_grad, store_param, modify; simpl.
    destruct (decide (q' = p)) as [->|Hne].
    + rewrite lookup_alter_eq, Hpo. simpl. eauto.
    + rewrite lookup_alter_ne by done. eauto.
  - intros q' t w H. exact H.
  - intros q' t w H. exact H.
  - intros q' t w H. exact H.
Qed.

Lemma complex_with_grad_collect p v cap acc q :
  preserves (complex_with_grad p) (collect_of v cap acc q).
Proof.
  apply inv_collect.
  intros cap' q' po g' w H _ _. exact H.
Qed.

Lemma rms_buffer_is_real w p po r :
  layout_inv w -> heap w !! p = Some po ->
  st_rms (get_state p w) = Some r -> is_complex r = false.
Proof.
  intros HK Hpo Hr.
  destruct (get_state_buffers_ok w p po HK Hpo) as (_ & _ & H).
  by destruct (H r Hr) as (_ & Hc & _).
Qed.

Lemma iter_complex_raises k grads bs beta1 beta2 rho lr weight_decay maximize
    capturable i p w :
  k <> single_tensor_sophiag ->
  layout_inv w -> complex_with_grad p w ->
  exists e,
    fst (iter_of k grads bs beta1 beta2 rho lr weight_decay maximize capturable
           i p w) = Raise e.
Proof.
  intros Hk HK (po & g & Hpo & Hc & Hg).
  assert (Hr : forall r, st_rms (get_state p w) = Some r -> is_complex r = false)
    by (intros r; apply (rms_buffer_is_real w p po r HK Hpo)).
  destruct (st_rms (get_state p w)) as [r|] eqn:Er;
    [specialize (Hr r eq_refl)|clear Hr];
    (destruct k; [contradiction|..]);
    cbv beta iota zeta delta [iter_of _single_tensor_sophiag_rms_iter
      _single_tensor_sophiag_og_iter _single_tensor_sophiag_rmsd_iter
      bind lookup_param lift state_item ret raise real_views_rms view_as_real];
    repeat first
      [ progress (rewrite ?Hpo, ?Er, ?Hc, ?Hr; cbv beta iota zeta)
      | match goal with
        | |- context [match ?x with _ => _ end] =>
            lazymatch x with
            | context [match _ with _ => _ end] => fail
            | _ => destruct x
            end
        end ];
    simpl; eauto.
Qed.

(** X12. [SophiaG_RMS], [SophiaG_OG] and [SophiaG_RMSD] cannot step a
    complex parameter: their kernels pass the rms buffer, a real tensor,
    to [torch.view_as_real] along with the parameter. Whenever the state
    buffers have the layout that these classes give them and a listed
    complex parameter has a gradient, [step] raises, in any mode. *)
Theorem complex_parameter_step_raises v self bs w group p po g :
  v <> Base -> layout_inv w ->
  group ∈ param_groups self -> p ∈ params group ->
  heap w !! p = Some po -> is_complex (p_data po) = true ->
  p_grad po = Some g ->
  exists e w', step_of v self bs w = (Raise e, w').
Proof.
  intros Hv HK Hgroup Hp Hpo Hc Hg.
  apply (step_trips v (fun w1 => layout_inv w1 /\ complex_with_grad p w1) p
           (fun _ => True)) with (group := group); try assumption.
  - intros w1 (_ & po1 & g1 & Hpo1 & _ & Hg1). unfold grad_of.
    rewrite Hpo1, Hg1. eauto.
  - intros cap acc q. apply preserves_and;
      [apply K_collect|apply complex_with_grad_collect].
  - intros. apply preserves_and; [apply K_iter|apply complex_with_grad_iter].
  - intros hy _. right. intros grads bs' i w1 [HK1 HC1].
    apply iter_complex_raises; try assumption.
    destruct v; [contradiction|..]; discriminate.
  - exact Logic.I.
  - split; [exact HK|]. exists po, g. auto.
Qed.

Lemma complex_parameter_step_raises_witness :
  exists e w', step_of RMS opt0 5120 store_complex = (Raise e, w').
Proof.
  apply (complex_parameter_step_raises RMS opt0 5120 store_complex
           (mkGroup [0%nat] hyper0) 0%nat
           {| p_data := complex_vec [0; 0];
              p_grad := Some (complex_vec [0; 1]) |} (complex_vec [0; 1])).
  - discriminate.
  - intros q po s Hpo Hs. simpl in Hs. rewrite lookup_empty in Hs. discriminate.
  - apply list_elem_of_singleton. reflexivity.
  - apply list_elem_of_singleton. reflexivity.
  - apply lookup_singleton_eq.
  - reflexivity.
  - reflexivity.
Defined.

(** ** A state dictionary without ["rms"] *)

Lemma lacks_rms_set p q s' w :
  lacks_rms p w ->
  (q = p -> st_rms s' = None /\ state_is_empty s' = false) ->
  lacks_rms p (set_state q s' w).
Proof.
  intros (g & s & Hg & Hs & Hne & Hr) H. unfold lacks_rms, set_state; simpl.
  destruct (decide (q = p)) as [->|Hqp].
  - destruct (H eq_refl) as [H1 H2]. exists g, s'.
    rewrite lookup_insert_eq. auto.
  - exists g, s. rewrite lookup_insert_ne by done. auto.
Qed.

Lemma lacks_rms_iter p k grads bs beta1 beta2 rho lr weight_decay maximize
    capturable i q :
  preserves (lacks_rms p)
    (iter_of k grads bs beta1 beta2 rho lr weight_decay maximize capturable i q).
Proof.
  apply inv_iter.
  - intros q' t w (g & s & Hg & Hs & Hne & Hr). exists g, s.
    destruct (store_param_same_hessian q' t w) as [Hgr _].
    rewrite Hgr. auto.
  - intros q' t w H. unfold store_step, modify; simpl.
    apply lacks_rms_set; [exact H|]. intros ->.
    destruct H as (g & s & Hg & Hs & Hne & Hr).
    rewrite (get_state_Some _ _ _ Hs). split; [exact Hr|].
    destruct s as [[a|] b c d]; simpl in *; [reflexivity|exact Hne].
  - intros q' t w H. unfold store_exp_avg, modify; simpl.
    apply lacks_rms_set; [exact H|]. intros ->.
    destruct H as (g & s & Hg & Hs & Hne & Hr).
    rewrite (get_state_Some _ _ _ Hs). split; [exact Hr|].
    destruct s as [a [b|] c d]; simpl in *;
      [destruct a; reflexivity|exact Hne].
  - intros q' t w H. unfold store_rms, modify; simpl.
    apply lacks_rms_set; [exact H|]. intros ->.
    destruct H as (g & s & Hg & Hs & Hne & Hr).
    rewrite (get_state_Some _ _ _ Hs). simpl. rewrite Hr. simpl.
    split; [reflexivity|].
    destruct s as [a b c d]; simpl in *. subst d. exact Hne.
Qed.

Lemma lacks_rms_prepared p v cap q t w :
  lacks_rms p w ->
  lacks_rms p (set_state q (prepared v cap t (get_state q w)) w).
Proof.
  intros H. apply lacks_rms_set; [exact H|]. intros ->.
  destruct H as (g & s & Hg & Hs & Hne & Hr).
  rewrite (get_state_Some _ _ _ Hs). unfold prepared.
  rewrite init_state_of_nonempty by exact Hne.
  unfold backfill_hessian. destruct (st_hessian s) eqn:Eh; [auto|].
  split; [exact Hr|].
  destruct s as [a b c d]; simpl in *. destruct a, b; reflexivity.
Qed.

Lemma lacks_rms_collect p v cap acc q :
  preserves (lacks_rms p) (collect_of v cap acc q).
Proof.
  apply inv_collect.
  intros cap' q' po g' w H _ _. by apply lacks_rms_prepared.
Qed.

Lemma collect_lacks_rms_raises p v cap acc w :
  v <> Base -> lacks_rms p w ->
  exists e, fst (collect_of v cap acc p w) = Raise e.
Proof.
  intros Hv H. destruct acc as [[a1 a2] bs].
  pose proof (lacks_rms_prepared p v cap p) as Hprep.
  destruct (collect_cases v cap a1 a2 bs p w)
    as [[Hnone _]|(po & g & Hpo & Hg & [[_ [msg E]]|[Hd _]])].
  - destruct H as (g & s & Hg & _). congruence.
  - rewrite E. simpl. eauto.
  - specialize (Hprep (p_data po) w H).
    destruct Hprep as (g1 & s1 & _ & Hs1 & _ & Hr1).
    unfold set_state in Hs1; simpl in Hs1. rewrite lookup_insert_eq in Hs1.
    injection Hs1 as Hs1. unfold prepared in Hs1.
    destruct v; [contradiction|..];
      cbv beta iota zeta delta [collect_of SophiaG_RMS_collect
        SophiaG_OG_collect SophiaG_RMSD_collect init_state_of] in *;
      rewrite Hpo, Hg, Hd; unfold bind, state_item;
      rewrite !get_state_set_eq, Hs1;
      (destruct (st_exp_avg s1); [|simpl; eauto]);
      cbv beta iota; rewrite get_state_set_eq, Hr1; simpl; eauto.
Qed.

(** X13. [SophiaG_RMS], [SophiaG_OG] and [SophiaG_RMSD] do not create a
    missing rms buffer in a state dictionary that already holds keys: on a
    listed parameter with a gradient whose dictionary lacks ["rms"], as
    one that [SophiaG] has written does, [step] raises, in any mode. *)
Theorem step_without_rms_key_raises v self bs w group p g s :
  v <> Base ->
  group ∈ param_groups self -> p ∈ params group ->
  grad_of w p = Some g ->
  state w !! p = Some s -> state_is_empty s = false -> st_rms s = None ->
  exists e w', step_of v self bs w = (Raise e, w').
Proof.
  intros Hv Hgroup Hp Hg Hs Hne Hr.
  apply (step_trips v (lacks_rms p) p (fun _ => True)) with (group := group);
    try assumption.
  - intros w1 (g1 & _ & Hg1 & _). rewrite Hg1. eauto.
  - intros cap acc q. apply lacks_rms_collect.
  - intros. apply lacks_rms_iter.
  - intros hy _. left. intros cap acc w1 H1.
    by apply collect_lacks_rms_raises.
  - exact Logic.I.
  - exists g, s. auto.
Qed.

Lemma step_without_rms_key_raises_witness :
  exists e w', step_of RMS opt0 5120 store0_init = (Raise e, w').
Proof.
  apply (step_without_rms_key_raises RMS opt0 5120 store0_init
           (mkGroup [0%nat] hyper0) 0%nat (vec [0.1])
           (state_base tensor_0 (vec [0]) (vec [0]))).
  - discriminate.
  - apply list_elem_of_singleton. reflexivity.
  - apply list_elem_of_singleton. reflexivity.
  - reflexivity.
  - apply lookup_singleton_eq.
  - reflexivity.
  - reflexivity.
Defined.

(** ** The first [update_hessian] of a parameter *)






(** ** [maximize] *)

Lemma iter_maximize k grads bs beta1 beta2 rho lr weight_decay capturable i p w :
  iter_of k grads bs beta1 beta2 rho lr weight_decay true capturable i p w
  = iter_of k (map neg grads) bs beta1 beta2 rho lr weight_decay false
      capturable i p w.
Proof.
  destruct k;
    cbv beta iota zeta delta [iter_of _single_tensor_sophiag_iter
      _single_tensor_sophiag_rms_iter _single_tensor_sophiag_og_iter
      _single_tensor_sophiag_rmsd_iter];
    unfold bind at 1; symmetry; unfold bind at 1; symmetry;
    (destruct (lookup_param p w) as [[param|e] w1]; [|reflexivity]);
    unfold bind at 1; symmetry; unfold bind at 1; symmetry;
    unfold lift, index;
    change (map neg grads) with (neg <$> grads);
    rewrite list_lookup_fmap;
    (destruct (grads !! i) as [g|]; reflexivity).
Qed.

(** X15. [maximize=True] is gradient negation and nothing else: every
    kernel, in every mode and on every store, does with [maximize=True] on
    the gradients [grads] exactly what it does with [maximize=False] on the
    negated gradients, exceptions included. *)
Theorem maximize_negates_gradients
    k ps grads bs beta1 beta2 rho lr weight_decay capturable w :
  call k ps grads bs beta1 beta2 rho lr weight_decay true capturable w
  = call k ps (map neg grads) bs beta1 beta2 rho lr weight_decay false
      capturable w.
Proof.
  rewrite !call_iter. generalize 0%nat. revert w.
  induction ps as [|p ps IH]; intros w i; [reflexivity|].
  cbn [for_enumerate]. unfold bind. rewrite iter_maximize.
  destruct (iter_of k (map neg grads) bs beta1 beta2 rho lr weight_decay false
              capturable i p w) as [[[]|e] w1]; [apply IH|reflexivity].
Qed.

(** ** [__setstate__] *)

Section SetStateProofs.

Variable not_a_scalar : exn.

Lemma setdefault_idem o d : setdefault (setdefault o d) d = setdefault o d.
Proof. by destruct o. Qed.

Lemma group_setdefaults_idem g :
  group_setdefaults (group_setdefaults g) = group_setdefaults g.
Proof.
  unfold group_setdefaults; simpl. by rewrite !setdefault_idem.
Qed.

Lemma map_group_setdefaults_idem gs :
  map group_setdefaults (map group_setdefaults gs) = map group_setdefaults gs.
Proof.
  rewrite map_map. apply map_ext. intros g. apply group_setdefaults_idem.
Qed.

Lemma group_setdefaults_complete gs :
  Forall (fun g => is_Some (sg_maximize g) /\ is_Some (sg_capturable g))
    (map group_setdefaults gs).
Proof.
  apply Forall_forall. intros g Hg.
  apply list_elem_of_In, in_map_iff in Hg as (g0 & <- & _).
  simpl. split; [destruct (sg_maximize g0)|destruct (sg_capturable g0)];
    simpl; eauto.
Qed.

Lemma convert_steps_ok states :
  Forall (fun ps => exists x, convertible not_a_scalar (snd ps) x) states ->
  exists states',
    convert_steps not_a_scalar states = (Ok tt, states')
    /\ Forall2 (fun ps ps' =>
                  fst ps' = fst ps
                  /\ exists x, convertible not_a_scalar (snd ps) x
                               /\ converted (snd ps) (snd ps') x)
         states states'
    /\ forallb is_tensor (saved_steps states') = true
    /\ Forall (fun ps' => is_Some (as_state (snd ps'))) states'.
Proof.
  induction 1 as [|[p s] rest (x & v & Hv & Hx) Hrest IH].
  - exists []. repeat split; constructor.
  - destruct IH as (rest' & Hrun & H2 & Hall & Has).
    exists ((p, with_step s (StepTensor (tensor_of_float x))) :: rest').
    simpl in Hv. cbn [convert_steps]. rewrite Hv, Hx, Hrun.
    split; [reflexivity|]. split; [|split].
    + constructor; [|exact H2]. simpl. split; [reflexivity|].
      exists x. split; [exists v; auto|reflexivity].
    + unfold saved_steps in *. simpl. exact Hall.
    + constructor; [|exact Has]. simpl. eauto.
Qed.

(** X16. [__setstate__] converts step counters that are Python numbers.
    When the first state dictionary holds a number under ["step"] and every
    dictionary holds a number or a one-element tensor there, the call
    returns, every dictionary holds afterwards the zero-dimensional host
    tensor with the same value and keeps its other keys, the dictionaries
    keep their order, every group holds ["maximize"] and ["capturable"],
    and the test of the dispatch functions accepts the counters. *)
Theorem setstate_converts_steps state p0 s0 x0 rest :
  saved_state state = (p0, s0) :: rest ->
  sv_step s0 = Some (StepNumber x0) ->
  Forall (fun ps => exists x, convertible not_a_scalar (snd ps) x) rest ->
  exists states',
    __setstate__ not_a_scalar state
    = (Ok tt, {| saved_state := states';
                 saved_groups := map group_setdefaults (saved_groups state) |})
    /\ Forall2 (fun ps ps' =>
                  fst ps' = fst ps
                  /\ exists x, convertible not_a_scalar (snd ps) x
                               /\ converted (snd ps) (snd ps') x)
         (saved_state state) states'
    /\ check_state_steps (saved_steps states') = Ok tt
    /\ Forall (fun ps' => is_Some (as_state (snd ps'))) states'
    /\ Forall (fun g => is_Some (sg_maximize g) /\ is_Some (sg_capturable g))
         (map group_setdefaults (saved_groups state)).
Proof.
  intros Hst Hs0 Hrest.
  assert (Hall : Forall (fun ps => exists x, convertible not_a_scalar (snd ps) x)
                   (saved_state state)).
  { rewrite Hst. constructor; [|exact Hrest]. exists x0, (StepNumber x0).
    simpl. auto. }
  destruct (convert_steps_ok (saved_state state) Hall)
    as (states' & Hrun & H2 & Hcheck & Has).
  exists states'. split.
  - unfold __setstate__. rewrite Hst in *. cbn [map snd step_is_tensor].
    rewrite Hs0. cbv zeta. by rewrite Hrun.
  - split; [exact H2|]. split; [|split; [exact Has|]].
    + unfold check_state_steps. by rewrite Hcheck.
    + apply group_setdefaults_complete.
Qed.

(** X17. [__setstate__] looks at the first state dictionary only. When its
    step counter is a tensor, the call returns and converts nothing: a
    later dictionary whose counter is a Python number keeps the number,
    and the test of the dispatch functions then raises [RuntimeError] on
    every list of counters that holds it. *)
Theorem setstate_checks_first_only state p0 s0 t rest p s x :
  saved_state state = (p0, s0) :: rest ->
  sv_step s0 = Some (StepTensor t) ->
  In (p, s) rest -> sv_step s = Some (StepNumber x) ->
  exists state',
    __setstate__ not_a_scalar state = (Ok tt, state')
    /\ saved_state state' = saved_state state
    /\ In (StepNumber x) (saved_steps (saved_state state'))
    /\ forall state_steps, In (StepNumber x) state_steps ->
         exists msg, check_state_steps state_steps = Raise (RuntimeError msg).
Proof.
  intros Hst Hs0 Hin Hs. eexists. split.
  - unfold __setstate__. rewrite Hst. cbn [map snd step_is_tensor].
    rewrite Hs0. reflexivity.
  - split; [cbn [saved_state]; by rewrite Hst|]. split.
    + cbn [saved_state]. unfold saved_steps.
      apply list_elem_of_In, list_elem_of_omap. exists (p, s).
      split; [|exact Hs]. apply list_elem_of_In. by right.
    + intros steps Hx. unfold check_state_steps.
      assert (E : forallb is_tensor steps = false).
      { destruct (forallb is_tensor steps) eqn:E; [|reflexivity].
        rewrite forallb_forall in E. by specialize (E _ Hx). }
      rewrite E. eauto.
Qed.

Lemma convert_steps_head p s rest states' :
  convert_steps not_a_scalar ((p, s) :: rest) = (Ok tt, states') ->
  exists x rest',
    states' = (p, with_step s (StepTensor (tensor_of_float x))) :: rest'.
Proof.
  cbn [convert_steps]. destruct (sv_step s) as [v|]; [|discriminate].
  destruct (float_of not_a_scalar v) as [x|e]; [|discriminate].
  destruct (convert_steps not_a_scalar rest) as [r rest'].
  intros [= -> <-]. eauto.
Qed.

Lemma setstate_groups state r state' :
  __setstate__ not_a_scalar state = (r, state') ->
  saved_groups state' = map group_setdefaults (saved_groups state).
Proof.
  unfold __setstate__.
  destruct (step_is_tensor (map snd (saved_state state))) as [[|]|e].
  - by intros [= _ <-].
  - destruct (convert_steps not_a_scalar (saved_state state)) as [r0 states].
    by intros [= _ <-].
  - by intros [= _ <-].
Qed.

Lemma group_setdefaults_values gs :
  Forall2 (fun g g' =>
             sg_params g' = sg_params g /\ sg_lr g' = sg_lr g
             /\ sg_betas g' = sg_betas g /\ sg_rho g' = sg_rho g
             /\ sg_weight_decay g' = sg_weight_decay g
             /\ sg_maximize g' = Some (default false (sg_maximize g))
             /\ sg_capturable g' = Some (default false (sg_capturable g)))
    gs (map group_setdefaults gs).
Proof.
  induction gs as [|g gs IH]; constructor; [|exact IH].
  cbn [group_setdefaults sg_params sg_lr sg_betas sg_rho sg_weight_decay
         sg_maximize sg_capturable].
  repeat (split; [reflexivity|]).
  split; [destruct (sg_maximize g)|destruct (sg_capturable g)]; reflexivity.
Qed.

(** X18. [__setstate__] is idempotent where it returns: a second call on
    the object that a first call has left returns as well and changes
    nothing. The groups of that object are those of the object before the
    first call, in order and with their parameters and hyperparameters,
    and each holds ["maximize"] and ["capturable"]: the value it had, or
    [False] where the key was missing. *)
Theorem setstate_idempotent state state' :
  __setstate__ not_a_scalar state = (Ok tt, state') ->
  __setstate__ not_a_scalar state' = (Ok tt, state')
  /\ Forall2 (fun g g' =>
                sg_params g' = sg_params g /\ sg_lr g' = sg_lr g
                /\ sg_betas g' = sg_betas g /\ sg_rho g' = sg_rho g
                /\ sg_weight_decay g' = sg_weight_decay g
                /\ sg_maximize g' = Some (default false (sg_maximize g))
                /\ sg_capturable g' = Some (default false (sg_capturable g)))
       (saved_groups state) (saved_groups state').
Proof.
  intros H. split.
  2:{ rewrite (setstate_groups _ _ _ H). apply group_setdefaults_values. }
  revert H.
  unfold __setstate__ at 1.
  destruct (saved_state state) as [|[p0 s0] rest] eqn:Hst.
  - cbn [map step_is_tensor convert_steps]. intros [= <-].
    unfold __setstate__. cbn [saved_state saved_groups map step_is_tensor
                                convert_steps].
    by rewrite map_group_setdefaults_idem.
  - cbn [map snd step_is_tensor].
    destruct (sv_step s0) as [[x0|t]|] eqn:Hs0; [| |discriminate].
    + destruct (convert_steps not_a_scalar ((p0, s0) :: rest))
        as [r states'] eqn:Hrun.
      intros [= -> <-].
      destruct (convert_steps_head p0 s0 rest states' Hrun) as (x & rest' & ->).
      unfold __setstate__. cbn [saved_state saved_groups map snd step_is_tensor
                                  with_step sv_step].
      by rewrite map_group_setdefaults_idem.
    + intros [= <-].
      unfold __setstate__. cbn [saved_state saved_groups].
      cbn [map snd step_is_tensor]. rewrite Hs0.
      by rewrite map_group_setdefaults_idem.
Qed.

Lemma convert_steps_missing pre p s post :
  Forall (fun ps => exists x, convertible not_a_scalar (snd ps) x) pre ->
  sv_step s = None ->
  exists pre',
    convert_steps not_a_scalar (pre ++ (p, s) :: post)
    = (Raise (KeyError "step"), pre' ++ (p, s) :: post)
    /\ Forall2 (fun ps ps' =>
                  fst ps' = fst ps
                  /\ exists x, convertible not_a_scalar (snd ps) x
                               /\ converted (snd ps) (snd ps') x)
         pre pre'.
Proof.
  intros Hpre Hs.
  induction Hpre as [|[q sq] pre (x & v & Hv & Hx) Hpre IH].
  - exists []. split; [|constructor]. simpl. by rewrite Hs.
  - destruct IH as (pre' & Hrun & H2).
    exists ((q, with_step sq (StepTensor (tensor_of_float x))) :: pre').
    simpl in Hv. split.
    + cbn [app convert_steps]. by rewrite Hv, Hx, Hrun.
    + constructor; [|exact H2]. simpl. split; [reflexivity|].
      exists x. split; [exists v; auto|reflexivity].
Qed.

(** X19. A state dictionary without ["step"] makes [__setstate__] raise
    [KeyError], and the object is left half converted: when the first
    dictionary holds a number, the dictionaries before the one that lacks
    the key hold tensors already, the others are as they were, and the
    groups have their defaults. When the first dictionary itself lacks the
    key, no dictionary has been touched. *)
Theorem setstate_missing_step state pre p s post :
  saved_state state = pre ++ (p, s) :: post ->
  sv_step s = None ->
  Forall (fun ps => exists x, convertible not_a_scalar (snd ps) x) pre ->
  match pre with
  | [] => True
  | (_, s0) :: _ => exists x0, sv_step s0 = Some (StepNumber x0)
  end ->
  exists pre',
    __setstate__ not_a_scalar state
    = (Raise (KeyError "step"),
       {| saved_state := pre' ++ (p, s) :: post;
          saved_groups := map group_setdefaults (saved_groups state) |})
    /\ Forall2 (fun ps ps' =>
                  fst ps' = fst ps
                  /\ exists x, convertible not_a_scalar (snd ps) x
                               /\ converted (snd ps) (snd ps') x)
         pre pre'.
Proof.
  intros Hst Hs Hpre Hfirst.
  destruct (convert_steps_missing pre p s post Hpre Hs) as (pre' & Hrun & H2).
  exists pre'. split; [|exact H2].
  unfold __setstate__. rewrite Hst.
  destruct pre as [|[q0 s0] pre0].
  - inversion H2; subst. cbn [app map snd step_is_tensor]. by rewrite Hs.
  - destruct Hfirst as [x0 Hs0]. cbn [app map snd step_is_tensor].
    rewrite Hs0. cbv zeta.
    change ((q0, s0) :: pre0 ++ (p, s) :: post)
      with (((q0, s0) :: pre0) ++ (p, s) :: post).
    by rewrite Hrun.
Qed.

End SetStateProofs.

Lemma setstate_converts_steps_witness :
  exists states',
    __setstate__ not_scalar_error saved_numbers
    = (Ok tt, {| saved_state := states';
                 saved_groups := map group_setdefaults (saved_groups saved_numbers) |})
    /\ Forall2 (fun ps ps' =>
                  fst ps' = fst ps
                  /\ exists x, convertible not_scalar_error (snd ps) x
                               /\ converted (snd ps) (snd ps') x)
         (saved_state saved_numbers) states'
    /\ check_state_steps (saved_steps states') = Ok tt
    /\ Forall (fun ps' => is_Some (as_state (snd ps'))) states'
    /\ Forall (fun g => is_Some (sg_maximize g) /\ is_Some (sg_capturable g))
         (map group_setdefaults (saved_groups saved_numbers)).
Proof.
  apply (setstate_converts_steps not_scalar_error saved_numbers 0%nat
           (saved_dict (Some (StepNumber 3))) 3
           [(1%nat, saved_dict (Some (StepNumber 3)))]).
  - reflexivity.
  - reflexivity.
  - constructor; [|constructor]. exists 3, (StepNumber 3). split; reflexivity.
Defined.

Lemma setstate_checks_first_only_witness :
  exists state',
    __setstate__ not_scalar_error saved_mixed = (Ok tt, state')
    /\ saved_state state' = saved_state saved_mixed
    /\ In (StepNumber 3) (saved_steps (saved_state state'))
    /\ forall state_steps, In (StepNumber 3) state_steps ->
         exists msg, check_state_steps state_steps = Raise (RuntimeError msg).
Proof.
  apply (setstate_checks_first_only not_scalar_error saved_mixed 0%nat
           (saved_dict (Some (StepTensor tensor_0))) tensor_0
           [(1%nat, saved_dict (Some (StepNumber 3)))] 1%nat
           (saved_dict (Some (StepNumber 3))) 3).
  - reflexivity.
  - reflexivity.
  - left. reflexivity.
  - reflexivity.
Defined.

Lemma setstate_idempotent_witness :
  __setstate__ not_scalar_error
    (snd (__setstate__ not_scalar_error saved_numbers))
  = (Ok tt, snd (__setstate__ not_scalar_error saved_numbers))
  /\ Forall2 (fun g g' =>
                sg_params g' = sg_params g /\ sg_lr g' = sg_lr g
                /\ sg_betas g' = sg_betas g /\ sg_rho g' = sg_rho g
                /\ sg_weight_decay g' = sg_weight_decay g
                /\ sg_maximize g' = Some (default false (sg_maximize g))
                /\ sg_capturable g' = Some (default false (sg_capturable g)))
       (saved_groups saved_numbers)
       (saved_groups (snd (__setstate__ not_scalar_error saved_numbers))).
Proof.
  apply (setstate_idempotent not_scalar_error saved_numbers
           (snd (__setstate__ not_scalar_error saved_numbers))).
  reflexivity.
Defined.

Lemma setstate_missing_step_witness :
  exists pre',
    __setstate__ not_scalar_error saved_broken
    = (Raise (KeyError "step"),
       {| saved_state := pre' ++ (1%nat, saved_dict None) :: [];
          saved_groups := map group_setdefaults (saved_groups saved_broken) |})
    /\ Forall2 (fun ps ps' =>
                  fst ps' = fst ps
                  /\ exists x, convertible not_scalar_error (snd ps) x
                               /\ converted (snd ps) (snd ps') x)
         [(0%nat, saved_dict (Some (StepNumber 3)))] pre'.
Proof.
  apply (setstate_missing_step not_scalar_error saved_broken
           [(0%nat, saved_dict (Some (StepNumber 3)))] 1%nat (saved_dict None) []).
  - reflexivity.
  - reflexivity.
  - constructor; [|constructor]. exists 3, (StepNumber 3). split; reflexivity.
  - exists 3. reflexivity.
Defined.

(** ** A parameter that a group lists twice *)




